(** * PrefixSumComputer: a lazily maintained prefix-sum index

    A shallow embedding of the class [PrefixSumComputer] (weights kept in a
    [Uint32Array], a cache of inclusive prefix sums in a second
    [Uint32Array], and a one-cell [Int32Array] holding the last index up to
    which the cache can be trusted), followed by the properties of its
    mutators and queries. *)

From Stdlib Require Import ZArith QArith Qround Lia.
From stdpp Require Import base list strings.

Close Scope Q_scope.
Local Open Scope Z_scope.

(** ** JavaScript numbers and typed arrays *)

(** Integral JavaScript numbers are modelled by [Z]; [None] stands for a
    value that is not a number any more ([undefined], as read outside the
    bounds of a typed array, or [NaN], as produced by arithmetic on it). *)
Definition number : Type := option Z.

(** [ToUint32] and [ToInt32] of the language, on integers: the conversions
    applied when a number is stored in a [Uint32Array] or an [Int32Array],
    and by the bit operator [| 0]. *)
Definition wrap_uint32 (z : Z) : Z := z mod 2 ^ 32.

Definition wrap_int32 (z : Z) : Z := (z + 2 ^ 31) mod 2 ^ 32 - 2 ^ 31.

(** What a [Uint32Array] cell holds after [n] is assigned to it. *)
Definition store_uint32 (n : number) : Z :=
  match n with
  | Some z => wrap_uint32 z
  | None => 0
  end.

Definition len {A : Type} (a : list A) : Z := Z.of_nat (length a).

(** [a[i]]: [undefined] outside the bounds. *)
Definition read (a : list Z) (i : Z) : number :=
  if i <? 0 then None else a !! Z.to_nat i.

(** [a[i] = n] on a [Uint32Array]: ignored outside the bounds. *)
Definition write (a : list Z) (i : Z) (n : number) : list Z :=
  if i <? 0 then a else <[Z.to_nat i := store_uint32 n]> a.

(** [new Uint32Array(n)]: [n] cells holding zero. *)
Definition new_Uint32Array (n : Z) : list Z := replicate (Z.to_nat n) 0.

(** Relative index of [subarray]: negative counts from the end, and the
    result is clamped to the bounds. *)
Definition relative_index (l i : Z) : Z :=
  if i <? 0 then Z.max (l + i) 0 else Z.min i l.

(** [a.subarray(b, e)]. *)
Definition subarray (a : list Z) (b e : Z) : list Z :=
  let b' := relative_index (len a) b in
  let e' := relative_index (len a) e in
  take (Z.to_nat (e' - b')) (drop (Z.to_nat b') a).

(** [a.subarray(b)]: up to the end. *)
Definition subarray_from (a : list Z) (b : Z) : list Z :=
  subarray a b (len a).

(** [target.set(source, offset)]: a [RangeError] ([None]) when the source
    does not fit at that offset, also when the source is empty. *)
Definition typed_set (target source : list Z) (offset : Z) : option (list Z) :=
  if (offset <? 0) || (len target <? len source + offset) then None
  else Some (take (Z.to_nat offset) target ++ source
             ++ drop (Z.to_nat (offset + len source)) target).

(** [a + b] and [a - b] on numbers. *)
Definition num_add (a b : number) : number :=
  match a, b with
  | Some x, Some y => Some (x + y)
  | _, _ => None
  end.

Definition num_sub (a b : number) : number :=
  match a, b with
  | Some x, Some y => Some (x - y)
  | _, _ => None
  end.

(** [a < b] and [a >= b]: false as soon as one side is not a number. *)
Definition num_lt (a b : number) : bool :=
  match a, b with
  | Some x, Some y => x <? y
  | _, _ => false
  end.

Definition num_ge (a b : number) : bool :=
  match a, b with
  | Some x, Some y => y <=? x
  | _, _ => false
  end.

(** ** vs/base/common/uint *)

Definition MAX_UINT_32 : Z := 4294967295.

(** Modelled from the spec: [toUint32] is imported from vs/base/common/uint,
    which is not among the sources at hand. The spec says that values are
    coerced into the unsigned 32-bit range on input; the model clamps to
    that range and leaves the values inside it alone. *)
Definition toUint32 (v : Z) : Z :=
  if v <? 0 then 0
  else if MAX_UINT_32 <? v then MAX_UINT_32
  else v.

(** ** The object and the monad of its methods *)

Record PrefixSumIndexOfResult : Type := mkResult {
  index : Z;
  remainder : number
}.

Record PrefixSumComputer : Type := mkPSC {
  (** values[i] is the value at index i *)
  values : list Z;
  (** prefixSum[i] = SUM(heights[j]), 0 <= j <= i *)
  prefixSum : list Z;
  (** prefixSum[i], 0 <= i <= prefixSumValidIndex can be trusted *)
  prefixSumValidIndex : Z
}.

(** How a call ends: with a value, or with the [RangeError] of a
    [set] that does not fit. *)
Inductive completion (A : Type) : Type :=
| Returned (a : A)
| RangeError.

Arguments Returned {A} a.
Arguments RangeError {A}.

(** A method is a function of [this]; it yields a completion and the object
    as the call leaves it (a call that throws keeps the fields it has
    assigned so far). *)
Definition M (A : Type) : Type :=
  PrefixSumComputer -> completion A * PrefixSumComputer.

#[export] Instance M_ret : MRet M :=
  fun A (a : A) this => (Returned a, this).

#[export] Instance M_bind : MBind M :=
  fun A B (k : A -> M B) (m : M A) this =>
    match m this with
    | (Returned a, this') => k a this'
    | (RangeError, this') => (RangeError, this')
    end.

Definition get_values : M (list Z) := fun this => (Returned (values this), this).

Definition get_prefixSum : M (list Z) :=
  fun this => (Returned (prefixSum this), this).

Definition get_validIndex : M Z :=
  fun this => (Returned (prefixSumValidIndex this), this).

Definition set_values (v : list Z) : M unit :=
  fun this => (Returned tt, mkPSC v (prefixSum this) (prefixSumValidIndex this)).

Definition set_prefixSum (p : list Z) : M unit :=
  fun this => (Returned tt, mkPSC (values this) p (prefixSumValidIndex this)).

(** [this.prefixSumValidIndex[0] = z], a store in an [Int32Array]. *)
Definition set_validIndex (z : Z) : M unit :=
  fun this => (Returned tt, mkPSC (values this) (prefixSum this) (wrap_int32 z)).

(** [this.values.set(source, offset)] and [this.prefixSum.set(source, offset)]. *)
Definition values_set (source : list Z) (offset : Z) : M unit :=
  fun this =>
    match typed_set (values this) source offset with
    | Some v => (Returned tt, mkPSC v (prefixSum this) (prefixSumValidIndex this))
    | None => (RangeError, this)
    end.

Definition prefixSum_set (source : list Z) (offset : Z) : M unit :=
  fun this =>
    match typed_set (prefixSum this) source offset with
    | Some p => (Returned tt, mkPSC (values this) p (prefixSumValidIndex this))
    | None => (RangeError, this)
    end.

(** [if (c) { m }] *)
Definition when (c : bool) (m : M unit) : M unit := if c then m else mret tt.

(** [for (let i = start; i <= stop; i++) { body i }], for a body that
    assigns neither [i] nor [stop]: the number of rounds is known on entry. *)
Fixpoint for_rounds (n : nat) (i : Z) (body : Z -> M unit) : M unit :=
  match n with
  | O => mret tt
  | S n' => body i;; for_rounds n' (i + 1) body
  end.

Definition for_range (start stop : Z) (body : Z -> M unit) : M unit :=
  for_rounds (Z.to_nat (stop - start + 1)) start body.

(** ** The class *)

(** [constructor(values)]. The object keeps the array it is given; the
    model follows the edits made through the methods. *)
Definition new_PrefixSumComputer (values : list Z) : PrefixSumComputer :=
  mkPSC values (new_Uint32Array (len values)) (wrap_int32 (-1)).

Definition insertValues (insertIndex : Z) (insertValues : list Z) : M bool :=
  let insertIndex := toUint32 insertIndex in
  oldValues ← get_values;
  oldPrefixSum ← get_prefixSum;
  let insertValuesLen := len insertValues in
  if insertValuesLen =? 0 then mret false
  else
    set_values (new_Uint32Array (len oldValues + insertValuesLen));;
    values_set (subarray oldValues 0 insertIndex) 0;;
    values_set (subarray_from oldValues insertIndex) (insertIndex + insertValuesLen);;
    values_set insertValues insertIndex;;
    valid ← get_validIndex;
    when (insertIndex - 1 <? valid) (set_validIndex (insertIndex - 1));;
    newValues ← get_values;
    set_prefixSum (new_Uint32Array (len newValues));;
    valid ← get_validIndex;
    when (0 <=? valid) (prefixSum_set (subarray oldPrefixSum 0 (valid + 1)) 0);;
    mret true.

Definition changeValue (index value : Z) : M bool :=
  let index := toUint32 index in
  let value := toUint32 value in
  vs ← get_values;
  if match read vs index with Some x => x =? value | None => false end
  then mret false
  else
    set_values (write vs index (Some value));;
    valid ← get_validIndex;
    when (index - 1 <? valid) (set_validIndex (index - 1));;
    mret true.

Definition removeValues (startIndex cnt : Z) : M bool :=
  let startIndex := toUint32 startIndex in
  let cnt := toUint32 cnt in
  oldValues ← get_values;
  oldPrefixSum ← get_prefixSum;
  if len oldValues <=? startIndex then mret false
  else
    let maxCnt := len oldValues - startIndex in
    let cnt := if maxCnt <=? cnt then maxCnt else cnt in
    if cnt =? 0 then mret false
    else
      set_values (new_Uint32Array (len oldValues - cnt));;
      values_set (subarray oldValues 0 startIndex) 0;;
      values_set (subarray_from oldValues (startIndex + cnt)) startIndex;;
      newValues ← get_values;
      set_prefixSum (new_Uint32Array (len newValues));;
      valid ← get_validIndex;
      when (startIndex - 1 <? valid) (set_validIndex (startIndex - 1));;
      valid ← get_validIndex;
      when (0 <=? valid) (prefixSum_set (subarray oldPrefixSum 0 (valid + 1)) 0);;
      mret true.

(** [this.prefixSum[i] = n] *)
Definition prefixSum_write (i : Z) (n : number) : M unit :=
  fun this =>
    (Returned tt,
     mkPSC (values this) (write (prefixSum this) i n) (prefixSumValidIndex this)).

Definition _getAccumulatedValue (index : Z) : M number :=
  valid ← get_validIndex;
  if index <=? valid then
    p ← get_prefixSum;
    mret (read p index)
  else
    vs ← get_values;
    let startIndex := valid + 1 in
    when (startIndex =? 0) (prefixSum_write 0 (read vs 0));;
    let startIndex := if startIndex =? 0 then startIndex + 1 else startIndex in
    let index := if len vs <=? index then len vs - 1 else index in
    for_range startIndex index (fun i =>
      p ← get_prefixSum;
      prefixSum_write i (num_add (read p (i - 1)) (read vs i)));;
    set_validIndex (Z.max valid index);;
    p ← get_prefixSum;
    mret (read p index).

Definition getTotalValue : M number :=
  vs ← get_values;
  if len vs =? 0 then mret (Some 0)
  else _getAccumulatedValue (len vs - 1).

Definition getAccumulatedValue (index : Z) : M number :=
  if index <? 0 then mret (Some 0)
  else
    let index := toUint32 index in
    _getAccumulatedValue index.

(** The [while (low <= high)] loop of [getIndexOf]. It reads [this.values]
    and [this.prefixSum] and assigns only its local variables; of those,
    [mid] and [midStart] are read after the loop ([midStop] is assigned
    afresh in every round before it is read). [mid] is
    [low + ((high - low) / 2) | 0]: the sum, a multiple of one half, is
    truncated and converted by [| 0]. The rounds are counted by [fuel];
    [None] says that the loop has not ended within them. *)
Fixpoint search (fuel : nat) (vs p : list Z) (accumulatedValue : Z)
    (low high mid : Z) (midStart : number) : option (Z * number) :=
  match fuel with
  | O => None
  | S fuel' =>
    if low <=? high then
      let mid := wrap_int32 (Z.quot (2 * low + (high - low)) 2) in
      let midStop := read p mid in
      let midStart := num_sub midStop (read vs mid) in
      if num_lt (Some accumulatedValue) midStart then
        search fuel' vs p accumulatedValue low (mid - 1) mid midStart
      else if num_ge (Some accumulatedValue) midStop then
        search fuel' vs p accumulatedValue (mid + 1) high mid midStart
      else Some (mid, midStart)
    else Some (mid, midStart)
  end.

(** [getIndexOf] runs the loop for at most one round more than there are
    values; [search_enough_fuel] below shows that the loop ends within them.
    The remainder [accumulatedValue - midStart] is the difference of two
    integers here; in the language it is a difference of floating-point
    numbers, which is the same as long as the floored position is below
    [2 ^ 53] in magnitude or [midStart] is 0. *)
Definition getIndexOf (accumulatedValue : Q) : M (option PrefixSumIndexOfResult) :=
  let accumulatedValue := Qfloor accumulatedValue in
  (* Compute all sums (to get a fully valid prefixSum) *)
  getTotalValue;;
  vs ← get_values;
  p ← get_prefixSum;
  mret (match search (S (length vs)) vs p accumulatedValue 0 (len vs - 1) 0 (Some 0) with
        | Some (mid, midStart) =>
            Some (mkResult mid (num_sub (Some accumulatedValue) midStart))
        | None => None
        end).

(** ** Calls and the states they lead to *)

Definition is_uint32 (z : Z) : Prop := 0 <= z < 2 ^ 32.

Definition is_int32 (z : Z) : Prop := - 2 ^ 31 <= z < 2 ^ 31.

(** Indices are kept in an [Int32Array] and pass through [| 0]: the arrays
    considered have at most [MAX_LENGTH] cells. *)
Definition MAX_LENGTH : Z := 2 ^ 31.

Inductive call : Type :=
| Insert (insertIndex : Z) (insertValues : list Z)
| Change (index value : Z)
| Remove (startIndex cnt : Z)
| Total
| Accumulated (index : Z)
| IndexOf (accumulatedValue : Q).

Definition perform (c : call) : M unit :=
  match c with
  | Insert i ws => insertValues i ws;; mret tt
  | Change i v => changeValue i v;; mret tt
  | Remove i n => removeValues i n;; mret tt
  | Total => getTotalValue;; mret tt
  | Accumulated i => getAccumulatedValue i;; mret tt
  | IndexOf a => getIndexOf a;; mret tt
  end.

(** The arguments of a call have the types of the signature: the values
    inserted are a [Uint32Array]. *)
Definition typed (c : call) : Prop :=
  match c with
  | Insert _ ws => Forall is_uint32 ws
  | _ => True
  end.

(** The states of an object built by the constructor from a [Uint32Array]
    and used through calls that complete. *)
Inductive reachable : PrefixSumComputer -> Prop :=
| reachable_new (ws : list Z) :
    Forall is_uint32 ws -> len ws <= MAX_LENGTH ->
    reachable (new_PrefixSumComputer ws)
| reachable_call (c : call) (s s' : PrefixSumComputer) :
    reachable s -> typed c ->
    perform c s = (Returned tt, s') ->
    len (values s') <= MAX_LENGTH ->
    reachable s'.

(** ** Sums computed from scratch *)

Definition sumZ (l : list Z) : Z := foldr Z.add 0 l.

(** The sum of the [n] first values. *)
Definition psum (vs : list Z) (n : nat) : Z := sumZ (take n vs).

(** The inclusive sum of [vs[0..i]]; zero for [i = -1]. *)
Definition sum_through (vs : list Z) (i : Z) : Z := psum vs (Z.to_nat (i + 1)).

(** ** The state invariant *)

(** The invariant as the cache keeps it: sums are stored in a
    [Uint32Array], hence reduced modulo [2 ^ 32]. *)
Record Inv (s : PrefixSumComputer) : Prop := mkInv {
  inv_values : Forall is_uint32 (values s);
  inv_bound : len (values s) <= MAX_LENGTH;
  inv_length : length (prefixSum s) = length (values s);
  inv_valid : -1 <= prefixSumValidIndex s <= len (values s) - 1;
  inv_cache : forall i : Z, 0 <= i <= prefixSumValidIndex s ->
    read (prefixSum s) i = Some (wrap_uint32 (sum_through (values s) i))
}.

(** The invariant in the words of the specification: equal lengths, the
    mark between -1 and the last index, and the sums themselves in the
    cache up to the mark. *)
Record ExactInv (s : PrefixSumComputer) : Prop := mkExactInv {
  exact_length : length (prefixSum s) = length (values s);
  exact_valid : -1 <= prefixSumValidIndex s <= len (values s) - 1;
  exact_cache : forall i : Z, 0 <= i <= prefixSumValidIndex s ->
    read (prefixSum s) i = Some (sum_through (values s) i)
}.

(** The test and store [if (i - 1 < valid) { valid = i - 1 }] never raises
    the mark, whatever the mark was; on an [Int32Array] cell it computes
    the minimum. *)
Definition lowered (i valid : Z) : Z :=
  if i - 1 <? valid then wrap_int32 (i - 1) else valid.

(** The cache holds the sums, reduced, below position [i]. *)
Definition filled (vs : list Z) (valid : Z) (i : Z) (s : PrefixSumComputer) : Prop :=
  values s = vs /\ prefixSumValidIndex s = valid /\
  length (prefixSum s) = length vs /\
  forall t : Z, 0 <= t < i ->
    read (prefixSum s) t = Some (wrap_uint32 (sum_through vs t)).

Definition is_uint32b (z : Z) : bool := (0 <=? z) && (z <? 2 ^ 32).

Definition number_eqb (a b : number) : bool :=
  match a, b with
  | Some x, Some y => x =? y
  | None, None => true
  | _, _ => false
  end.

(** [Inv], as a test. *)
Definition Inv_check (s : PrefixSumComputer) : bool :=
  forallb is_uint32b (values s)
  && (len (values s) <=? MAX_LENGTH)
  && (length (prefixSum s) =? length (values s))%nat
  && (-1 <=? prefixSumValidIndex s)
  && (prefixSumValidIndex s <=? len (values s) - 1)
  && forallb (fun n : nat =>
        number_eqb (prefixSum s !! n)
                   (Some (wrap_uint32 (psum (values s) (S n)))))
       (seq 0 (Z.to_nat (prefixSumValidIndex s + 1))).

(** The calls that edit the values. *)
Definition is_mutator (c : call) : Prop :=
  match c with
  | Insert _ _ | Change _ _ | Remove _ _ => True
  | _ => False
  end.

(** A call within its precondition: an insertion at a position of the
    sequence or at its end, that leaves the array within [MAX_LENGTH]. *)
Definition applicable (c : call) (s : PrefixSumComputer) : Prop :=
  match c with
  | Insert i ws =>
      toUint32 i <= len (values s) /\ len (values s) + len ws <= MAX_LENGTH
  | _ => True
  end.

(** ** Sample objects *)

(** Three unit rows, fresh and after [getTotalValue]. *)
Definition three_rows : PrefixSumComputer := new_PrefixSumComputer [1; 1; 1].

Definition three_rows_summed : PrefixSumComputer := mkPSC [1; 1; 1] [1; 2; 3] 2.

(** Two values after an insertion in the middle. *)
Definition two_fives : PrefixSumComputer := new_PrefixSumComputer [5; 5].

Definition four_values : PrefixSumComputer := mkPSC [5; 2; 3; 5] [0; 0; 0; 0] (-1).

(** Values whose sum does not fit 32 bits. *)
Definition overflowing : PrefixSumComputer :=
  new_PrefixSumComputer [4294967295; 1].

Definition overflowing_inside : PrefixSumComputer :=
  new_PrefixSumComputer [4294967295; 2; 3].


(** * The marker service *)

(** ** [Map] *)

(** A [Map] of the language: its entries in the order in which their keys
    were first set. [ResourceMap] (vs/base/common/map) is not among the
    sources; it is taken to be such a map with resources as keys, as its
    name and its uses here ([get], [set], [delete], [has], [values]) say. *)
Module JsMap.

Abbreviation t K V := (list (K * V)).

Section Operations.

Context {K V : Type} `{EqDecision K}.

Definition empty : t K V := [].

Fixpoint get (k : K) (m : t K V) : option V :=
  match m with
  | [] => None
  | (k', v) :: m' => if decide (k = k') then Some v else get k m'
  end.

Definition has (k : K) (m : t K V) : bool :=
  match get k m with
  | Some _ => true
  | None => false
  end.

(** [m.set(k, v)]: the value of an entry that exists is replaced where the
    entry stands; a new entry goes to the end. *)
Fixpoint set (k : K) (v : V) (m : t K V) : t K V :=
  match m with
  | [] => [(k, v)]
  | (k', v') :: m' =>
      if decide (k = k') then (k', v) :: m' else (k', v') :: set k v m'
  end.

(** [m.delete(k)]: whether there was an entry, and the map without it. *)
Definition delete (k : K) (m : t K V) : bool * t K V :=
  (has k m, filter (fun e => e.1 <> k) m).

Definition keys (m : t K V) : list K := m.*1.

(** [m.values()] *)
Definition values (m : t K V) : list V := m.*2.

End Operations.

End JsMap.

(** ** Markers *)

(** The fields of a marker that the service reads are numbers and strings;
    the others ([code], [source], [relatedInformation], [tags]) it passes on
    as they are: they have a type [Any] of their own. Line numbers and
    columns are taken as integers. *)
Module IMarkerData.

Record t (Any : Type) : Type := mk {
  code : Any;
  severity : Z;
  message : string;
  source : Any;
  startLineNumber : Z;
  startColumn : Z;
  endLineNumber : Z;
  endColumn : Z;
  relatedInformation : Any;
  tags : Any
}.

Arguments mk {Any}.
Arguments code {Any}.
Arguments severity {Any}.
Arguments message {Any}.
Arguments source {Any}.
Arguments startLineNumber {Any}.
Arguments startColumn {Any}.
Arguments endLineNumber {Any}.
Arguments endColumn {Any}.
Arguments relatedInformation {Any}.
Arguments tags {Any}.

End IMarkerData.

Module IMarker.

Record t (URI Any : Type) : Type := mk {
  resource : URI;
  owner : string;
  code : Any;
  severity : Z;
  message : string;
  source : Any;
  startLineNumber : Z;
  startColumn : Z;
  endLineNumber : Z;
  endColumn : Z;
  relatedInformation : Any;
  tags : Any
}.

Arguments mk {URI Any}.
Arguments resource {URI Any}.
Arguments owner {URI Any}.
Arguments code {URI Any}.
Arguments severity {URI Any}.
Arguments message {URI Any}.
Arguments source {URI Any}.
Arguments startLineNumber {URI Any}.
Arguments startColumn {URI Any}.
Arguments endLineNumber {URI Any}.
Arguments endColumn {URI Any}.
Arguments relatedInformation {URI Any}.
Arguments tags {URI Any}.

End IMarker.

(** ** [DoubleResourceMap] *)

Module DoubleResourceMap.

Record t (URI V : Type) : Type := mk {
  _byResource : JsMap.t URI (JsMap.t string V);
  _byOwner : JsMap.t string (JsMap.t URI V)
}.

Arguments mk {URI V}.
Arguments _byResource {URI V}.
Arguments _byOwner {URI V}.

(** How [delete] ends: with a value, or with [Error('illegal state')]. *)
Inductive outcome (A : Type) : Type :=
| Done (a : A)
| IllegalState.

Arguments Done {A} a.
Arguments IllegalState {A}.

(** The argument of [values]: a resource, an owner, or none. *)
Inductive key (URI : Type) : Type :=
| Resource (resource : URI)
| Owner (owner : string)
| NoKey.

Arguments Resource {URI} resource.
Arguments Owner {URI} owner.
Arguments NoKey {URI}.

Section Operations.

Context {URI V : Type} `{EqDecision URI}.

Definition empty : t URI V := mk JsMap.empty JsMap.empty.

Definition set (resource : URI) (owner : string) (value : V) (this : t URI V)
    : t URI V :=
  let ownerMap :=
    match JsMap.get resource (_byResource this) with
    | Some ownerMap => ownerMap
    | None => JsMap.empty
    end in
  let byResource := JsMap.set resource (JsMap.set owner value ownerMap) (_byResource this) in
  let resourceMap :=
    match JsMap.get owner (_byOwner this) with
    | Some resourceMap => resourceMap
    | None => JsMap.empty
    end in
  let byOwner := JsMap.set owner (JsMap.set resource value resourceMap) (_byOwner this) in
  mk byResource byOwner.

Definition get (resource : URI) (owner : string) (this : t URI V) : option V :=
  match JsMap.get resource (_byResource this) with
  | Some ownerMap => JsMap.get owner ownerMap
  | None => None
  end.

(** [delete]: both maps are edited before the two flags are compared. *)
Definition delete (resource : URI) (owner : string) (this : t URI V)
    : outcome bool * t URI V :=
  let '(removedA, byResource) :=
    match JsMap.get resource (_byResource this) with
    | Some ownerMap =>
        let '(removed, ownerMap') := JsMap.delete owner ownerMap in
        (removed, JsMap.set resource ownerMap' (_byResource this))
    | None => (false, _byResource this)
    end in
  let '(removedB, byOwner) :=
    match JsMap.get owner (_byOwner this) with
    | Some resourceMap =>
        let '(removed, resourceMap') := JsMap.delete resource resourceMap in
        (removed, JsMap.set owner resourceMap' (_byOwner this))
    | None => (false, _byOwner this)
    end in
  if negb (eqb removedA removedB) then (IllegalState, mk byResource byOwner)
  else (Done (removedA && removedB), mk byResource byOwner).

(** [values]: the values of one inner map, or of all the inner maps of
    [_byOwner] one after the other. [Iterable.empty], [Iterable.concat] and
    [Iterable.map] (vs/base/common/iterator, not among the sources) are
    taken as the empty sequence, concatenation and mapping. *)
Definition values (k : key URI) (this : t URI V) : list V :=
  match k with
  | Owner owner =>
      match JsMap.get owner (_byOwner this) with
      | Some resourceMap => JsMap.values resourceMap
      | None => []
      end
  | Resource resource =>
      match JsMap.get resource (_byResource this) with
      | Some ownerMap => JsMap.values ownerMap
      | None => []
      end
  | NoKey => concat (JsMap.values <$> JsMap.values (_byOwner this))
  end.

(** The value of a pair as the second map has it. *)
Definition get_by_owner (resource : URI) (owner : string) (this : t URI V)
    : option V :=
  match JsMap.get owner (_byOwner this) with
  | Some resourceMap => JsMap.get resource resourceMap
  | None => None
  end.

(** The two maps hold the same pairs. *)
Definition consistent (this : t URI V) : Prop :=
  forall (resource : URI) (owner : string),
    get resource owner this = get_by_owner resource owner this.

(** Every value that either of the two maps holds satisfies [P] with the
    resource and the owner it is held for. *)
Definition holds (P : URI -> string -> V -> Prop) (this : t URI V) : Prop :=
  (forall resource ownerMap owner value,
      (resource, ownerMap) ∈ _byResource this -> (owner, value) ∈ ownerMap ->
      P resource owner value)
  /\ (forall owner resourceMap resource value,
        (owner, resourceMap) ∈ _byOwner this -> (resource, value) ∈ resourceMap ->
        P resource owner value).

(** The maps built from the empty one by [set] and by [delete]. *)
Inductive built : t URI V -> Prop :=
| built_empty : built empty
| built_set (resource : URI) (owner : string) (value : V) (this : t URI V) :
    built this -> built (set resource owner value this)
| built_delete (resource : URI) (owner : string) (this this' : t URI V)
    (removed : bool) :
    built this -> delete resource owner this = (Done removed, this') ->
    built this'.

End Operations.

End DoubleResourceMap.

(** ** [MarkerService] *)

Module MarkerService.

(** The argument of [read]; a field that is [None] is absent. *)
Record filter (URI : Type) : Type := mkFilter {
  owner : option string;
  resource : option URI;
  severities : option Z;
  take : option Z
}.

Arguments mkFilter {URI}.
Arguments owner {URI}.
Arguments resource {URI}.
Arguments severities {URI}.
Arguments take {URI}.

(** The service: its data, and the arguments of the calls of
    [_onMarkerChanged.fire] so far, oldest first. *)
Record t (URI Any : Type) : Type := mk {
  _data : DoubleResourceMap.t URI (list (IMarker.t URI Any));
  fired : list (list URI)
}.

Arguments mk {URI Any}.
Arguments _data {URI Any}.
Arguments fired {URI Any}.

Section Service.

Context {URI Any : Type} `{EqDecision URI}.

Local Abbreviation IMarker := (IMarker.t URI Any).
Local Abbreviation IMarkerData := (IMarkerData.t Any).

(** A new service. *)
Definition new : t URI Any := mk DoubleResourceMap.empty [].

(** [!s] is false for a string that is there and not empty. *)
Definition truthy (s : option string) : bool :=
  match s with
  | Some s => negb (String.eqb s "")
  | None => false
  end.

Definition _toMarker (owner : string) (resource : URI) (data : IMarkerData)
    : option IMarker :=
  let code := IMarkerData.code data in
  let severity := IMarkerData.severity data in
  let message := IMarkerData.message data in
  let source := IMarkerData.source data in
  let startLineNumber := IMarkerData.startLineNumber data in
  let startColumn := IMarkerData.startColumn data in
  let endLineNumber := IMarkerData.endLineNumber data in
  let endColumn := IMarkerData.endColumn data in
  let relatedInformation := IMarkerData.relatedInformation data in
  let tags := IMarkerData.tags data in
  if negb (truthy (Some message)) then None
  else
    (* santize data *)
    let startLineNumber := if 0 <? startLineNumber then startLineNumber else 1 in
    let startColumn := if 0 <? startColumn then startColumn else 1 in
    let endLineNumber :=
      if startLineNumber <=? endLineNumber then endLineNumber else startLineNumber in
    let endColumn := if 0 <? endColumn then endColumn else startColumn in
    Some (IMarker.mk resource owner code severity message source
            startLineNumber startColumn endLineNumber endColumn
            relatedInformation tags).

(** [(severities & marker.severity) === marker.severity]: [&] works on the
    two numbers converted to 32 bits. *)
Definition _accept (marker : IMarker) (severities : option Z) : bool :=
  match severities with
  | None => true
  | Some severities =>
      Z.land (wrap_int32 severities) (wrap_int32 (IMarker.severity marker))
        =? IMarker.severity marker
  end.

(** [changeOne]; [isFalsyOrEmpty] (vs/base/common/arrays, not among the
    sources) holds of the array without elements. *)
Definition changeOne (owner : string) (resource : URI) (markerData : list IMarkerData)
    (this : t URI Any) : DoubleResourceMap.outcome unit * t URI Any :=
  match markerData with
  | [] =>
      (* remove marker for this (owner,resource)-tuple *)
      match DoubleResourceMap.delete resource owner (_data this) with
      | (DoubleResourceMap.Done removed, data) =>
          (DoubleResourceMap.Done tt,
           mk data (if removed then fired this ++ [[resource]] else fired this))
      | (DoubleResourceMap.IllegalState, data) =>
          (DoubleResourceMap.IllegalState, mk data (fired this))
      end
  | _ =>
      (* insert marker for this (owner,resource)-tuple *)
      let markers := omap (_toMarker owner resource) markerData in
      (DoubleResourceMap.Done tt,
       mk (DoubleResourceMap.set resource owner markers (_data this))
          (fired this ++ [[resource]]))
  end.

Fixpoint remove (owner : string) (resources : list URI) (this : t URI Any)
    : DoubleResourceMap.outcome unit * t URI Any :=
  match resources with
  | [] => (DoubleResourceMap.Done tt, this)
  | resource :: rest =>
      match changeOne owner resource [] this with
      | (DoubleResourceMap.Done _, this') => remove owner rest this'
      | (DoubleResourceMap.IllegalState, this') =>
          (DoubleResourceMap.IllegalState, this')
      end
  end.

(** A marker of a resource and an owner as [_toMarker] makes them: with a
    message, and with sanitized positions. *)
Definition sanitized (resource : URI) (owner : string) (marker : IMarker) : Prop :=
  IMarker.resource marker = resource
  /\ IMarker.owner marker = owner
  /\ IMarker.message marker <> ""%string
  /\ 1 <= IMarker.startLineNumber marker <= IMarker.endLineNumber marker
  /\ 1 <= IMarker.startColumn marker
  /\ 1 <= IMarker.endColumn marker.

(** The services that calls of [changeOne] (and so of [remove]) make of a
    new one. *)
Inductive reachable : t URI Any -> Prop :=
| reachable_new : reachable new
| reachable_changeOne (owner : string) (resource : URI)
    (markerData : list IMarkerData) (this this' : t URI Any) :
    reachable this ->
    changeOne owner resource markerData this = (DoubleResourceMap.Done tt, this') ->
    reachable this'.

(** [if (!take || take < 0) { take = -1 }] *)
Definition take_or_all (take : option Z) : Z :=
  match take with
  | Some take => if (take =? 0) || (take <? 0) then -1 else take
  | None => -1
  end.

(** The loop over the markers of one list: [result] grows by the markers
    accepted; the flag says that the loop was left because [take] markers
    were reached. *)
Fixpoint collect (data : list IMarker) (severities : option Z) (take : Z)
    (result : list IMarker) : list IMarker * bool :=
  match data with
  | [] => (result, false)
  | marker :: rest =>
      if _accept marker severities then
        let result := result ++ [marker] in
        let newLen := len result in
        if (0 <? take) && (newLen =? take) then (result, true)
        else collect rest severities take result
      else collect rest severities take result
  end.

(** The loop over lists of markers, left as soon as the inner one is. *)
Fixpoint collect_all (iterable : list (list IMarker)) (severities : option Z)
    (take : Z) (result : list IMarker) : list IMarker :=
  match iterable with
  | [] => result
  | markers :: rest =>
      let '(result, reached) := collect markers severities take result in
      if reached then result else collect_all rest severities take result
  end.

Definition read (f : filter URI) (this : t URI Any) : list IMarker :=
  let take := take_or_all (take f) in
  match truthy (owner f), resource f with
  | true, Some resource =>
      (* exactly one owner AND resource *)
      match DoubleResourceMap.get resource (default ""%string (owner f)) (_data this) with
      | None => []
      | Some data => fst (collect data (severities f) take [])
      end
  | false, None =>
      (* all *)
      collect_all (DoubleResourceMap.values DoubleResourceMap.NoKey (_data this))
        (severities f) take []
  | _, Some resource =>
      (* of one resource OR owner *)
      collect_all
        (DoubleResourceMap.values (DoubleResourceMap.Resource resource) (_data this))
        (severities f) take []
  | _, None =>
      collect_all
        (DoubleResourceMap.values
           (DoubleResourceMap.Owner (default ""%string (owner f))) (_data this))
        (severities f) take []
  end.

(** The markers of a list that [_accept] lets through, in their order. *)
Definition accepted (severities : option Z) (data : list IMarker) : list IMarker :=
  List.filter (fun marker => _accept marker severities) data.

(** The first [take] elements of a list, all of it when [take] is not
    positive. *)
Definition limit (take : Z) (markers : list IMarker) : list IMarker :=
  if 0 <? take then firstn (Z.to_nat take) markers else markers.

(** The elements of a list, each once, in the order in which they first
    occur: what [_debouncer] is compared with. *)
Fixpoint first_occurrences (uris : list URI) : list URI :=
  match uris with
  | [] => []
  | uri :: rest => uri :: base.filter (fun uri' => uri' <> uri) (first_occurrences rest)
  end.

(** [_debouncer], with the static [_dedupeMap] as an argument and in the
    result. *)
Definition _debouncer (last : option (list URI)) (event : list URI)
    (_dedupeMap : JsMap.t URI unit) : list URI * JsMap.t URI unit :=
  let '(last, _dedupeMap) :=
    match last with
    | None => ([], JsMap.empty)
    | Some last => (last, _dedupeMap)
    end in
  fold_left
    (fun '(last, _dedupeMap) uri =>
       if JsMap.has uri _dedupeMap then (last, _dedupeMap)
       else (last ++ [uri], JsMap.set uri tt _dedupeMap))
    event (last, _dedupeMap).

End Service.

End MarkerService.

(** ** [MarkerStats] *)

Module MarkerStatistics.

Record t : Type := mk {
  errors : Z;
  warnings : Z;
  infos : Z;
  unknowns : Z
}.

(** [{ errors: 0, warnings: 0, infos: 0, unknowns: 0 }] *)
Definition zero : t := mk 0 0 0 0.

(** Two statistics added and subtracted counter by counter. *)
Definition plus (a b : t) : t :=
  mk (errors a + errors b) (warnings a + warnings b) (infos a + infos b)
     (unknowns a + unknowns b).

Definition minus (a b : t) : t :=
  mk (errors a - errors b) (warnings a - warnings b) (infos a - infos b)
     (unknowns a - unknowns b).

(** The number of markers counted. *)
Definition total (op : t) : Z := errors op + warnings op + infos op + unknowns op.

End MarkerStatistics.

Module MarkerStats.

(** The four counters and the statistics kept for each resource. The service
    is an argument of the methods that read it. *)
Record t (URI : Type) : Type := mk {
  errors : Z;
  infos : Z;
  warnings : Z;
  unknowns : Z;
  _data : JsMap.t URI MarkerStatistics.t
}.

Arguments mk {URI}.
Arguments errors {URI}.
Arguments infos {URI}.
Arguments warnings {URI}.
Arguments unknowns {URI}.
Arguments _data {URI}.

Section Stats.

Context {URI Any : Type} `{EqDecision URI}.

(** [resource.scheme], the three schemes of [Schemas] and the three
    severities of [MarkerSeverity] that [_resourceStats] compares with: they
    are declared outside the sources. *)
Variable scheme : URI -> string.
Variables inMemory walkThrough walkThroughSnippet : string.
Variables Error Warning Info : Z.

Definition new : t URI := mk 0 0 0 0 JsMap.empty.

Definition _substract (op : MarkerStatistics.t) (this : t URI) : t URI :=
  mk (errors this - MarkerStatistics.errors op)
     (infos this - MarkerStatistics.infos op)
     (warnings this - MarkerStatistics.warnings op)
     (unknowns this - MarkerStatistics.unknowns op)
     (_data this).

Definition _add (op : MarkerStatistics.t) (this : t URI) : t URI :=
  mk (errors this + MarkerStatistics.errors op)
     (infos this + MarkerStatistics.infos op)
     (warnings this + MarkerStatistics.warnings op)
     (unknowns this + MarkerStatistics.unknowns op)
     (_data this).

(** One round of the loop of [_resourceStats]. *)
Definition count (result : MarkerStatistics.t) (marker : IMarker.t URI Any)
    : MarkerStatistics.t :=
  let severity := IMarker.severity marker in
  let '(MarkerStatistics.mk errors warnings infos unknowns) := result in
  if severity =? Error then MarkerStatistics.mk (errors + 1) warnings infos unknowns
  else if severity =? Warning then MarkerStatistics.mk errors (warnings + 1) infos unknowns
  else if severity =? Info then MarkerStatistics.mk errors warnings (infos + 1) unknowns
  else MarkerStatistics.mk errors warnings infos (unknowns + 1).

Definition _resourceStats (service : MarkerService.t URI Any) (resource : URI)
    : MarkerStatistics.t :=
  let result := MarkerStatistics.zero in
  (* TODO this is a hack *)
  if String.eqb (scheme resource) inMemory
     || String.eqb (scheme resource) walkThrough
     || String.eqb (scheme resource) walkThroughSnippet
  then result
  else
    fold_left count
      (MarkerService.read (MarkerService.mkFilter None (Some resource) None None) service)
      result.

(** One round of the loop of [_update]. *)
Definition update_one (service : MarkerService.t URI Any) (this : t URI)
    (resource : URI) : t URI :=
  let this :=
    match JsMap.get resource (_data this) with
    | Some oldStats => _substract oldStats this
    | None => this
    end in
  let newStats := _resourceStats service resource in
  let this := _add newStats this in
  mk (errors this) (infos this) (warnings this) (unknowns this)
     (JsMap.set resource newStats (_data this)).

Definition _update (resources : list URI) (service : MarkerService.t URI Any)
    (this : t URI) : t URI :=
  fold_left (update_one service) resources this.

(** The four counters as one record. *)
Definition totals (this : t URI) : MarkerStatistics.t :=
  MarkerStatistics.mk (errors this) (warnings this) (infos this) (unknowns this).

(** The sum, counter by counter, of the statistics kept for the resources. *)
Definition summed (data : JsMap.t URI MarkerStatistics.t) : MarkerStatistics.t :=
  fold_right MarkerStatistics.plus MarkerStatistics.zero (JsMap.values data).

End Stats.

End MarkerStats.

(** * The configuration registry *)

Module ConfigurationRegistry.

(** A string of the language is the sequence of its UTF-16 code units:
    [length] counts them and [substring] cuts between them. *)
Abbreviation jsstring := (list N).

(** [s.substring(start, end)] of the language: both indexes are brought
    into the bounds of the string, and the smaller one is where the result
    starts. *)
Definition substring (s : jsstring) (start end_ : Z) : jsstring :=
  let size := len s in
  let finalStart := Z.min (Z.max start 0) size in
  let finalEnd := Z.min (Z.max end_ 0) size in
  let from := Z.min finalStart finalEnd in
  let to := Z.max finalStart finalEnd in
  take (Z.to_nat (to - from)) (drop (Z.to_nat from) s).

Definition overrideIdentifierFromKey (key : jsstring) : jsstring :=
  substring key 1 (len key - 1).

(** [`[${overrideIdentifier}]`]: the key under which
    [updateOverridePropertyPatternKey] files an override identifier; 91 and
    93 are the code units of the two brackets. *)
Definition overrideIdentifierProperty (overrideIdentifier : jsstring) : jsstring :=
  [91%N] ++ overrideIdentifier ++ [93%N].

End ConfigurationRegistry.

(** * Sample objects of the marker service *)

(** A map with the values of two owners for one resource. *)
Definition two_owners : DoubleResourceMap.t string Z :=
  DoubleResourceMap.set "file:///a"%string "lint"%string 2
    (DoubleResourceMap.set "file:///a"%string "ts"%string 1 DoubleResourceMap.empty).

(** A warning of owner [ts]. *)
Definition warning_marker : IMarker.t string unit :=
  IMarker.mk "file:///a" "ts" tt 4 "unused" tt 1 1 1 7 tt tt.

(** The data of an error and of a warning whose positions are all zero. *)
Definition two_markers : list (IMarkerData.t unit) :=
  [IMarkerData.mk tt 8 "type error" tt 3 5 3 9 tt tt;
   IMarkerData.mk tt 4 "unused" tt 0 0 0 0 tt tt].

(** A service after one call of [changeOne]. *)
Definition one_file : MarkerService.t string unit :=
  (MarkerService.changeOne "ts" "file:///a" two_markers MarkerService.new).2.

(** * Properties *)

(** ** Arithmetic of the conversions *)

Lemma wrap_int32_id (z : Z) : is_int32 z -> wrap_int32 z = z.
Proof.
  unfold is_int32, wrap_int32. intros H.
  rewrite Z.mod_small; lia.
Qed.

Lemma wrap_uint32_id (z : Z) : is_uint32 z -> wrap_uint32 z = z.
Proof.
  unfold is_uint32, wrap_uint32. intros H. apply Z.mod_small; lia.
Qed.

Lemma wrap_uint32_range (z : Z) : is_uint32 (wrap_uint32 z).
Proof.
  unfold is_uint32, wrap_uint32. apply Z.mod_pos_bound. lia.
Qed.

Lemma wrap_uint32_add (a b : Z) :
  wrap_uint32 (wrap_uint32 a + b) = wrap_uint32 (a + b).
Proof.
  unfold wrap_uint32. apply Zplus_mod_idemp_l.
Qed.

Lemma wrap_int32_le (z : Z) : -1 <= z -> wrap_int32 z <= z.
Proof.
  unfold wrap_int32. intros H.
  pose proof (Z.mod_le (z + 2 ^ 31) (2 ^ 32)). lia.
Qed.

Lemma toUint32_range (v : Z) : is_uint32 (toUint32 v).
Proof.
  unfold toUint32, is_uint32, MAX_UINT_32.
  destruct (Z.ltb_spec v 0); [lia|].
  destruct (Z.ltb_spec 4294967295 v); lia.
Qed.

Lemma toUint32_id (v : Z) : is_uint32 v -> toUint32 v = v.
Proof.
  unfold toUint32, is_uint32, MAX_UINT_32. intros H.
  destruct (Z.ltb_spec v 0); [lia|].
  destruct (Z.ltb_spec 4294967295 v); lia.
Qed.

Lemma lowered_le (i valid : Z) : 0 <= i -> lowered i valid <= valid /\ lowered i valid <= i - 1.
Proof.
  unfold lowered. intros H.
  destruct (Z.ltb_spec (i - 1) valid); [|lia].
  pose proof (wrap_int32_le (i - 1)). lia.
Qed.

Lemma lowered_min (i valid : Z) :
  0 <= i -> is_int32 valid -> lowered i valid = Z.min valid (i - 1).
Proof.
  unfold lowered, is_int32. intros H Hv.
  destruct (Z.ltb_spec (i - 1) valid); [|lia].
  rewrite wrap_int32_id; [lia|unfold is_int32; lia].
Qed.

(** ** Typed arrays as lists *)

Lemma len_nonneg {A : Type} (a : list A) : 0 <= len a.
Proof. unfold len. lia. Qed.

Lemma subarray_prefix (a : list Z) (e : Z) :
  0 <= e -> subarray a 0 e = take (Z.to_nat e) a.
Proof.
  intros He. unfold subarray, relative_index, len. simpl.
  destruct (Z.ltb_spec e 0); [lia|].
  replace (Z.to_nat (Z.min e (Z.of_nat (length a)) - Z.min 0 (Z.of_nat (length a))))
    with (Z.to_nat e `min` length a)%nat by lia.
  replace (Z.to_nat (Z.min 0 (Z.of_nat (length a)))) with 0%nat by lia.
  rewrite drop_0. destruct (Nat.le_gt_cases (Z.to_nat e) (length a)).
  - now rewrite Nat.min_l.
  - rewrite Nat.min_r by lia. rewrite !take_ge; auto; lia.
Qed.

Lemma subarray_suffix (a : list Z) (b : Z) :
  0 <= b -> subarray_from a b = drop (Z.to_nat b) a.
Proof.
  intros Hb. unfold subarray_from, subarray, relative_index, len.
  destruct (Z.ltb_spec b 0); [lia|].
  destruct (Z.ltb_spec (Z.of_nat (length a)) 0); [lia|].
  destruct (Z.le_gt_cases b (Z.of_nat (length a))).
  - rewrite Z.min_id, Z.min_l by lia.
    apply take_ge. rewrite length_drop. lia.
  - rewrite Z.min_id, Z.min_r by lia.
    rewrite !drop_ge by lia. now rewrite take_nil.
Qed.

(** A [set] that fits. *)
Lemma typed_set_fits (target source : list Z) (offset : Z) :
  0 <= offset ->
  (Z.to_nat offset + length source <= length target)%nat ->
  typed_set target source offset =
    Some (take (Z.to_nat offset) target ++ source
          ++ drop (Z.to_nat offset + length source) target).
Proof.
  intros H0 H. unfold typed_set, len.
  destruct (Z.ltb_spec offset 0); [lia|].
  destruct (Z.ltb_spec (Z.of_nat (length target))
              (Z.of_nat (length source) + offset)); [lia|].
  simpl.
  now replace (Z.to_nat (offset + Z.of_nat (length source)))
    with (Z.to_nat offset + length source)%nat by lia.
Qed.

Lemma typed_set_throws (target source : list Z) (offset : Z) :
  len target < len source + offset -> typed_set target source offset = None.
Proof.
  intros H. unfold typed_set.
  destruct (Z.ltb_spec (len target) (len source + offset)); [|lia].
  now rewrite orb_true_r.
Qed.

Lemma read_nat (a : list Z) (i : nat) : read a (Z.of_nat i) = a !! i.
Proof.
  unfold read. destruct (Z.ltb_spec (Z.of_nat i) 0); [lia|].
  now rewrite Nat2Z.id.
Qed.

Lemma read_outside (a : list Z) (i : Z) : len a <= i -> read a i = None.
Proof.
  unfold read, len. intros H. destruct (Z.ltb_spec i 0); [easy|].
  apply lookup_ge_None. lia.
Qed.

Lemma read_inside (a : list Z) (i : Z) :
  0 <= i < len a -> exists x, read a i = Some x.
Proof.
  unfold read, len. intros H. destruct (Z.ltb_spec i 0); [lia|].
  destruct (lookup_lt_is_Some_2 a (Z.to_nat i)) as [x Hx]; [lia|]. eauto.
Qed.

Lemma write_outside (a : list Z) (i : Z) (n : number) :
  len a <= i -> write a i n = a.
Proof.
  unfold write, len. intros H. destruct (Z.ltb_spec i 0); [easy|].
  apply list_insert_ge. lia.
Qed.

Lemma length_write (a : list Z) (i : Z) (n : number) :
  length (write a i n) = length a.
Proof.
  unfold write. destruct (i <? 0); [easy|]. apply length_insert.
Qed.

Lemma read_write_eq (a : list Z) (i : Z) (n : number) :
  0 <= i < len a -> read (write a i n) i = Some (store_uint32 n).
Proof.
  unfold read, write, len. intros H. destruct (Z.ltb_spec i 0); [lia|].
  apply list_lookup_insert_eq. lia.
Qed.

Lemma read_write_ne (a : list Z) (i j : Z) (n : number) :
  i <> j -> read (write a i n) j = read a j.
Proof.
  unfold read, write. intros H.
  destruct (Z.ltb_spec j 0); [easy|]. destruct (Z.ltb_spec i 0); [easy|].
  apply list_lookup_insert_ne. lia.
Qed.

Lemma carry_cache (vs ps : list Z) (n : nat) (w : Z) :
  w + 1 <= Z.of_nat n ->
  exists p',
    when (0 <=? w) (prefixSum_set (subarray ps 0 (w + 1)) 0)
      (mkPSC vs (new_Uint32Array (Z.of_nat n)) w) = (Returned tt, mkPSC vs p' w)
    /\ length p' = n
    /\ forall i, 0 <= i <= w -> i < len ps -> read p' i = read ps i.
Proof.
  intros Hw. unfold when, new_Uint32Array. rewrite Nat2Z.id.
  destruct (Z.leb_spec 0 w) as [H0|H0].
  - unfold prefixSum_set. cbn [prefixSum values prefixSumValidIndex].
    rewrite subarray_prefix by lia.
    rewrite typed_set_fits;
      [|lia|rewrite length_take, length_replicate; lia].
    change (Z.to_nat 0) with 0%nat.
    eexists. split; [reflexivity|]. split.
    + rewrite take_0, app_nil_l, length_app, length_drop, length_take, length_replicate. lia.
    + intros i Hi Hlen. unfold len in Hlen.
      replace i with (Z.of_nat (Z.to_nat i)) by lia. rewrite !read_nat.
      rewrite take_0, app_nil_l, lookup_app_l by (rewrite length_take; lia).
      apply lookup_take_lt. lia.
  - eexists. split; [reflexivity|]. split; [apply length_replicate|].
    intros; lia.
Qed.

Lemma bind_run {A B : Type} (m : M A) (k : A -> M B) (s : PrefixSumComputer) :
  (m ≫= k) s =
    match m s with
    | (Returned a, s') => k a s'
    | (RangeError, s') => (RangeError, s')
    end.
Proof. reflexivity. Qed.

Ltac run_step :=
  rewrite bind_run;
  cbn [get_values get_prefixSum get_validIndex set_values set_prefixSum
       set_validIndex values prefixSum prefixSumValidIndex].

Lemma lower_validIndex (i : Z) (s : PrefixSumComputer) :
  when (i - 1 <? prefixSumValidIndex s) (set_validIndex (i - 1)) s =
    (Returned tt, mkPSC (values s) (prefixSum s) (lowered i (prefixSumValidIndex s))).
Proof.
  unfold when, lowered, set_validIndex. destruct s as [vs ps w]. simpl.
  now destruct (i - 1 <? w).
Qed.

Lemma removeValues_mutates (s : PrefixSumComputer) (startIndex cnt : Z) :
  let a := toUint32 startIndex in
  let c := Z.min (toUint32 cnt) (len (values s) - a) in
  a < len (values s) -> 0 < toUint32 cnt ->
  exists p',
    removeValues startIndex cnt s =
      (Returned true,
       mkPSC (take (Z.to_nat a) (values s) ++ drop (Z.to_nat (a + c)) (values s))
             p' (lowered a (prefixSumValidIndex s)))
    /\ length p' = (length (values s) - Z.to_nat c)%nat
    /\ forall i, 0 <= i <= lowered a (prefixSumValidIndex s) -> i < len (prefixSum s) ->
         read p' i = read (prefixSum s) i.
Proof.
  intros a c Ha Hc. destruct s as [vs ps w]. cbn [values prefixSum prefixSumValidIndex] in *.
  pose proof (toUint32_range startIndex) as Hra. fold a in Hra. unfold is_uint32 in Hra.
  unfold removeValues. fold a. do 2 run_step.
  destruct (Z.leb_spec (len vs) a); [lia|].
  set (c0 := if len vs - a <=? toUint32 cnt then len vs - a else toUint32 cnt).
  assert (c0 = c) as ->.
  { unfold c0, c. destruct (Z.leb_spec (len vs - a) (toUint32 cnt)); lia. }
  assert (0 < c <= len vs - a) as Hcc by (unfold c; lia).
  destruct (Z.eqb_spec c 0); [lia|].
  run_step. unfold new_Uint32Array.
  set (na := Z.to_nat a). set (nc := Z.to_nat c).
  assert (na + nc <= length vs)%nat as Hn by (unfold len in *; lia).
  replace (Z.to_nat (len vs - c)) with (length vs - nc)%nat by (unfold len; lia).
  rewrite bind_run. unfold values_set at 1. cbn [values prefixSum prefixSumValidIndex].
  rewrite subarray_prefix by lia. fold na.
  rewrite typed_set_fits;
    [|lia|rewrite length_take, length_replicate; lia].
  rewrite bind_run. unfold values_set at 1. cbn [values prefixSum prefixSumValidIndex].
  rewrite subarray_suffix by lia.
  replace (Z.to_nat (a + c)) with (na + nc)%nat by lia.
  rewrite typed_set_fits;
    [|lia|rewrite !length_app, !length_take, !length_drop, length_replicate; lia].
  fold na. change (Z.to_nat 0) with 0%nat.
  rewrite take_0, app_nil_l, length_take, length_drop, drop_replicate.
  rewrite take_app_le by (rewrite length_take; lia).
  rewrite take_take, Nat.min_id.
  rewrite (drop_ge (take na vs ++ _))
    by (rewrite length_app, length_take, length_replicate; lia).
  rewrite app_nil_r.
  do 3 run_step. rewrite bind_run.
  match goal with |- context [when _ _ ?s] => pose proof (lower_validIndex a s) as Hl end.
  cbn [values prefixSum prefixSumValidIndex] in Hl.
  rewrite Hl. clear Hl. run_step.
  pose proof (lowered_le a w ltac:(lia)) as [_ Hlow].
  set (vs' := take na vs ++ drop (na + nc) vs).
  assert (length vs' = length vs - nc)%nat as Hlen.
  { unfold vs'. rewrite length_app, length_take, length_drop. lia. }
  destruct (carry_cache vs' ps (length vs') (lowered a w)) as (p' & Hp & Hlp & Hrd);
    [lia|].
  change (new_Uint32Array (Z.of_nat (length vs')))
    with (replicate (Z.to_nat (len vs')) 0) in Hp.
  rewrite bind_run, Hp. exists p'. split; [reflexivity|].
  split; [lia|exact Hrd].
Qed.

Lemma removeValues_noop (s : PrefixSumComputer) (startIndex cnt : Z) :
  len (values s) <= toUint32 startIndex \/ toUint32 cnt = 0 ->
  removeValues startIndex cnt s = (Returned false, s).
Proof.
  intros H. unfold removeValues. do 2 run_step.
  destruct (Z.leb_spec (len (values s)) (toUint32 startIndex)); [reflexivity|].
  destruct H as [H|H]; [lia|]. rewrite H.
  destruct (Z.leb_spec (len (values s) - toUint32 startIndex) 0); [lia|].
  reflexivity.
Qed.

Lemma insertValues_noop (s : PrefixSumComputer) (insertIndex : Z) :
  insertValues insertIndex [] s = (Returned false, s).
Proof. reflexivity. Qed.

Lemma len_zero {A : Type} (l : list A) : len l = 0 -> l = [].
Proof. unfold len. destruct l; [easy|simpl; lia]. Qed.

Lemma insertValues_mutates (s : PrefixSumComputer) (insertIndex : Z) (ws : list Z) :
  let a := toUint32 insertIndex in
  ws <> [] -> a <= len (values s) ->
  exists p',
    insertValues insertIndex ws s =
      (Returned true,
       mkPSC (take (Z.to_nat a) (values s) ++ ws ++ drop (Z.to_nat a) (values s))
             p' (lowered a (prefixSumValidIndex s)))
    /\ length p' = (length (values s) + length ws)%nat
    /\ forall i, 0 <= i <= lowered a (prefixSumValidIndex s) -> i < len (prefixSum s) ->
         read p' i = read (prefixSum s) i.
Proof.
  intros a Hws Ha. destruct s as [vs ps w]. cbn [values prefixSum prefixSumValidIndex] in *.
  pose proof (toUint32_range insertIndex) as Hra. fold a in Hra. unfold is_uint32 in Hra.
  unfold insertValues. fold a. do 2 run_step.
  destruct (Z.eqb_spec (len ws) 0) as [E|E]; [now apply len_zero in E|].
  run_step. unfold new_Uint32Array.
  set (na := Z.to_nat a). set (k := length ws).
  assert (na <= length vs)%nat as Hn by (unfold len in *; lia).
  replace (Z.to_nat (len vs + len ws)) with (length vs + k)%nat by (unfold len; lia).
  rewrite bind_run. unfold values_set at 1. cbn [values prefixSum prefixSumValidIndex].
  rewrite subarray_prefix by lia. fold na.
  rewrite typed_set_fits;
    [|lia|rewrite length_take, length_replicate; lia].
  rewrite bind_run. unfold values_set at 1. cbn [values prefixSum prefixSumValidIndex].
  rewrite subarray_suffix by lia. fold na.
  change (Z.to_nat 0) with 0%nat.
  rewrite take_0, app_nil_l, length_take, drop_replicate.
  rewrite (Nat.min_l na) by lia.
  rewrite typed_set_fits;
    [|unfold len; lia
     |rewrite !length_app, !length_take, !length_drop, length_replicate;
      unfold len; lia].
  replace (Z.to_nat (a + len ws)) with (na + k)%nat by (unfold len; lia).
  rewrite take_app_ge by (rewrite length_take; lia).
  rewrite length_take, (Nat.min_l na) by lia.
  rewrite take_replicate, length_drop.
  rewrite (drop_ge (take na vs ++ _))
    by (rewrite length_app, length_take, length_replicate; lia).
  rewrite app_nil_r.
  replace ((na + k - na) `min` (length vs + k - (0 + na)))%nat with k by lia.
  rewrite bind_run. unfold values_set at 1. cbn [values prefixSum prefixSumValidIndex].
  rewrite typed_set_fits;
    [|lia|rewrite !length_app, !length_take, !length_drop, length_replicate; lia].
  fold na. fold k.
  rewrite <- (app_assoc (take na vs)).
  rewrite take_app_length' by (rewrite length_take; lia).
  rewrite drop_app_add' by (rewrite length_take; lia).
  rewrite drop_app_length' by (now rewrite length_replicate).
  run_step. rewrite bind_run.
  match goal with |- context [when _ _ ?s] => pose proof (lower_validIndex a s) as Hl end.
  cbn [values prefixSum prefixSumValidIndex] in Hl.
  rewrite Hl. clear Hl. do 3 run_step.
  pose proof (lowered_le a w ltac:(lia)) as [_ Hlow].
  set (vs' := take na vs ++ ws ++ drop na vs).
  assert (length vs' = length vs + k)%nat as Hlen.
  { unfold vs'. rewrite !length_app, length_take, length_drop. lia. }
  destruct (carry_cache vs' ps (length vs') (lowered a w)) as (p' & Hp & Hlp & Hrd);
    [lia|].
  change (new_Uint32Array (Z.of_nat (length vs')))
    with (replicate (Z.to_nat (len vs')) 0) in Hp.
  rewrite bind_run, Hp. exists p'. split; [reflexivity|].
  split; [lia|exact Hrd].
Qed.

Lemma insertValues_throws (s : PrefixSumComputer) (insertIndex : Z) (ws : list Z) :
  ws <> [] -> len (values s) < toUint32 insertIndex ->
  insertValues insertIndex ws s =
    (RangeError,
     mkPSC (values s ++ replicate (length ws) 0) (prefixSum s) (prefixSumValidIndex s)).
Proof.
  intros Hws Ha. destruct s as [vs ps w]. cbn [values prefixSum prefixSumValidIndex] in *.
  unfold insertValues. set (a := toUint32 insertIndex) in *. do 2 run_step.
  destruct (Z.eqb_spec (len ws) 0) as [E|E]; [now apply len_zero in E|].
  run_step. unfold new_Uint32Array.
  replace (Z.to_nat (len vs + len ws)) with (length vs + length ws)%nat
    by (unfold len; lia).
  rewrite bind_run. unfold values_set at 1. cbn [values prefixSum prefixSumValidIndex].
  rewrite subarray_prefix by (unfold len in Ha; lia).
  rewrite (take_ge vs) by (unfold len in Ha; lia).
  rewrite typed_set_fits; [|lia|rewrite length_replicate; lia].
  change (Z.to_nat 0) with 0%nat.
  rewrite take_0, app_nil_l, drop_replicate.
  replace (length vs + length ws - (0 + length vs))%nat with (length ws) by lia.
  rewrite bind_run. unfold values_set at 1. cbn [values prefixSum prefixSumValidIndex].
  rewrite typed_set_throws; [reflexivity|].
  unfold len in *. rewrite length_app, length_replicate. lia.
Qed.

Lemma changeValue_same (s : PrefixSumComputer) (index value : Z) :
  read (values s) (toUint32 index) = Some (toUint32 value) ->
  changeValue index value s = (Returned false, s).
Proof.
  intros H. unfold changeValue. run_step. rewrite H.
  now rewrite Z.eqb_refl.
Qed.

Lemma changeValue_mutates (s : PrefixSumComputer) (index value : Z) :
  read (values s) (toUint32 index) <> Some (toUint32 value) ->
  changeValue index value s =
    (Returned true,
     mkPSC (write (values s) (toUint32 index) (Some (toUint32 value)))
           (prefixSum s)
           (lowered (toUint32 index) (prefixSumValidIndex s))).
Proof.
  intros H. unfold changeValue. run_step.
  assert (match read (values s) (toUint32 index) with
          | Some x => x =? toUint32 value
          | None => false
          end = false) as ->.
  { destruct (read (values s) (toUint32 index)) as [x|]; [|reflexivity].
    destruct (Z.eqb_spec x (toUint32 value)); [congruence|reflexivity]. }
  do 2 run_step. rewrite bind_run.
  match goal with |- context [when _ _ ?s] =>
    pose proof (lower_validIndex (toUint32 index) s) as Hl end.
  cbn [values prefixSum prefixSumValidIndex] in Hl. rewrite Hl. reflexivity.
Qed.

(** ** Sums *)

Lemma sumZ_app (l k : list Z) : sumZ (l ++ k) = sumZ l + sumZ k.
Proof.
  unfold sumZ. induction l as [|x l IH]; simpl; [reflexivity|].
  rewrite IH. lia.
Qed.

Lemma sumZ_nonneg (l : list Z) : Forall is_uint32 l -> 0 <= sumZ l.
Proof.
  unfold sumZ, is_uint32. induction 1 as [|x l Hx _ IH]; simpl; lia.
Qed.

Lemma psum_0 (vs : list Z) : psum vs 0 = 0.
Proof. reflexivity. Qed.

Lemma psum_S (vs : list Z) (n : nat) (x : Z) :
  vs !! n = Some x -> psum vs (S n) = psum vs n + x.
Proof.
  intros H. unfold psum. rewrite (take_S_r _ _ _ H), sumZ_app.
  unfold sumZ. simpl. lia.
Qed.

Lemma psum_all (vs : list Z) (n : nat) :
  (length vs <= n)%nat -> psum vs n = sumZ vs.
Proof. intros H. unfold psum. now rewrite take_ge. Qed.

Lemma psum_mono (vs : list Z) (n m : nat) :
  Forall is_uint32 vs -> (n <= m)%nat -> psum vs n <= psum vs m.
Proof.
  intros Hvs Hnm. unfold psum.
  replace m with (n + (m - n))%nat by lia.
  rewrite <- take_take_drop, sumZ_app.
  assert (0 <= sumZ (take (m - n) (drop n vs))); [|lia].
  apply sumZ_nonneg, Forall_take, Forall_drop, Hvs.
Qed.

Lemma psum_nonneg (vs : list Z) (n : nat) :
  Forall is_uint32 vs -> 0 <= psum vs n.
Proof. intros H. apply sumZ_nonneg, Forall_take, H. Qed.

(** The sums below a position depend on the values below it only. *)
Lemma psum_prefix (vs us : list Z) (n m : nat) :
  (n <= m)%nat -> take m vs = take m us -> psum vs n = psum us n.
Proof.
  intros Hnm H. unfold psum.
  replace n with (n `min` m)%nat by lia.
  now rewrite <- !take_take, H.
Qed.

Lemma sum_through_before (vs : list Z) : sum_through vs (-1) = 0.
Proof. reflexivity. Qed.

Lemma sum_through_step (vs : list Z) (i x : Z) :
  0 <= i -> read vs i = Some x ->
  sum_through vs i = sum_through vs (i - 1) + x.
Proof.
  intros Hi H. unfold sum_through.
  replace (Z.to_nat (i + 1)) with (S (Z.to_nat i)) by lia.
  replace (Z.to_nat (i - 1 + 1)) with (Z.to_nat i) by lia.
  apply psum_S. unfold read in H. now destruct (Z.ltb_spec i 0); [lia|].
Qed.

Lemma sum_through_mono (vs : list Z) (i j : Z) :
  Forall is_uint32 vs -> i <= j -> sum_through vs i <= sum_through vs j.
Proof. intros Hvs Hij. apply psum_mono; [assumption|lia]. Qed.

Lemma sum_through_last (vs : list Z) (i : Z) :
  len vs - 1 <= i -> sum_through vs i = sumZ vs.
Proof. unfold len. intros H. apply psum_all. lia. Qed.

(** ** The loop of [_getAccumulatedValue] *)

Lemma for_rounds_invariant (I : Z -> PrefixSumComputer -> Prop)
    (body : Z -> M unit) (n : nat) :
  forall (i : Z) (s : PrefixSumComputer),
  I i s ->
  (forall j s0, i <= j < i + Z.of_nat n -> I j s0 ->
     exists s1, body j s0 = (Returned tt, s1) /\ I (j + 1) s1) ->
  exists s', for_rounds n i body s = (Returned tt, s') /\ I (i + Z.of_nat n) s'.
Proof.
  induction n as [|n IH]; intros i s Hi Hbody.
  - exists s. split; [reflexivity|]. now replace (i + Z.of_nat 0) with i by lia.
  - destruct (Hbody i s) as (s1 & Hs1 & HI1); [lia|assumption|].
    destruct (IH (i + 1) s1 HI1) as (s' & Hs' & HI').
    { intros j s0 Hj. apply Hbody. lia. }
    exists s'. split.
    + cbn [for_rounds]. now rewrite bind_run, Hs1.
    + now replace (i + Z.of_nat (S n)) with (i + 1 + Z.of_nat n) by lia.
Qed.

Lemma fill_round (vs : list Z) (valid j : Z) (s0 : PrefixSumComputer) :
  1 <= j < len vs -> filled vs valid j s0 ->
  exists s1,
    (p ← get_prefixSum; prefixSum_write j (num_add (read p (j - 1)) (read vs j))) s0
      = (Returned tt, s1)
    /\ filled vs valid (j + 1) s1.
Proof.
  intros Hj (Hv & Hw & Hl & Hc). destruct s0 as [vs0 p w0].
  cbn [values prefixSum prefixSumValidIndex] in *. subst vs0 w0.
  run_step. unfold prefixSum_write. cbn [values prefixSum prefixSumValidIndex].
  eexists. split; [reflexivity|].
  destruct (read_inside vs j) as [x Hx]; [lia|].
  repeat split; cbn [values prefixSum prefixSumValidIndex].
  - now rewrite length_write.
  - intros t Ht. destruct (Z.eq_dec t j) as [->|Hne].
    + rewrite read_write_eq by (unfold len in *; lia).
      rewrite (Hc (j - 1)) by lia. rewrite Hx. cbn [num_add store_uint32].
      rewrite wrap_uint32_add. f_equal. f_equal.
      symmetry. apply sum_through_step; [lia|assumption].
    + rewrite read_write_ne by lia. apply Hc. lia.
Qed.

Lemma _getAccumulatedValue_cached (s : PrefixSumComputer) (index : Z) :
  index <= prefixSumValidIndex s ->
  _getAccumulatedValue index s = (Returned (read (prefixSum s) index), s).
Proof.
  intros H. unfold _getAccumulatedValue. run_step.
  destruct (Z.leb_spec index (prefixSumValidIndex s)); [|lia].
  now run_step.
Qed.

Lemma _getAccumulatedValue_empty (index : Z) :
  0 <= index ->
  _getAccumulatedValue index (mkPSC [] [] (-1)) = (Returned None, mkPSC [] [] (-1)).
Proof.
  intros H. unfold _getAccumulatedValue. run_step.
  destruct (Z.leb_spec index (-1)); [lia|].
  run_step. change (len (@nil Z)) with 0.
  destruct (Z.leb_spec 0 index); [|lia].
  reflexivity.
Qed.

Lemma _getAccumulatedValue_fills (s : PrefixSumComputer) (index : Z) :
  let vs := values s in
  let j := Z.min index (len vs - 1) in
  length (prefixSum s) = length vs ->
  1 <= len vs <= MAX_LENGTH ->
  -1 <= prefixSumValidIndex s <= len vs - 1 ->
  (forall i : Z, 0 <= i <= prefixSumValidIndex s ->
     read (prefixSum s) i = Some (wrap_uint32 (sum_through vs i))) ->
  prefixSumValidIndex s < index ->
  exists p',
    _getAccumulatedValue index s =
      (Returned (Some (wrap_uint32 (sum_through vs j))), mkPSC vs p' j)
    /\ filled vs j (j + 1) (mkPSC vs p' j).
Proof.
  destruct s as [vs p w]. cbn [values prefixSum prefixSumValidIndex].
  intros Hl HN Hw Hc Hi. unfold MAX_LENGTH in HN.
  set (j := Z.min index (len vs - 1)).
  unfold _getAccumulatedValue. run_step.
  destruct (Z.leb_spec index w); [lia|]. run_step.
  set (start := if w + 1 =? 0 then w + 1 + 1 else w + 1).
  assert ((if len vs <=? index then len vs - 1 else index) = j) as ->.
  { unfold j. destruct (Z.leb_spec (len vs) index); lia. }
  assert (exists s1,
    when (w + 1 =? 0) (prefixSum_write 0 (read vs 0)) (mkPSC vs p w) = (Returned tt, s1)
    /\ filled vs w start s1) as (s1 & Hs1 & Hf1).
  { unfold start, when. destruct (Z.eqb_spec (w + 1) 0) as [E|E].
    - eexists. split; [reflexivity|].
      destruct (read_inside vs 0) as [x Hx]; [lia|].
      repeat split; cbn [values prefixSum prefixSumValidIndex].
      + now rewrite length_write.
      + intros t Ht. replace t with 0 by lia.
        rewrite read_write_eq by (unfold len in *; lia).
        rewrite Hx. cbn [store_uint32].
        rewrite (sum_through_step vs 0 x) by (assumption || lia).
        now rewrite sum_through_before.
    - eexists. split; [reflexivity|].
      repeat split; cbn [values prefixSum prefixSumValidIndex]; [assumption|].
      intros t Ht. apply Hc. lia. }
  rewrite bind_run, Hs1.
  assert (1 <= start /\ start - 1 <= j /\ (start - 1 = w \/ (w = -1 /\ start = 1)))
    as (Hs0 & Hsj & Hsw).
  { unfold start, j. destruct (Z.eqb_spec (w + 1) 0); lia. }
  destruct (for_rounds_invariant (filled vs w)
              (fun i => p0 ← get_prefixSum;
                        prefixSum_write i (num_add (read p0 (i - 1)) (read vs i)))
              (Z.to_nat (j - start + 1)) start s1 Hf1)
    as (s2 & Hs2 & Hf2).
  { intros i s0 Hrange. apply fill_round. unfold j in *. lia. }
  unfold for_range. rewrite bind_run, Hs2.
  replace (start + Z.of_nat (Z.to_nat (j - start + 1))) with (j + 1) in Hf2 by lia.
  destruct s2 as [vs2 p2 w2]. destruct Hf2 as (Hv2 & Hw2 & Hl2 & Hc2).
  cbn [values prefixSum prefixSumValidIndex] in *. subst vs2 w2.
  do 2 run_step.
  rewrite wrap_int32_id by (unfold is_int32, j in *; lia).
  rewrite Z.max_r by (unfold j; lia).
  exists p2. split.
  - cbn [mret M_ret]. rewrite Hc2 by (unfold j; lia). reflexivity.
  - repeat split; cbn [values prefixSum prefixSumValidIndex]; assumption.
Qed.

(** ** The queries on a state that satisfies the invariant *)

Lemma Inv_empty (s : PrefixSumComputer) :
  Inv s -> len (values s) = 0 -> s = mkPSC [] [] (-1).
Proof.
  intros [_ _ Hl Hw _] H0. destruct s as [vs p w].
  cbn [values prefixSum prefixSumValidIndex] in *.
  apply len_zero in H0 as Hvs. subst vs. simpl in Hl.
  apply length_zero_iff_nil in Hl. subst p. f_equal. lia.
Qed.

Lemma _getAccumulatedValue_Inv (s : PrefixSumComputer) (index : Z) :
  let j := Z.min index (len (values s) - 1) in
  Inv s -> 0 <= index -> 1 <= len (values s) ->
  exists s',
    _getAccumulatedValue index s =
      (Returned (Some (wrap_uint32 (sum_through (values s) j))), s')
    /\ Inv s' /\ values s' = values s
    /\ prefixSumValidIndex s' = Z.max (prefixSumValidIndex s) j.
Proof.
  intros j HI Hi HN. pose proof HI as [Hvs Hb Hl Hw Hc].
  destruct (Z.le_gt_cases index (prefixSumValidIndex s)) as [Hle|Hgt].
  - exists s. rewrite _getAccumulatedValue_cached by assumption.
    assert (j = index) as -> by (unfold j; lia).
    rewrite Hc by lia. split_and!; try assumption; try reflexivity. lia.
  - destruct (_getAccumulatedValue_fills s index) as (p' & Hrun & Hv & Hw' & Hl' & Hc');
      try assumption; [lia|].
    fold j in Hrun, Hl', Hc'. cbn [values prefixSum prefixSumValidIndex] in *.
    eexists. split; [exact Hrun|].
    cbn [values prefixSum prefixSumValidIndex].
    split; [|split; [reflexivity|unfold j; lia]].
    constructor; cbn [values prefixSum prefixSumValidIndex]; try assumption.
    + unfold j. lia.
    + intros i Hij. apply Hc'. lia.
Qed.

Lemma getTotalValue_Inv (s : PrefixSumComputer) :
  Inv s ->
  exists s',
    getTotalValue s = (Returned (Some (wrap_uint32 (sumZ (values s)))), s')
    /\ Inv s' /\ values s' = values s
    /\ prefixSumValidIndex s' = len (values s) - 1.
Proof.
  intros HI. unfold getTotalValue. run_step.
  destruct (Z.eqb_spec (len (values s)) 0) as [E|E].
  - exists s. apply len_zero in E as Hnil.
    pose proof (Inv_empty s HI E) as ->. simpl in *.
    split_and!; try assumption; reflexivity.
  - pose proof (len_nonneg (values s)).
    destruct (_getAccumulatedValue_Inv s (len (values s) - 1) HI) as (s' & Hrun & HI' & Hv & Hw);
      [lia|lia|].
    rewrite Z.min_id in Hrun, Hw.
    rewrite sum_through_last in Hrun by lia.
    exists s'. split_and!; try assumption.
    destruct HI as [_ _ _ Hw0 _]. lia.
Qed.

Lemma getAccumulatedValue_Inv (s : PrefixSumComputer) (index : Z) :
  let j := Z.min (toUint32 index) (len (values s) - 1) in
  Inv s -> 0 <= index -> 1 <= len (values s) ->
  exists s',
    getAccumulatedValue index s =
      (Returned (Some (wrap_uint32 (sum_through (values s) j))), s')
    /\ Inv s' /\ values s' = values s
    /\ prefixSumValidIndex s' = Z.max (prefixSumValidIndex s) j.
Proof.
  intros j HI Hi HN. unfold getAccumulatedValue.
  destruct (Z.ltb_spec index 0); [lia|].
  apply _getAccumulatedValue_Inv; try assumption.
  apply toUint32_range.
Qed.

Lemma getAccumulatedValue_negative (s : PrefixSumComputer) (index : Z) :
  index < 0 -> getAccumulatedValue index s = (Returned (Some 0), s).
Proof.
  intros H. unfold getAccumulatedValue.
  now destruct (Z.ltb_spec index 0); [|lia].
Qed.

Lemma getAccumulatedValue_empty (s : PrefixSumComputer) (index : Z) :
  Inv s -> len (values s) = 0 -> 0 <= index ->
  getAccumulatedValue index s = (Returned None, s).
Proof.
  intros HI H0 Hi. rewrite (Inv_empty s HI H0). unfold getAccumulatedValue.
  destruct (Z.ltb_spec index 0); [lia|].
  apply _getAccumulatedValue_empty, toUint32_range.
Qed.

(** ** The mutators keep the invariant *)

Lemma Inv_new (ws : list Z) :
  Forall is_uint32 ws -> len ws <= MAX_LENGTH -> Inv (new_PrefixSumComputer ws).
Proof.
  intros Hws Hb. unfold new_PrefixSumComputer.
  change (wrap_int32 (-1)) with (-1).
  constructor; cbn [values prefixSum prefixSumValidIndex]; try assumption.
  - unfold new_Uint32Array, len. rewrite length_replicate. lia.
  - pose proof (len_nonneg ws). lia.
  - intros i Hi. lia.
Qed.

(** After a mutation at position [a], the cache carried over is right up
    to the lowered mark: the values below [a] are the old ones. *)
Lemma Inv_mutated (s : PrefixSumComputer) (a : Z) (vs' p' : list Z) :
  Inv s -> 0 <= a ->
  Forall is_uint32 vs' -> len vs' <= MAX_LENGTH ->
  length p' = length vs' ->
  (a <= len vs' \/ len (values s) <= len vs') ->
  take (Z.to_nat a) vs' = take (Z.to_nat a) (values s) ->
  (forall i, 0 <= i <= lowered a (prefixSumValidIndex s) -> i < len (prefixSum s) ->
     read p' i = read (prefixSum s) i) ->
  Inv (mkPSC vs' p' (lowered a (prefixSumValidIndex s))).
Proof.
  intros [Hvs Hb Hl Hw Hc] Ha Hvs' Hb' Hl' Hlen Htake Hrd.
  assert (is_int32 (prefixSumValidIndex s)) as Hint.
  { unfold is_int32, MAX_LENGTH in *. lia. }
  rewrite lowered_min in * by assumption.
  constructor; cbn [values prefixSum prefixSumValidIndex]; try assumption.
  - lia.
  - intros i Hi. rewrite Hrd by (unfold len in *; lia).
    rewrite Hc by lia. do 2 f_equal. unfold sum_through.
    symmetry. apply (psum_prefix _ _ _ (Z.to_nat a)); [lia|assumption].
Qed.

Lemma insertValues_Inv (s : PrefixSumComputer) (insertIndex : Z) (ws : list Z) :
  Inv s -> Forall is_uint32 ws ->
  toUint32 insertIndex <= len (values s) ->
  len (values s) + len ws <= MAX_LENGTH ->
  exists b s', insertValues insertIndex ws s = (Returned b, s') /\ Inv s'.
Proof.
  intros HI Hws Ha Hb. destruct ws as [|x ws0].
  { exists false, s. now rewrite insertValues_noop. }
  set (ws := x :: ws0) in *.
  destruct (insertValues_mutates s insertIndex ws) as (p' & Hrun & Hl & Hrd);
    [easy|assumption|].
  pose proof (toUint32_range insertIndex) as [Ha0 _].
  exists true. eexists. split; [exact Hrun|].
  pose proof HI as [Hvs _ _ _ _].
  apply Inv_mutated; try assumption.
  - apply Forall_app. split; [now apply Forall_take|].
    apply Forall_app. split; [assumption|now apply Forall_drop].
  - unfold len in *. rewrite !length_app, length_take, length_drop. lia.
  - rewrite !length_app, length_take, length_drop. unfold len in *. lia.
  - right. unfold len in *. rewrite !length_app, length_take, length_drop. lia.
  - rewrite take_app_length'; [reflexivity|].
    rewrite length_take. unfold len in *. lia.
Qed.

Lemma changeValue_Inv (s : PrefixSumComputer) (index value : Z) :
  Inv s -> exists b s', changeValue index value s = (Returned b, s') /\ Inv s'.
Proof.
  intros HI.
  destruct (decide (read (values s) (toUint32 index) = Some (toUint32 value))) as [E|E].
  { exists false, s. now rewrite changeValue_same. }
  exists true. eexists. split; [now apply changeValue_mutates|].
  pose proof (toUint32_range index) as [Ha0 _].
  pose proof HI as [Hvs Hb Hl _ _].
  apply Inv_mutated; try assumption.
  - unfold write. destruct (toUint32 index <? 0); [assumption|].
    apply Forall_insert; [assumption|]. apply wrap_uint32_range.
  - unfold len. now rewrite length_write.
  - now rewrite length_write.
  - right. unfold len. rewrite length_write. lia.
  - unfold write. destruct (toUint32 index <? 0); [reflexivity|].
    now rewrite take_insert_ge.
  - auto.
Qed.

Lemma removeValues_Inv (s : PrefixSumComputer) (startIndex cnt : Z) :
  Inv s -> exists b s', removeValues startIndex cnt s = (Returned b, s') /\ Inv s'.
Proof.
  intros HI.
  pose proof (toUint32_range startIndex) as [Ha0 _].
  pose proof (toUint32_range cnt) as [Hc0 _].
  destruct (Z.le_gt_cases (len (values s)) (toUint32 startIndex)) as [Ha|Ha].
  { exists false, s. rewrite removeValues_noop; auto. }
  destruct (Z.eq_dec (toUint32 cnt) 0) as [Hc|Hc].
  { exists false, s. rewrite removeValues_noop; auto. }
  destruct (removeValues_mutates s startIndex cnt) as (p' & Hrun & Hl & Hrd);
    [assumption|lia|].
  exists true. eexists. split; [exact Hrun|].
  pose proof HI as [Hvs Hb _ _ _].
  set (a := toUint32 startIndex) in *.
  set (c := Z.min (toUint32 cnt) (len (values s) - a)) in *.
  assert (0 < c <= len (values s) - a) as Hcc by (unfold c; lia).
  assert (length (take (Z.to_nat a) (values s) ++ drop (Z.to_nat (a + c)) (values s))
          = (length (values s) - Z.to_nat c)%nat) as Hlen.
  { rewrite length_app, length_take, length_drop. unfold len in *. lia. }
  apply Inv_mutated; try assumption.
  - apply Forall_app. split; [now apply Forall_take|now apply Forall_drop].
  - unfold len in *. rewrite Hlen. lia.
  - now rewrite Hlen.
  - left. unfold len in *. rewrite Hlen. lia.
  - rewrite take_app_length'; [reflexivity|].
    rewrite length_take. unfold len in *. lia.
Qed.

(** ** The binary search on a cache that holds the sums *)

Section BinarySearch.

Variables vs p : list Z.
Variable accumulatedValue : Z.

Hypothesis vs_typed : Forall is_uint32 vs.
Hypothesis vs_bound : len vs <= MAX_LENGTH.
Hypothesis p_exact : forall i : Z, 0 <= i < len vs ->
  read p i = Some (sum_through vs i).

Lemma mid_between (low high : Z) :
  0 <= low <= high -> high < len vs ->
  let mid := wrap_int32 (Z.quot (2 * low + (high - low)) 2) in
  low <= mid <= high.
Proof.
  intros H Hh mid. unfold mid, MAX_LENGTH in *.
  rewrite Z.quot_div_nonneg by lia.
  assert (low <= (2 * low + (high - low)) / 2 <= high) as Hm.
  { split; [apply Z.div_le_lower_bound|apply Z.div_le_upper_bound]; lia. }
  rewrite wrap_int32_id by (unfold is_int32; lia). exact Hm.
Qed.

(** The window shrinks in every round: the loop ends within the rounds that
    [getIndexOf] grants, whatever the cache holds. *)
Lemma search_enough_fuel :
  forall (fuel : nat) (low high mid0 : Z) (midStart0 : number),
  0 <= low -> high < len vs ->
  (Z.to_nat (high - low + 1) < fuel)%nat ->
  exists r, search fuel vs p accumulatedValue low high mid0 midStart0 = Some r.
Proof.
  induction fuel as [|fuel IH]; intros low high mid0 ms0 Hl Hh Hf; [lia|].
  cbn [search]. destruct (Z.leb_spec low high); [|eauto].
  pose proof (mid_between low high ltac:(lia) ltac:(lia)) as Hm. cbv zeta in Hm.
  set (mid := wrap_int32 (Z.quot (2 * low + (high - low)) 2)) in *.
  destruct (num_lt _ _); [apply IH; lia|].
  destruct (num_ge _ _); [apply IH; lia|eauto].
Qed.

Lemma midStart_exact (mid : Z) :
  0 <= mid < len vs ->
  num_sub (read p mid) (read vs mid) = Some (sum_through vs (mid - 1)).
Proof.
  intros H. rewrite p_exact by assumption.
  destruct (read_inside vs mid H) as [x Hx]. rewrite Hx. cbn [num_sub].
  rewrite (sum_through_step vs mid x) by (assumption || lia). f_equal. lia.
Qed.

(** The position lies in the cell [i]: the loop ends there. *)
Lemma search_found (i : Z) :
  sum_through vs (i - 1) <= accumulatedValue < sum_through vs i ->
  forall (fuel : nat) (low high mid0 : Z) (midStart0 : number),
  0 <= low <= i -> i <= high < len vs ->
  (Z.to_nat (high - low) < fuel)%nat ->
  search fuel vs p accumulatedValue low high mid0 midStart0
    = Some (i, Some (sum_through vs (i - 1))).
Proof.
  intros Hacc. induction fuel as [|fuel IH]; intros low high mid0 ms0 Hl Hh Hf; [lia|].
  cbn [search]. destruct (Z.leb_spec low high); [|lia].
  pose proof (mid_between low high ltac:(lia) ltac:(lia)) as Hm. cbv zeta in Hm.
  set (mid := wrap_int32 (Z.quot (2 * low + (high - low)) 2)) in *.
  rewrite midStart_exact, p_exact by lia. cbn [num_lt num_ge].
  destruct (Z.ltb_spec accumulatedValue (sum_through vs (mid - 1))) as [Hlt|Hge].
  - (* mid lies after the cell *)
    assert (i < mid).
    { destruct (Z.lt_ge_cases i mid); [assumption|].
      pose proof (sum_through_mono vs (mid - 1) (i - 1) vs_typed). lia. }
    apply IH; lia.
  - destruct (Z.leb_spec (sum_through vs mid) accumulatedValue) as [Hle|Hgt].
    + (* mid lies before the cell *)
      assert (mid < i).
      { destruct (Z.lt_ge_cases mid i); [assumption|].
        pose proof (sum_through_mono vs i mid vs_typed). lia. }
      apply IH; lia.
    + assert (mid = i) as ->; [|reflexivity].
      destruct (Z.lt_trichotomy mid i) as [Hlt|[Heq|Hgt']]; [|assumption|].
      * pose proof (sum_through_mono vs mid (i - 1) vs_typed). lia.
      * pose proof (sum_through_mono vs i (mid - 1) vs_typed). lia.
Qed.

(** The position lies at or beyond the total: the loop moves right until
    the window is empty, and the last [mid] is the last index. *)
Lemma search_beyond :
  sumZ vs <= accumulatedValue ->
  forall (fuel : nat) (low mid0 : Z) (midStart0 : number),
  0 <= low <= len vs ->
  (low = len vs ->
     mid0 = len vs - 1 /\ midStart0 = Some (sum_through vs (len vs - 2))) ->
  (Z.to_nat (len vs - low) < fuel)%nat ->
  search fuel vs p accumulatedValue low (len vs - 1) mid0 midStart0
    = Some (len vs - 1, Some (sum_through vs (len vs - 2))).
Proof.
  intros Hacc. induction fuel as [|fuel IH]; intros low mid0 ms0 Hl Hlast Hf; [lia|].
  cbn [search]. destruct (Z.leb_spec low (len vs - 1)).
  - pose proof (mid_between low (len vs - 1) ltac:(lia) ltac:(lia)) as Hm.
    cbv zeta in Hm.
    set (mid := wrap_int32 (Z.quot (2 * low + (len vs - 1 - low)) 2)) in *.
    rewrite midStart_exact, p_exact by lia. cbn [num_lt num_ge].
    pose proof (sum_through_mono vs (mid - 1) mid vs_typed ltac:(lia)).
    pose proof (sum_through_mono vs mid (len vs - 1) vs_typed ltac:(lia)).
    rewrite (sum_through_last vs (len vs - 1)) in * by lia.
    destruct (Z.ltb_spec accumulatedValue (sum_through vs (mid - 1))); [lia|].
    destruct (Z.leb_spec (sum_through vs mid) accumulatedValue); [|lia].
    apply IH; [lia| |lia].
    intros E. split; [lia|]. do 2 f_equal. lia.
  - destruct Hlast as [-> ->]; [lia|reflexivity].
Qed.

(** Every position below the total lies in one cell, and in one only. *)
Lemma cell_exists :
  0 <= accumulatedValue < sumZ vs ->
  exists i : Z, 0 <= i < len vs /\
    sum_through vs (i - 1) <= accumulatedValue < sum_through vs i.
Proof.
  intros [H0 Hlt].
  assert (forall n : nat, accumulatedValue < psum vs n ->
    exists k : nat, (k < n)%nat /\ psum vs k <= accumulatedValue < psum vs (S k)) as Hex.
  { induction n as [|n IH]; intros Hn.
    - rewrite psum_0 in Hn. lia.
    - destruct (Z.lt_ge_cases accumulatedValue (psum vs n)) as [Hlo|Hhi].
      + destruct (IH Hlo) as (k & Hk & Hcell). exists k. split; [lia|assumption].
      + exists n. split; [lia|]. lia. }
  destruct (Hex (length vs)) as (k & Hk & Hcell).
  { now rewrite psum_all by lia. }
  assert (k < length vs)%nat as Hkl.
  { destruct (Nat.lt_ge_cases k (length vs)); [assumption|].
    rewrite !psum_all in Hcell by lia. lia. }
  exists (Z.of_nat k). unfold len, sum_through. split; [lia|].
  replace (Z.to_nat (Z.of_nat k - 1 + 1)) with k by lia.
  now replace (Z.to_nat (Z.of_nat k + 1)) with (S k) by lia.
Qed.

Lemma cell_unique (i j : Z) :
  sum_through vs (i - 1) <= accumulatedValue < sum_through vs i ->
  sum_through vs (j - 1) <= accumulatedValue < sum_through vs j ->
  i = j.
Proof.
  intros Hi Hj. destruct (Z.lt_trichotomy i j) as [Hlt|[Heq|Hgt]]; [|assumption|].
  - pose proof (sum_through_mono vs i (j - 1) vs_typed). lia.
  - pose proof (sum_through_mono vs j (i - 1) vs_typed). lia.
Qed.

End BinarySearch.

(** ** [getIndexOf] *)

Lemma getIndexOf_run (s s1 : PrefixSumComputer) (t : number) (accumulatedValue : Q) :
  getTotalValue s = (Returned t, s1) ->
  getIndexOf accumulatedValue s =
    (Returned
       (match search (S (length (values s1))) (values s1) (prefixSum s1)
                (Qfloor accumulatedValue) 0 (len (values s1) - 1) 0 (Some 0) with
        | Some (mid, midStart) =>
            Some (mkResult mid (num_sub (Some (Qfloor accumulatedValue)) midStart))
        | None => None
        end), s1).
Proof.
  intros H. unfold getIndexOf. rewrite bind_run, H. now do 2 run_step.
Qed.

Lemma getIndexOf_Inv (s : PrefixSumComputer) (accumulatedValue : Q) :
  Inv s ->
  exists r s',
    getIndexOf accumulatedValue s = (Returned (Some r), s')
    /\ Inv s' /\ values s' = values s.
Proof.
  intros HI. destruct (getTotalValue_Inv s HI) as (s1 & Hrun & HI1 & Hv & Hw).
  rewrite (getIndexOf_run s s1 _ _ Hrun).
  pose proof HI1 as [_ Hb _ _ _].
  destruct (search_enough_fuel (values s1) (prefixSum s1) (Qfloor accumulatedValue) Hb
              (S (length (values s1))) 0 (len (values s1) - 1) 0 (Some 0))
    as [[mid midStart] Hr]; [lia|lia|unfold len; lia|].
  rewrite Hr. eauto.
Qed.

(** Without overflow the cache, once filled, holds the sums themselves. *)
Lemma cache_exact (s : PrefixSumComputer) :
  Inv s -> prefixSumValidIndex s = len (values s) - 1 ->
  sumZ (values s) < 2 ^ 32 ->
  forall i : Z, 0 <= i < len (values s) ->
    read (prefixSum s) i = Some (sum_through (values s) i).
Proof.
  intros [Hvs _ _ _ Hc] Hw Hsum i Hi. rewrite Hc by lia.
  rewrite wrap_uint32_id; [reflexivity|]. unfold is_uint32, sum_through.
  pose proof (psum_nonneg (values s) (Z.to_nat (i + 1)) Hvs).
  pose proof (psum_mono (values s) (Z.to_nat (i + 1)) (length (values s)) Hvs) as Hm.
  rewrite (psum_all _ (length _)) in Hm by lia. unfold len in Hi. lia.
Qed.

Lemma getIndexOf_cell (s : PrefixSumComputer) (accumulatedValue : Q) (i : Z) :
  Inv s -> sumZ (values s) < 2 ^ 32 ->
  0 <= i < len (values s) ->
  sum_through (values s) (i - 1) <= Qfloor accumulatedValue
    < sum_through (values s) i ->
  exists s',
    getIndexOf accumulatedValue s =
      (Returned (Some (mkResult i
         (Some (Qfloor accumulatedValue - sum_through (values s) (i - 1))))), s')
    /\ Inv s' /\ values s' = values s.
Proof.
  intros HI Hsum Hi Hcell.
  destruct (getTotalValue_Inv s HI) as (s1 & Hrun & HI1 & Hv & Hw).
  rewrite (getIndexOf_run s s1 _ _ Hrun).
  pose proof HI as [Hvs Hb _ _ _].
  rewrite <- Hv in Hw, Hsum.
  pose proof (cache_exact s1 HI1 Hw Hsum) as Hex. rewrite Hv in *.
  rewrite (search_found (values s) (prefixSum s1) (Qfloor accumulatedValue)
             Hvs Hb Hex i Hcell) by (unfold len in *; lia).
  exists s1. cbn [num_sub]. split_and!; try assumption; reflexivity.
Qed.

Lemma getIndexOf_beyond (s : PrefixSumComputer) (accumulatedValue : Q) :
  Inv s -> sumZ (values s) < 2 ^ 32 -> 1 <= len (values s) ->
  sumZ (values s) <= Qfloor accumulatedValue ->
  exists s',
    getIndexOf accumulatedValue s =
      (Returned (Some (mkResult (len (values s) - 1)
         (Some (Qfloor accumulatedValue
                - sum_through (values s) (len (values s) - 2))))), s')
    /\ Inv s' /\ values s' = values s.
Proof.
  intros HI Hsum HN Hacc.
  destruct (getTotalValue_Inv s HI) as (s1 & Hrun & HI1 & Hv & Hw).
  rewrite (getIndexOf_run s s1 _ _ Hrun).
  pose proof HI as [Hvs Hb _ _ _].
  rewrite <- Hv in Hw, Hsum.
  pose proof (cache_exact s1 HI1 Hw Hsum) as Hex. rewrite Hv in *.
  rewrite (search_beyond (values s) (prefixSum s1) (Qfloor accumulatedValue)
             Hvs Hb Hex Hacc) by (unfold len in *; lia).
  exists s1. cbn [num_sub]. split_and!; try assumption; reflexivity.
Qed.

Lemma getIndexOf_empty (s : PrefixSumComputer) (accumulatedValue : Q) :
  Inv s -> len (values s) = 0 ->
  getIndexOf accumulatedValue s =
    (Returned (Some (mkResult 0 (Some (Qfloor accumulatedValue)))), s).
Proof.
  intros HI H0. rewrite (Inv_empty s HI H0).
  rewrite (getIndexOf_run _ (mkPSC [] [] (-1)) (Some 0)) by reflexivity.
  cbn [values prefixSum length search]. change (len (@nil Z) - 1) with (-1).
  change (0 <=? -1) with false. cbn [num_sub]. now rewrite Z.sub_0_r.
Qed.

(** ** Reachable states satisfy the invariant *)

Ltac returned H :=
  cbv beta iota in H; unfold mret, M_ret in H; inversion H; subst; clear H.

Lemma perform_Inv (c : call) (s s' : PrefixSumComputer) :
  Inv s -> typed c ->
  perform c s = (Returned tt, s') ->
  len (values s') <= MAX_LENGTH ->
  Inv s'.
Proof.
  intros HI Ht Hrun Hb. destruct c as [i ws|i v|i n| |i|a]; cbn [perform typed] in *;
    rewrite bind_run in Hrun.
  - destruct (decide (ws = [])) as [->|Hne].
    { rewrite insertValues_noop in Hrun. now returned Hrun. }
    destruct (Z.le_gt_cases (toUint32 i) (len (values s))) as [Ha|Ha].
    + destruct (insertValues_mutates s i ws) as (p' & Hm & Hl & _); [easy|assumption|].
      rewrite Hm in Hrun. returned Hrun.
      cbn [values] in Hb. unfold len in Hb.
      rewrite !length_app, length_take, length_drop in Hb.
      destruct (insertValues_Inv s i ws HI Ht Ha) as (b & s1 & Hm1 & HI1);
        [unfold len in *; lia|].
      rewrite Hm in Hm1. inversion Hm1; subst. assumption.
    + rewrite insertValues_throws in Hrun by easy. discriminate.
  - destruct (changeValue_Inv s i v HI) as (b & s1 & Hm & HI1).
    rewrite Hm in Hrun. now returned Hrun.
  - destruct (removeValues_Inv s i n HI) as (b & s1 & Hm & HI1).
    rewrite Hm in Hrun. now returned Hrun.
  - destruct (getTotalValue_Inv s HI) as (s1 & Hm & HI1 & _).
    rewrite Hm in Hrun. now returned Hrun.
  - destruct (Z.lt_ge_cases i 0) as [Hneg|Hpos].
    { rewrite getAccumulatedValue_negative in Hrun by assumption.
      now returned Hrun. }
    destruct (Z.eq_dec (len (values s)) 0) as [H0|H0].
    { rewrite getAccumulatedValue_empty in Hrun by assumption.
      now returned Hrun. }
    pose proof (len_nonneg (values s)).
    destruct (getAccumulatedValue_Inv s i HI) as (s1 & Hm & HI1 & _); [lia|lia|].
    rewrite Hm in Hrun. now returned Hrun.
  - destruct (getIndexOf_Inv s a HI) as (r & s1 & Hm & HI1 & _).
    rewrite Hm in Hrun. now returned Hrun.
Qed.

Lemma reachable_Inv (s : PrefixSumComputer) : reachable s -> Inv s.
Proof.
  induction 1 as [ws Hws Hb|c s s' _ IH Ht Hrun Hb].
  - now apply Inv_new.
  - now apply (perform_Inv c s s').
Qed.

(** ** Checking the invariant by computation *)

Lemma number_eqb_eq (a b : number) : number_eqb a b = true -> a = b.
Proof.
  destruct a as [x|], b as [y|]; simpl; try easy.
  intros H. apply Z.eqb_eq in H. now subst.
Qed.

Lemma Inv_check_sound (s : PrefixSumComputer) : Inv_check s = true -> Inv s.
Proof.
  unfold Inv_check. rewrite !andb_true_iff.
  intros (((((Hv & Hb) & Hl) & Hw1) & Hw2) & Hc).
  apply Z.leb_le in Hb, Hw1, Hw2. apply Nat.eqb_eq in Hl.
  constructor; try assumption; [|lia|].
  - apply Forall_forall. intros x Hx. apply list_elem_of_In in Hx.
    rewrite forallb_forall in Hv. specialize (Hv x Hx).
    unfold is_uint32b in Hv. apply andb_true_iff in Hv as [H0 H1].
    apply Z.leb_le in H0. apply Z.ltb_lt in H1. unfold is_uint32. lia.
  - intros i Hi. rewrite forallb_forall in Hc.
    specialize (Hc (Z.to_nat i)). apply number_eqb_eq in Hc; [|apply in_seq; lia].
    unfold read, sum_through. destruct (Z.ltb_spec i 0); [lia|].
    rewrite Hc. now replace (Z.to_nat (i + 1)) with (S (Z.to_nat i)) by lia.
Qed.

(** ** Sum consistency *)

Lemma in_range_index (s : PrefixSumComputer) (i : Z) :
  Inv s -> 0 <= i < len (values s) ->
  Z.min (toUint32 i) (len (values s) - 1) = i.
Proof.
  intros [_ Hb _ _ _] Hi. unfold MAX_LENGTH in Hb.
  rewrite toUint32_id by (unfold is_uint32; lia). lia.
Qed.

Lemma sum_through_fits (vs : list Z) (i : Z) :
  Forall is_uint32 vs -> sum_through vs i < 2 ^ 32 ->
  wrap_uint32 (sum_through vs i) = sum_through vs i.
Proof.
  intros Hvs H. apply wrap_uint32_id. unfold is_uint32.
  pose proof (psum_nonneg vs (Z.to_nat (i + 1)) Hvs). unfold sum_through in *. lia.
Qed.

(** C1, as stated, fails: on the values [4294967295; 1] the sum through
    index 1 is 4294967296, and [getAccumulatedValue 1] returns 0. *)
Lemma sum_consistency_counterexample :
  reachable overflowing /\
  fst (getAccumulatedValue 1 overflowing) = Returned (Some 0) /\
  sum_through (values overflowing) 1 = 4294967296.
Proof.
  split; [|split; reflexivity].
  apply reachable_new.
  - repeat constructor; unfold is_uint32; lia.
  - unfold MAX_LENGTH, len. simpl. lia.
Qed.

(** C1, amended: in every state reached from the constructor by calls that
    complete, and for every index [i] of the sequence,
    [getAccumulatedValue i] returns the inclusive sum of [values[0..i]]
    computed from scratch, reduced modulo [2 ^ 32]; it is the sum itself
    whenever the sum is below [2 ^ 32]. *)
Theorem sum_consistency (s : PrefixSumComputer) (i : Z) :
  reachable s -> 0 <= i < len (values s) ->
  exists s',
    getAccumulatedValue i s =
      (Returned (Some (sum_through (values s) i mod 2 ^ 32)), s')
    /\ values s' = values s
    /\ (sum_through (values s) i < 2 ^ 32 ->
        sum_through (values s) i mod 2 ^ 32 = sum_through (values s) i).
Proof.
  intros Hr Hi. apply reachable_Inv in Hr as HI.
  destruct (getAccumulatedValue_Inv s i HI) as (s' & Hrun & _ & Hv & _); [lia|lia|].
  rewrite in_range_index in Hrun by assumption.
  exists s'. split_and!; try assumption.
  intros Hfit. apply sum_through_fits; [apply HI|assumption].
Qed.

(** An instance: two values after an insertion in the middle, at index 1. *)
Lemma sum_consistency_witness :
  exists s',
    getAccumulatedValue 1 four_values =
      (Returned (Some (sum_through (values four_values) 1 mod 2 ^ 32)), s')
    /\ values s' = values four_values
    /\ (sum_through (values four_values) 1 < 2 ^ 32 ->
        sum_through (values four_values) 1 mod 2 ^ 32
          = sum_through (values four_values) 1).
Proof.
  apply sum_consistency.
  - apply (reachable_call (Insert 1 [2; 3]) two_fives).
    + apply reachable_new.
      * repeat constructor; unfold is_uint32; lia.
      * unfold MAX_LENGTH, len. simpl. lia.
    + repeat constructor; unfold is_uint32; lia.
    + reflexivity.
    + unfold MAX_LENGTH, len. simpl. lia.
  - unfold len. simpl. lia.
Defined.

(** ** The position of a sum *)

(** C2, as stated, fails: on [4294967295; 2; 3] the cache becomes
    [4294967295; 1; 4] and the total returned is 4; the position 0 lies in
    the cell of index 0 (from 0 to 4294967295) and not in that of index 1,
    and [getIndexOf 0] returns index 1 with remainder 1. *)
Lemma locate_in_range_counterexample :
  getTotalValue overflowing_inside =
    (Returned (Some 4), mkPSC [4294967295; 2; 3] [4294967295; 1; 4] 2) /\
  fst (getIndexOf (0 # 1) overflowing_inside)
    = Returned (Some (mkResult 1 (Some 1))) /\
  sum_through (values overflowing_inside) (0 - 1) <= Qfloor (0 # 1)
    < sum_through (values overflowing_inside) 0 /\
  ~ (sum_through (values overflowing_inside) (1 - 1) <= Qfloor (0 # 1)
       < sum_through (values overflowing_inside) 1).
Proof.
  split; [reflexivity|]. split; [reflexivity|]. split.
  - vm_compute. split; [discriminate|reflexivity].
  - vm_compute. intros [H _]. now apply H.
Qed.

(** C2, amended: when the sum of all values is below [2 ^ 32] (then
    [getTotalValue] returns it), for every position [P] with
    [0 <= floor P < total], [getIndexOf P] returns the one index [i] with
    [sum values[0..i-1] <= floor P < sum values[0..i]], and the remainder
    [floor P - sum values[0..i-1]]. *)
Theorem locate_in_range (s : PrefixSumComputer) (P : Q) :
  Inv s -> sumZ (values s) < 2 ^ 32 ->
  0 <= Qfloor P < sumZ (values s) ->
  exists i s',
    getIndexOf P s =
      (Returned (Some (mkResult i
         (Some (Qfloor P - sum_through (values s) (i - 1))))), s')
    /\ 0 <= i < len (values s)
    /\ sum_through (values s) (i - 1) <= Qfloor P < sum_through (values s) i
    /\ (forall j : Z,
          sum_through (values s) (j - 1) <= Qfloor P < sum_through (values s) j ->
          j = i)
    /\ fst (getTotalValue s) = Returned (Some (sumZ (values s))).
Proof.
  intros HI Hsum HP. pose proof HI as [Hvs _ _ _ _].
  destruct (cell_exists (values s) (Qfloor P) HP) as (i & Hi & Hcell).
  destruct (getIndexOf_cell s P i HI Hsum Hi Hcell) as (s' & Hrun & _).
  exists i, s'. split_and!; try assumption; try lia.
  - intros j Hj. apply (cell_unique (values s) (Qfloor P)); assumption.
  - destruct (getTotalValue_Inv s HI) as (s1 & Ht & _). rewrite Ht. cbn [fst].
    rewrite wrap_uint32_id; [reflexivity|].
    pose proof (sumZ_nonneg (values s) Hvs). unfold is_uint32. lia.
Qed.

(** An instance: three unit rows, at the position 5/2. *)
Lemma locate_in_range_witness :
  exists i s',
    getIndexOf (5 # 2) three_rows =
      (Returned (Some (mkResult i
         (Some (Qfloor (5 # 2) - sum_through (values three_rows) (i - 1))))), s')
    /\ 0 <= i < len (values three_rows)
    /\ sum_through (values three_rows) (i - 1) <= Qfloor (5 # 2)
         < sum_through (values three_rows) i
    /\ (forall j : Z,
          sum_through (values three_rows) (j - 1) <= Qfloor (5 # 2)
            < sum_through (values three_rows) j ->
          j = i)
    /\ fst (getTotalValue three_rows) = Returned (Some (sumZ (values three_rows))).
Proof.
  apply locate_in_range.
  - apply Inv_check_sound. reflexivity.
  - reflexivity.
  - vm_compute. split; [discriminate|reflexivity].
Defined.

(** ** The invariant through the calls *)

Lemma perform_applicable (c : call) (s : PrefixSumComputer) :
  Inv s -> typed c -> applicable c s ->
  exists s', perform c s = (Returned tt, s') /\ Inv s'.
Proof.
  intros HI Ht Ha. destruct c as [i ws|i v|i n| |i|a]; cbn [perform typed applicable] in *.
  - destruct Ha as [Ha Hb].
    destruct (insertValues_Inv s i ws HI Ht Ha Hb) as (b & s' & Hrun & HI').
    exists s'. now rewrite bind_run, Hrun.
  - destruct (changeValue_Inv s i v HI) as (b & s' & Hrun & HI').
    exists s'. now rewrite bind_run, Hrun.
  - destruct (removeValues_Inv s i n HI) as (b & s' & Hrun & HI').
    exists s'. now rewrite bind_run, Hrun.
  - destruct (getTotalValue_Inv s HI) as (s' & Hrun & HI' & _).
    exists s'. now rewrite bind_run, Hrun.
  - exists (snd (getAccumulatedValue i s)). rewrite bind_run.
    destruct (Z.lt_ge_cases i 0) as [Hneg|Hpos].
    { now rewrite getAccumulatedValue_negative. }
    destruct (Z.eq_dec (len (values s)) 0) as [H0|H0].
    { now rewrite getAccumulatedValue_empty. }
    pose proof (len_nonneg (values s)).
    destruct (getAccumulatedValue_Inv s i HI) as (s' & Hrun & HI' & _); [lia|lia|].
    now rewrite Hrun.
  - destruct (getIndexOf_Inv s a HI) as (r & s' & Hrun & HI' & _).
    exists s'. now rewrite bind_run, Hrun.
Qed.

(** C3, as stated, fails: on the values [4294967295; 1] the fresh object
    satisfies the invariant with exact sums, and after
    [getAccumulatedValue 1] the cell 1 of the cache, below the mark, holds 0
    where the sum is 4294967296. *)
Lemma invariant_counterexample :
  ExactInv overflowing /\
  ~ ExactInv (snd (getAccumulatedValue 1 overflowing)).
Proof.
  split.
  - constructor; [reflexivity|vm_compute; split; discriminate|].
    intros i Hi. change (prefixSumValidIndex overflowing) with (-1) in Hi. lia.
  - intros [_ _ Hc]. specialize (Hc 1).
    change (prefixSumValidIndex (snd (getAccumulatedValue 1 overflowing))) with 1 in Hc.
    specialize (Hc ltac:(lia)). vm_compute in Hc. discriminate.
Qed.

(** C3, amended: the constructor establishes, and every call within its
    precondition (an insertion at a position of the sequence or at its end)
    completes and preserves, the invariant [Inv]: the values are unsigned
    32-bit numbers, at most [MAX_LENGTH] of them; the cache has the length
    of the values; the mark lies between -1 and the last index; and every
    cell of the cache up to the mark holds the inclusive sum of the values up
    to it, reduced modulo [2 ^ 32]. *)
Theorem invariant_preserved :
  (forall ws : list Z,
     Forall is_uint32 ws -> len ws <= MAX_LENGTH ->
     Inv (new_PrefixSumComputer ws))
  /\ (forall (c : call) (s : PrefixSumComputer),
        Inv s -> typed c -> applicable c s ->
        exists s', perform c s = (Returned tt, s') /\ Inv s').
Proof.
  split; [exact Inv_new|exact perform_applicable].
Qed.

(** An instance: two values, and an insertion in the middle. *)
Lemma invariant_preserved_witness :
  Inv two_fives /\
  exists s', perform (Insert 1 [2; 3]) two_fives = (Returned tt, s') /\ Inv s'.
Proof.
  assert (Inv two_fives) as HI.
  { apply (proj1 invariant_preserved).
    - repeat constructor; unfold is_uint32; lia.
    - unfold MAX_LENGTH, len. simpl. lia. }
  split; [exact HI|].
  apply (proj2 invariant_preserved); [exact HI| |].
  - repeat constructor; unfold is_uint32; lia.
  - vm_compute. split; discriminate.
Defined.

(** ** The queries at the boundaries *)

(** On the empty sequence [getAccumulatedValue] reads the cache at index
    -1 and returns [undefined], where [getTotalValue] returns 0. *)
Example accumulated_on_empty :
  fst (getAccumulatedValue 0 (new_PrefixSumComputer [])) = Returned None /\
  fst (getTotalValue (new_PrefixSumComputer [])) = Returned (Some 0).
Proof. split; reflexivity. Qed.

Lemma beyond_index (s : PrefixSumComputer) (i : Z) :
  Inv s -> len (values s) <= i ->
  Z.min (toUint32 i) (len (values s) - 1) = len (values s) - 1.
Proof.
  intros [_ Hb _ _ _] Hi. unfold MAX_LENGTH in Hb.
  pose proof (len_nonneg (values s)).
  unfold toUint32, MAX_UINT_32.
  destruct (Z.ltb_spec i 0); [lia|].
  destruct (Z.ltb_spec 4294967295 i); lia.
Qed.

(** C4, as stated, fails: on the values [4294967295; 1] the total returned
    is 0, and [getIndexOf 0] returns index 0, not the last index 1. *)
Lemma boundary_counterexample :
  fst (getTotalValue overflowing) = Returned (Some 0) /\
  fst (getIndexOf (0 # 1) overflowing) = Returned (Some (mkResult 0 (Some 0))) /\
  len (values overflowing) - 1 = 1.
Proof. repeat split. Qed.

(** C4, amended: in every state [getAccumulatedValue (-1)] returns 0; on a
    sequence that is not empty, [getAccumulatedValue index] returns for
    every index at or beyond the length what [getTotalValue] returns; when
    moreover the sum of all values is below [2 ^ 32], [getIndexOf] returns
    the last index for every position at or beyond that sum, and for a
    position below [2 ^ 53], where the subtraction that gives the remainder
    is exact in the numbers of the language, the offset from the start of
    the last cell as remainder; on the empty sequence [getIndexOf] returns
    index 0 and the floored position. *)
Theorem boundary_queries (s : PrefixSumComputer) :
  getAccumulatedValue (-1) s = (Returned (Some 0), s)
  /\ (Inv s -> 1 <= len (values s) ->
      forall index : Z, len (values s) <= index ->
        fst (getAccumulatedValue index s) = fst (getTotalValue s))
  /\ (Inv s -> 1 <= len (values s) -> sumZ (values s) < 2 ^ 32 ->
      forall P : Q, sumZ (values s) <= Qfloor P ->
        exists r : PrefixSumIndexOfResult,
          fst (getIndexOf P s) = Returned (Some r)
          /\ index r = len (values s) - 1
          /\ (Qfloor P < 2 ^ 53 ->
              remainder r
              = Some (Qfloor P - sum_through (values s) (len (values s) - 2))))
  /\ (Inv s -> len (values s) = 0 ->
      forall P : Q,
        fst (getIndexOf P s) = Returned (Some (mkResult 0 (Some (Qfloor P))))).
Proof.
  split_and!.
  - reflexivity.
  - intros HI HN index Hi.
    destruct (getAccumulatedValue_Inv s index HI) as (s1 & Hrun & _); [lia|lia|].
    destruct (getTotalValue_Inv s HI) as (s2 & Ht & _).
    rewrite Hrun, Ht, beyond_index by assumption. cbn [fst].
    now rewrite sum_through_last by lia.
  - intros HI HN Hsum P HP.
    destruct (getIndexOf_beyond s P HI Hsum HN HP) as (s' & Hrun & _).
    rewrite Hrun. cbn [fst]. eexists. split; [reflexivity|].
    cbn [index remainder]. split; [reflexivity|]. intros _. reflexivity.
  - intros HI H0 P. now rewrite getIndexOf_empty.
Qed.

(** An instance: three unit rows, index 7 and position 3. *)
Lemma boundary_queries_witness :
  getAccumulatedValue (-1) three_rows = (Returned (Some 0), three_rows)
  /\ fst (getAccumulatedValue 7 three_rows) = fst (getTotalValue three_rows)
  /\ exists r : PrefixSumIndexOfResult,
       fst (getIndexOf (3 # 1) three_rows) = Returned (Some r)
       /\ index r = len (values three_rows) - 1
       /\ remainder r
          = Some (Qfloor (3 # 1)
                  - sum_through (values three_rows) (len (values three_rows) - 2)).
Proof.
  assert (Inv three_rows) as HI by (apply Inv_check_sound; reflexivity).
  destruct (boundary_queries three_rows) as (H1 & H2 & H3 & _).
  split; [exact H1|]. split.
  - apply H2; [exact HI|unfold len; simpl; lia..].
  - assert (1 <= len (values three_rows)) as HN by (unfold len; simpl; lia).
    assert (sumZ (values three_rows) < 2 ^ 32) as Hsum by reflexivity.
    assert (sumZ (values three_rows) <= Qfloor (3 # 1)) as HP
      by (vm_compute; discriminate).
    destruct (H3 HI HN Hsum (3 # 1)%Q HP) as (r & Hr & Hi & Hrem).
    exists r. split; [exact Hr|]. split; [exact Hi|].
    apply Hrem. reflexivity.
Defined.

(** ** Round trip *)

Lemma read_Some_range (a : list Z) (i x : Z) :
  read a i = Some x -> 0 <= i < len a.
Proof.
  unfold read, len. intros Hx.
  destruct (Z.ltb_spec i 0); [discriminate|].
  apply lookup_lt_Some in Hx. lia.
Qed.




(** ** Removing values *)

(** C6: [removeValues] clamps the count to what is left from the start
    index on; when the clamped count is zero (the count is zero, or the
    start index is not below the length) it returns false and leaves the
    object as it is; otherwise it returns true and the values are the old
    ones without the run of that many values from the start index on. *)
Theorem remove_semantics (s : PrefixSumComputer) (startIndex cnt : Z) :
  let a := toUint32 startIndex in
  let n := len (values s) in
  let c := Z.min (toUint32 cnt) (Z.max 0 (n - a)) in
  (c = 0 <-> toUint32 cnt = 0 \/ n <= a)
  /\ (c = 0 -> removeValues startIndex cnt s = (Returned false, s))
  /\ (c <> 0 ->
      exists p',
        removeValues startIndex cnt s =
          (Returned true,
           mkPSC (take (Z.to_nat a) (values s) ++ drop (Z.to_nat (a + c)) (values s))
                 p' (lowered a (prefixSumValidIndex s)))
        /\ len p' = n - c).
Proof.
  intros a n c.
  pose proof (toUint32_range cnt) as [Hc0 _].
  assert (c = 0 <-> toUint32 cnt = 0 \/ n <= a) as Hiff by (unfold c; lia).
  split; [exact Hiff|]. split.
  - intros Hc. apply removeValues_noop. fold a n. tauto.
  - intros Hc.
    destruct (removeValues_mutates s startIndex cnt) as (p' & Hrun & Hl & _);
      fold a n; [lia|lia|].
    assert (Z.min (toUint32 cnt) (len (values s) - toUint32 startIndex) = c) as Hceq
      by (unfold c, n, a; lia).
    rewrite Hceq in Hrun, Hl.
    pose proof (toUint32_range startIndex) as [Ha0 _]. fold a in Ha0.
    assert (0 <= c <= n) as Hcn by (unfold c; unfold n, len; lia).
    exists p'. split; [exact Hrun|]. unfold n, len in *. lia.
Qed.

(** An instance: four values, the two in the middle removed. *)
Lemma remove_semantics_witness :
  exists p',
    removeValues 1 2 four_values =
      (Returned true,
       mkPSC (take (Z.to_nat 1) (values four_values)
              ++ drop (Z.to_nat (1 + 2)) (values four_values))
             p' (lowered 1 (prefixSumValidIndex four_values)))
    /\ len p' = 4 - 2.
Proof.
  destruct (remove_semantics four_values 1 2) as (_ & _ & H).
  apply H. vm_compute. discriminate.
Defined.

(** ** The mark under the mutators *)

Lemma perform_state_insert (s : PrefixSumComputer) (i : Z) (ws : list Z) :
  snd (perform (Insert i ws) s) = snd (insertValues i ws s).
Proof.
  cbn [perform]. rewrite bind_run.
  now destruct (insertValues i ws s) as [[b|] s'].
Qed.

Lemma mutator_never_raises (c : call) (s : PrefixSumComputer) :
  is_mutator c ->
  prefixSumValidIndex (snd (perform c s)) <= prefixSumValidIndex s.
Proof.
  intros Hc. destruct c as [i ws|i v|i n| |i|a]; cbn [is_mutator] in Hc; try easy.
  - rewrite perform_state_insert.
    pose proof (toUint32_range i) as [Ha0 _].
    destruct (decide (ws = [])) as [->|Hne].
    { rewrite insertValues_noop. cbn [snd]. lia. }
    destruct (Z.le_gt_cases (toUint32 i) (len (values s))) as [Ha|Ha].
    + destruct (insertValues_mutates s i ws Hne Ha) as (p' & Hrun & _).
      rewrite Hrun. cbn [snd prefixSumValidIndex]. now apply lowered_le.
    + rewrite insertValues_throws by assumption. cbn [snd prefixSumValidIndex]. lia.
  - cbn [perform]. rewrite bind_run.
    pose proof (toUint32_range i) as [Ha0 _].
    destruct (decide (read (values s) (toUint32 i) = Some (toUint32 v))) as [E|E].
    + rewrite changeValue_same by assumption. cbn. lia.
    + rewrite changeValue_mutates by assumption. cbn [snd mret M_ret prefixSumValidIndex].
      now apply lowered_le.
  - cbn [perform]. rewrite bind_run.
    pose proof (toUint32_range i) as [Ha0 _].
    pose proof (toUint32_range n) as [Hc0 _].
    destruct (Z.le_gt_cases (len (values s)) (toUint32 i)) as [Ha|Ha].
    { rewrite removeValues_noop by auto. cbn. lia. }
    destruct (Z.eq_dec (toUint32 n) 0) as [Hn|Hn].
    { rewrite removeValues_noop by auto. cbn. lia. }
    destruct (removeValues_mutates s i n) as (p' & Hrun & _); [assumption|lia|].
    rewrite Hrun. cbn [snd mret M_ret prefixSumValidIndex]. now apply lowered_le.
Qed.

(** C7, as stated, fails: the mark of three unit rows after [getTotalValue]
    is 2; inserting no values at position 0 returns false and leaves the
    mark at 2, which is not the minimum of 2 and -1. *)
Lemma watermark_counterexample :
  prefixSumValidIndex three_rows_summed = 2 /\
  insertValues 0 [] three_rows_summed = (Returned false, three_rows_summed) /\
  prefixSumValidIndex (snd (insertValues 0 [] three_rows_summed))
    <> Z.min (prefixSumValidIndex three_rows_summed) (0 - 1).
Proof.
  split; [reflexivity|]. split; [reflexivity|]. vm_compute. discriminate.
Qed.

(** C7, amended: an insertion of at least one value at a position [at] of
    the sequence or at its end leaves the mark at the minimum of the old
    mark and [at - 1] (an insertion of no values returns false and leaves
    the object as it is); a replacement by another value at [index] leaves
    it at the minimum of the old mark and [index - 1]; a removal that
    returns true leaves it at the minimum of the old mark and
    [startIndex - 1]; and no mutator, whatever its arguments, raises the
    mark. *)
Theorem watermark_lowered (s : PrefixSumComputer) :
  is_int32 (prefixSumValidIndex s) ->
  (forall (at_ : Z) (ws : list Z),
     ws <> [] -> toUint32 at_ <= len (values s) ->
     exists s', insertValues at_ ws s = (Returned true, s')
       /\ prefixSumValidIndex s' = Z.min (prefixSumValidIndex s) (toUint32 at_ - 1))
  /\ (forall at_ : Z, insertValues at_ [] s = (Returned false, s))
  /\ (forall index v : Z,
        read (values s) (toUint32 index) <> Some (toUint32 v) ->
        exists s', changeValue index v s = (Returned true, s')
          /\ prefixSumValidIndex s' = Z.min (prefixSumValidIndex s) (toUint32 index - 1))
  /\ (forall startIndex cnt : Z,
        toUint32 startIndex < len (values s) -> 0 < toUint32 cnt ->
        exists s', removeValues startIndex cnt s = (Returned true, s')
          /\ prefixSumValidIndex s'
               = Z.min (prefixSumValidIndex s) (toUint32 startIndex - 1))
  /\ (forall c : call, is_mutator c ->
        prefixSumValidIndex (snd (perform c s)) <= prefixSumValidIndex s).
Proof.
  intros Hw. split_and!.
  - intros i ws Hne Ha.
    destruct (insertValues_mutates s i ws Hne Ha) as (p' & Hrun & _).
    eexists. split; [exact Hrun|]. cbn [prefixSumValidIndex].
    apply lowered_min; [apply toUint32_range|assumption].
  - intros i. apply insertValues_noop.
  - intros i v Hne. eexists. split; [now apply changeValue_mutates|].
    cbn [prefixSumValidIndex].
    apply lowered_min; [apply toUint32_range|assumption].
  - intros i n Ha Hn.
    destruct (removeValues_mutates s i n Ha Hn) as (p' & Hrun & _).
    eexists. split; [exact Hrun|]. cbn [prefixSumValidIndex].
    apply lowered_min; [apply toUint32_range|assumption].
  - intros c. apply mutator_never_raises.
Qed.

(** An instance: three unit rows with a full cache, an insertion at 1. *)
Lemma watermark_lowered_witness :
  exists s', insertValues 1 [7] three_rows_summed = (Returned true, s')
    /\ prefixSumValidIndex s'
         = Z.min (prefixSumValidIndex three_rows_summed) (toUint32 1 - 1).
Proof.
  assert (is_int32 (prefixSumValidIndex three_rows_summed)) as Hw.
  { unfold is_int32. simpl. lia. }
  destruct (watermark_lowered three_rows_summed Hw) as (H & _).
  apply H; [discriminate|vm_compute; discriminate].
Defined.

(** ** Replacing a value *)

(** C8: replacing the value at an index of the sequence by itself returns
    false and leaves the object as it is; replacing it by another unsigned
    32-bit value returns true. *)
Theorem replace_idempotent (s : PrefixSumComputer) (i x : Z) :
  Inv s -> read (values s) i = Some x ->
  changeValue i x s = (Returned false, s)
  /\ forall v : Z, is_uint32 v -> v <> x ->
       exists s', changeValue i v s = (Returned true, s').
Proof.
  intros HI Hx. pose proof (read_Some_range _ _ _ Hx) as Hi.
  pose proof HI as [Hvs Hb _ _ _]. unfold MAX_LENGTH in Hb.
  assert (toUint32 i = i) as Hti by (apply toUint32_id; unfold is_uint32; lia).
  assert (is_uint32 x) as Hux.
  { unfold read in Hx. destruct (i <? 0); [discriminate|].
    exact (Forall_lookup_1 _ _ _ _ Hvs Hx). }
  split.
  - apply changeValue_same. now rewrite Hti, toUint32_id.
  - intros v Hv Hne. eexists. apply changeValue_mutates.
    rewrite Hti, Hx, toUint32_id by assumption. congruence.
Qed.

(** An instance: four values, at index 1. *)
Lemma replace_idempotent_witness :
  changeValue 1 2 four_values = (Returned false, four_values)
  /\ exists s', changeValue 1 9 four_values = (Returned true, s').
Proof.
  destruct (replace_idempotent four_values 1 2) as [H1 H2].
  - apply Inv_check_sound. reflexivity.
  - reflexivity.
  - split; [exact H1|]. apply H2; [unfold is_uint32; lia|lia].
Defined.

(** C10: replacing at an index at or beyond the length returns true for
    every value, and leaves the values, the cache and the mark as they
    are. *)
Theorem replace_out_of_range (s : PrefixSumComputer) (index v : Z) :
  prefixSumValidIndex s <= len (values s) - 1 ->
  len (values s) <= toUint32 index ->
  changeValue index v s = (Returned true, s).
Proof.
  intros Hw Hi. rewrite changeValue_mutates.
  - rewrite write_outside by assumption. unfold lowered.
    destruct (Z.ltb_spec (toUint32 index - 1) (prefixSumValidIndex s)); [lia|].
    now destruct s.
  - now rewrite read_outside.
Qed.

(** An instance: three unit rows, at index 7. *)
Lemma replace_out_of_range_witness :
  changeValue 7 1 three_rows_summed = (Returned true, three_rows_summed).
Proof.
  apply replace_out_of_range; vm_compute; discriminate.
Defined.

(** ** The numeric domain *)

(** C9, as stated, fails: on the values [4294967295; 1] the sum is
    4294967296, [getTotalValue] returns 0 and the cache holds
    [4294967295; 0]. *)
Lemma numeric_domain_counterexample :
  sumZ (values overflowing) = 4294967296 /\
  getTotalValue overflowing =
    (Returned (Some 0), mkPSC [4294967295; 1] [4294967295; 0] 1).
Proof. split; reflexivity. Qed.

(** What [changeValue] leaves in the cell it is given, when there is one. *)
Lemma changeValue_stores (s : PrefixSumComputer) (index value : Z) :
  toUint32 index < len (values s) ->
  read (values (snd (changeValue index value s))) (toUint32 index)
  = Some (toUint32 value).
Proof.
  intros Hi. pose proof (toUint32_range index) as [Hi0 _].
  destruct (decide (read (values s) (toUint32 index) = Some (toUint32 value))) as [E|E].
  - now rewrite changeValue_same.
  - rewrite changeValue_mutates by assumption. cbn [snd values].
    rewrite read_write_eq by lia. cbn [store_uint32].
    now rewrite wrap_uint32_id by apply toUint32_range.
Qed.

(** C9, amended: each method coerces its index, count and value arguments
    by [toUint32] before anything else, so it does what it does on the
    coerced arguments, which lie in the unsigned 32-bit range, and the
    value that [changeValue] stores is the coerced one; the position given
    to [getIndexOf] is floored; the sums kept in the cache and returned by
    the queries are the exact sums reduced modulo [2 ^ 32]: they are the
    exact sums if and only if the sum of all values is below [2 ^ 32]. *)
Theorem numeric_domain :
  (forall v : Z, is_uint32 (toUint32 v))
  /\ (forall (s : PrefixSumComputer) (insertIndex : Z) (ws : list Z),
        insertValues insertIndex ws s = insertValues (toUint32 insertIndex) ws s)
  /\ (forall (s : PrefixSumComputer) (index value : Z),
        changeValue index value s = changeValue (toUint32 index) (toUint32 value) s
        /\ (toUint32 index < len (values s) ->
            read (values (snd (changeValue index value s))) (toUint32 index)
            = Some (toUint32 value))
        /\ (Forall is_uint32 (values s) ->
            Forall is_uint32 (values (snd (changeValue index value s)))))
  /\ (forall (s : PrefixSumComputer) (startIndex cnt : Z),
        removeValues startIndex cnt s
        = removeValues (toUint32 startIndex) (toUint32 cnt) s)
  /\ (forall (s : PrefixSumComputer) (index : Z), 0 <= index ->
        getAccumulatedValue index s = getAccumulatedValue (toUint32 index) s)
  /\ (forall (P : Q) (s : PrefixSumComputer),
        getIndexOf P s = getIndexOf (inject_Z (Qfloor P)) s)
  /\ (forall s : PrefixSumComputer, Inv s ->
        exists s',
          getTotalValue s = (Returned (Some (sumZ (values s) mod 2 ^ 32)), s')
          /\ values s' = values s
          /\ (forall i : Z, 0 <= i < len (values s) ->
                read (prefixSum s') i = Some (sum_through (values s) i mod 2 ^ 32))
          /\ (sumZ (values s) < 2 ^ 32 <->
              forall i : Z, 0 <= i < len (values s) ->
                read (prefixSum s') i = Some (sum_through (values s) i))).
Proof.
  assert (forall v, toUint32 (toUint32 v) = toUint32 v) as Hidem
    by (intros v; apply toUint32_id, toUint32_range).
  split_and!.
  - exact toUint32_range.
  - intros s insertIndex ws. unfold insertValues. now rewrite Hidem.
  - intros s index value. split_and!.
    + unfold changeValue. now rewrite !Hidem.
    + apply changeValue_stores.
    + intros Hvs.
      destruct (decide (read (values s) (toUint32 index) = Some (toUint32 value)))
        as [E|E].
      * now rewrite changeValue_same.
      * rewrite changeValue_mutates by assumption. cbn [snd values].
        unfold write. destruct (toUint32 index <? 0); [assumption|].
        apply Forall_insert; [assumption|]. apply wrap_uint32_range.
  - intros s startIndex cnt. unfold removeValues. now rewrite !Hidem.
  - intros s index Hi. unfold getAccumulatedValue.
    pose proof (toUint32_range index) as [H0 _].
    destruct (Z.ltb_spec index 0); [lia|].
    destruct (Z.ltb_spec (toUint32 index) 0); [lia|].
    now rewrite Hidem.
  - intros P s. unfold getIndexOf. now rewrite Qfloor_Z.
  - intros s HI.
    destruct (getTotalValue_Inv s HI) as (s' & Hrun & HI' & Hv & Hw).
    exists s'. split; [exact Hrun|]. split; [exact Hv|].
    pose proof HI' as [Hvs _ _ _ Hc]. rewrite Hv in *. split.
    + intros i Hi. apply Hc. lia.
    + split.
      * intros Hsum i Hi. rewrite <- Hv. apply cache_exact; rewrite ?Hv; assumption.
      * intros Hex. destruct (Z.eq_dec (len (values s)) 0) as [H0|H0].
        { apply len_zero in H0. rewrite H0. reflexivity. }
        pose proof (len_nonneg (values s)).
        specialize (Hex (len (values s) - 1) ltac:(lia)).
        rewrite Hc in Hex by lia. rewrite sum_through_last in Hex by lia.
        injection Hex as Hex. rewrite <- Hex. apply wrap_uint32_range.
Qed.

(** An instance: four values. *)
Lemma numeric_domain_witness :
  getAccumulatedValue 7 four_values = getAccumulatedValue (toUint32 7) four_values
  /\ exists s',
    getTotalValue four_values
      = (Returned (Some (sumZ (values four_values) mod 2 ^ 32)), s')
    /\ values s' = values four_values
    /\ (forall i : Z, 0 <= i < len (values four_values) ->
          read (prefixSum s') i = Some (sum_through (values four_values) i mod 2 ^ 32))
    /\ (sumZ (values four_values) < 2 ^ 32 <->
        forall i : Z, 0 <= i < len (values four_values) ->
          read (prefixSum s') i = Some (sum_through (values four_values) i)).
Proof.
  destruct numeric_domain as (_ & _ & _ & _ & Hacc & _ & Hsum).
  split.
  - apply Hacc. lia.
  - apply Hsum. apply Inv_check_sound. reflexivity.
Defined.

(** ** The scenarios of the specification *)

Example scenario_A :
  getTotalValue three_rows = (Returned (Some 3), three_rows_summed) /\
  fst (getIndexOf (2 # 1) three_rows) = Returned (Some (mkResult 2 (Some 0))).
Proof. split; reflexivity. Qed.

Example scenario_B :
  insertValues 1 [2; 3] two_fives = (Returned true, four_values) /\
  fst (getTotalValue four_values) = Returned (Some 15) /\
  fst (getAccumulatedValue 1 four_values) = Returned (Some 7).
Proof. repeat split. Qed.

Example scenario_C :
  exists s', removeValues 1 2 four_values = (Returned true, s') /\
    values s' = [5; 5] /\ fst (getTotalValue s') = Returned (Some 10).
Proof. exists (mkPSC [5; 5] [0; 0] (-1)). repeat split. Qed.

Example scenario_D :
  fst (changeValue 0 10 (new_PrefixSumComputer [10])) = Returned false /\
  exists s', changeValue 0 20 (new_PrefixSumComputer [10]) = (Returned true, s') /\
    fst (getTotalValue s') = Returned (Some 20).
Proof. split; [reflexivity|]. eexists. split; reflexivity. Qed.

Example scenario_E :
  fst (getTotalValue (new_PrefixSumComputer [])) = Returned (Some 0) /\
  fst (getIndexOf (0 # 1) (new_PrefixSumComputer []))
    = Returned (Some (mkResult 0 (Some 0))).
Proof. split; reflexivity. Qed.

(** An insertion beyond the end throws, after the values have been
    replaced: the precondition of the insertion matters. *)
Example insert_beyond_end :
  insertValues 5 [2; 3] two_fives =
    (RangeError, mkPSC [5; 5; 0; 0] [0; 0] (-1)).
Proof. reflexivity. Qed.

(** * Further properties of [PrefixSumComputer] *)

(** ** The frame of the fill loop *)

Lemma fill_round_frame (vs : list Z) (j : Z) (s0 s1 : PrefixSumComputer) :
  (p ← get_prefixSum; prefixSum_write j (num_add (read p (j - 1)) (read vs j))) s0
    = (Returned tt, s1) ->
  forall t : Z, t <> j -> read (prefixSum s1) t = read (prefixSum s0) t.
Proof.
  rewrite bind_run. cbn [get_prefixSum]. unfold prefixSum_write.
  intros H t Ht. injection H as <-. cbn [prefixSum].
  apply read_write_ne. lia.
Qed.

Lemma same_reads_same_list (a b : list Z) :
  length a = length b -> (forall t : Z, read a t = read b t) -> a = b.
Proof.
  intros Hl H. apply list_eq. intros n.
  specialize (H (Z.of_nat n)). now rewrite !read_nat in H.
Qed.

(** A query above the mark writes the cells after the mark up to the index
    it clamps to, and no other cell. *)
Lemma _getAccumulatedValue_frame (s : PrefixSumComputer) (index : Z) :
  let vs := values s in
  let j := Z.min index (len vs - 1) in
  length (prefixSum s) = length vs ->
  1 <= len vs <= MAX_LENGTH ->
  -1 <= prefixSumValidIndex s <= len vs - 1 ->
  prefixSumValidIndex s < index ->
  forall t : Z, t <= prefixSumValidIndex s \/ j < t ->
    read (prefixSum (snd (_getAccumulatedValue index s))) t = read (prefixSum s) t.
Proof.
  destruct s as [vs p w]. cbn [values prefixSum prefixSumValidIndex].
  intros Hl HN Hw Hi. unfold MAX_LENGTH in HN.
  set (j := Z.min index (len vs - 1)).
  unfold _getAccumulatedValue. run_step.
  destruct (Z.leb_spec index w); [lia|]. run_step.
  set (start := if w + 1 =? 0 then w + 1 + 1 else w + 1).
  assert ((if len vs <=? index then len vs - 1 else index) = j) as ->.
  { unfold j. destruct (Z.leb_spec (len vs) index); lia. }
  set (frame := fun (i : Z) (s0 : PrefixSumComputer) =>
         forall t : Z, t <= w \/ i <= t -> read (prefixSum s0) t = read p t).
  assert (exists s1,
    when (w + 1 =? 0) (prefixSum_write 0 (read vs 0)) (mkPSC vs p w) = (Returned tt, s1)
    /\ frame start s1) as (s1 & Hs1 & Hf1).
  { unfold start, when, frame. destruct (Z.eqb_spec (w + 1) 0) as [E|E].
    - eexists. split; [reflexivity|]. cbn [prefixSum]. intros t Ht.
      apply read_write_ne. lia.
    - eexists. split; [reflexivity|]. reflexivity. }
  rewrite bind_run, Hs1.
  assert (1 <= start /\ start - 1 <= j /\ w < start) as (Hs0 & Hsj & Hsw).
  { unfold start, j. destruct (Z.eqb_spec (w + 1) 0); lia. }
  destruct (for_rounds_invariant frame
              (fun i => p0 ← get_prefixSum;
                        prefixSum_write i (num_add (read p0 (i - 1)) (read vs i)))
              (Z.to_nat (j - start + 1)) start s1 Hf1)
    as (s2 & Hs2 & Hf2).
  { intros i s0 Hrange Hfr. eexists. split; [reflexivity|].
    intros t Ht. cbn [prefixSum]. rewrite read_write_ne by lia. apply Hfr. lia. }
  unfold for_range. rewrite bind_run, Hs2.
  replace (start + Z.of_nat (Z.to_nat (j - start + 1))) with (j + 1) in Hf2 by lia.
  do 2 run_step. cbn [snd mret M_ret prefixSum].
  intros t Ht. apply Hf2. lia.
Qed.

(** ** Inserting and replacing: what the values become *)

(** X1: an insertion of at least one value at a position of the sequence
    or at its end returns true; the values are the old ones with the new
    ones spliced in at that position, the cache is a fresh array of the new
    length that shares with the old one the cells up to the lowered mark. *)
Theorem insert_splices (s : PrefixSumComputer) (insertIndex : Z) (ws : list Z) :
  ws <> [] -> toUint32 insertIndex <= len (values s) ->
  exists s',
    insertValues insertIndex ws s = (Returned true, s')
    /\ values s' = take (Z.to_nat (toUint32 insertIndex)) (values s) ++ ws
                   ++ drop (Z.to_nat (toUint32 insertIndex)) (values s)
    /\ len (values s') = len (values s) + len ws
    /\ len (prefixSum s') = len (values s')
    /\ forall i : Z, 0 <= i <= prefixSumValidIndex s' -> i < len (prefixSum s) ->
         read (prefixSum s') i = read (prefixSum s) i.
Proof.
  intros Hws Ha.
  destruct (insertValues_mutates s insertIndex ws Hws Ha) as (p' & Hrun & Hl & Hrd).
  pose proof (toUint32_range insertIndex) as [Ha0 _].
  eexists. split; [exact Hrun|]. cbn [values prefixSum prefixSumValidIndex].
  assert (len (take (Z.to_nat (toUint32 insertIndex)) (values s) ++ ws
               ++ drop (Z.to_nat (toUint32 insertIndex)) (values s))
          = len (values s) + len ws) as Hlen.
  { unfold len in *. rewrite !length_app, length_take, length_drop. lia. }
  split_and!; [reflexivity|exact Hlen| |exact Hrd].
  rewrite Hlen. unfold len. lia.
Qed.

(** An instance: two values, and an insertion in the middle. *)
Lemma insert_splices_witness :
  exists s',
    insertValues 1 [2; 3] two_fives = (Returned true, s')
    /\ values s' = take (Z.to_nat (toUint32 1)) (values two_fives) ++ [2; 3]
                   ++ drop (Z.to_nat (toUint32 1)) (values two_fives)
    /\ len (values s') = len (values two_fives) + len [2; 3]
    /\ len (prefixSum s') = len (values s')
    /\ forall i : Z, 0 <= i <= prefixSumValidIndex s' -> i < len (prefixSum two_fives) ->
         read (prefixSum s') i = read (prefixSum two_fives) i.
Proof.
  apply insert_splices; [discriminate|vm_compute; discriminate].
Defined.

(** X2: an insertion of at least one value at a position beyond the end
    throws a [RangeError]; by then [this.values] is already the new, longer
    array (the old values followed by zeros), while the cache and the mark
    are the old ones: the two arrays differ in length. *)
Theorem insert_beyond_end_throws (s : PrefixSumComputer) (insertIndex : Z) (ws : list Z) :
  ws <> [] -> len (values s) < toUint32 insertIndex ->
  exists s',
    insertValues insertIndex ws s = (RangeError, s')
    /\ values s' = values s ++ replicate (length ws) 0
    /\ prefixSum s' = prefixSum s
    /\ prefixSumValidIndex s' = prefixSumValidIndex s
    /\ (length (prefixSum s) = length (values s) ->
        length (prefixSum s') <> length (values s')).
Proof.
  intros Hws Ha. rewrite insertValues_throws by assumption.
  eexists. split; [reflexivity|]. cbn [values prefixSum prefixSumValidIndex].
  split_and!; try reflexivity.
  intros Hl. rewrite length_app, length_replicate, Hl.
  destruct ws; [congruence|simpl; lia].
Qed.

(** An instance: two values, and an insertion at position 5. *)
Lemma insert_beyond_end_throws_witness :
  exists s',
    insertValues 5 [2; 3] two_fives = (RangeError, s')
    /\ values s' = values two_fives ++ replicate (length [2; 3]) 0
    /\ prefixSum s' = prefixSum two_fives
    /\ prefixSumValidIndex s' = prefixSumValidIndex two_fives
    /\ (length (prefixSum two_fives) = length (values two_fives) ->
        length (prefixSum s') <> length (values s')).
Proof.
  apply insert_beyond_end_throws; [discriminate|vm_compute; reflexivity].
Defined.

(** X3: replacing the value at an index of the sequence by another value
    returns true, stores the coerced value in that cell and leaves every
    other cell of the values, and the whole cache array, as they were. *)
Theorem change_one_cell (s : PrefixSumComputer) (index value x : Z) :
  read (values s) (toUint32 index) = Some x -> x <> toUint32 value ->
  exists s',
    changeValue index value s = (Returned true, s')
    /\ read (values s') (toUint32 index) = Some (toUint32 value)
    /\ (forall j : Z, j <> toUint32 index -> read (values s') j = read (values s) j)
    /\ length (values s') = length (values s)
    /\ prefixSum s' = prefixSum s.
Proof.
  intros Hx Hne. pose proof (read_Some_range _ _ _ Hx) as Hi.
  rewrite changeValue_mutates by (rewrite Hx; congruence).
  eexists. split; [reflexivity|]. cbn [values prefixSum].
  split_and!.
  - rewrite read_write_eq by assumption. cbn [store_uint32].
    now rewrite wrap_uint32_id by apply toUint32_range.
  - intros j Hj. apply read_write_ne. lia.
  - apply length_write.
  - reflexivity.
Qed.

(** An instance: four values, the one at index 1 replaced by 9. *)
Lemma change_one_cell_witness :
  exists s',
    changeValue 1 9 four_values = (Returned true, s')
    /\ read (values s') (toUint32 1) = Some (toUint32 9)
    /\ (forall j : Z, j <> toUint32 1 -> read (values s') j = read (values four_values) j)
    /\ length (values s') = length (values four_values)
    /\ prefixSum s' = prefixSum four_values.
Proof.
  apply (change_one_cell four_values 1 9 2); [reflexivity|vm_compute; discriminate].
Defined.

(** ** The queries and the cache *)

Lemma getAccumulatedValue_frame (s : PrefixSumComputer) (index : Z) :
  let j := Z.min (toUint32 index) (len (values s) - 1) in
  Inv s -> 0 <= index -> 1 <= len (values s) ->
  forall t : Z, t <= prefixSumValidIndex s \/ j < t ->
    read (prefixSum (snd (getAccumulatedValue index s))) t = read (prefixSum s) t.
Proof.
  intros j HI Hi HN t Ht. pose proof HI as [_ Hb Hl Hw _].
  unfold getAccumulatedValue. destruct (Z.ltb_spec index 0); [lia|].
  destruct (Z.le_gt_cases (toUint32 index) (prefixSumValidIndex s)) as [Hle|Hgt].
  - now rewrite _getAccumulatedValue_cached.
  - apply _getAccumulatedValue_frame; try assumption; lia.
Qed.

(** X4: a query is lazy. On a sequence that is not empty,
    [getAccumulatedValue index] leaves the values alone, moves the mark to
    the larger of the old mark and the index (clamped to the last index),
    and leaves untouched every cell of the cache at or below the old mark
    and every cell after the clamped index. *)
Theorem query_is_lazy (s : PrefixSumComputer) (index : Z) :
  Inv s -> 0 <= index -> 1 <= len (values s) ->
  let j := Z.min (toUint32 index) (len (values s) - 1) in
  let s' := snd (getAccumulatedValue index s) in
  values s' = values s
  /\ prefixSumValidIndex s' = Z.max (prefixSumValidIndex s) j
  /\ forall t : Z, t <= prefixSumValidIndex s \/ j < t ->
       read (prefixSum s') t = read (prefixSum s) t.
Proof.
  intros HI Hi HN j s'.
  destruct (getAccumulatedValue_Inv s index HI Hi HN) as (s1 & Hrun & _ & Hv & Hw).
  split_and!.
  - unfold s'. now rewrite Hrun.
  - unfold s'. now rewrite Hrun.
  - apply getAccumulatedValue_frame; assumption.
Qed.

(** An instance: four values with an empty cache, queried at index 1. *)
Lemma query_is_lazy_witness :
  let j := Z.min (toUint32 1) (len (values four_values) - 1) in
  let s' := snd (getAccumulatedValue 1 four_values) in
  values s' = values four_values
  /\ prefixSumValidIndex s' = Z.max (prefixSumValidIndex four_values) j
  /\ forall t : Z, t <= prefixSumValidIndex four_values \/ j < t ->
       read (prefixSum s') t = read (prefixSum four_values) t.
Proof.
  apply query_is_lazy.
  - apply Inv_check_sound. reflexivity.
  - lia.
  - vm_compute. discriminate.
Defined.

Lemma getAccumulatedValue_settled (s : PrefixSumComputer) (index : Z) :
  Inv s -> 0 <= index -> 1 <= len (values s) ->
  Z.min (toUint32 index) (len (values s) - 1) <= prefixSumValidIndex s ->
  getAccumulatedValue index s =
    (Returned (Some (wrap_uint32 (sum_through (values s)
       (Z.min (toUint32 index) (len (values s) - 1))))), s).
Proof.
  intros HI Hi HN Hj.
  destruct (getAccumulatedValue_Inv s index HI Hi HN) as (s1 & Hrun & HI1 & Hv & Hw).
  rewrite Hrun. f_equal.
  pose proof (getAccumulatedValue_frame s index HI Hi HN) as Hfr.
  rewrite Hrun in Hfr. cbn [snd] in Hfr.
  destruct s as [vs p w], s1 as [vs1 p1 w1].
  cbn [values prefixSum prefixSumValidIndex] in *. subst vs1.
  f_equal; [|lia].
  apply same_reads_same_list.
  - destruct HI as [_ _ Hl _ _], HI1 as [_ _ Hl1 _ _].
    cbn [values prefixSum] in *. congruence.
  - intros t. apply Hfr. lia.
Qed.

(** X5: queries settle. Asking [getAccumulatedValue] the same index a second
    time returns the same value and changes nothing any more. *)
Theorem query_settles (s : PrefixSumComputer) (index : Z) :
  Inv s ->
  let r := fst (getAccumulatedValue index s) in
  let s' := snd (getAccumulatedValue index s) in
  getAccumulatedValue index s' = (r, s').
Proof.
  intros HI r s'. unfold r, s'.
  destruct (Z.lt_ge_cases index 0) as [Hneg|Hpos].
  { now rewrite !getAccumulatedValue_negative. }
  destruct (Z.eq_dec (len (values s)) 0) as [H0|H0].
  { rewrite (getAccumulatedValue_empty s) by assumption. cbn [fst snd].
    now apply getAccumulatedValue_empty. }
  pose proof (len_nonneg (values s)).
  destruct (getAccumulatedValue_Inv s index HI) as (s1 & Hrun & HI1 & Hv & Hw);
    [lia|lia|].
  rewrite Hrun. cbn [fst snd].
  rewrite getAccumulatedValue_settled; rewrite ?Hv; try assumption; try lia.
  reflexivity.
Qed.

(** An instance: four values with an empty cache, queried at index 2. *)
Lemma query_settles_witness :
  let r := fst (getAccumulatedValue 2 four_values) in
  let s' := snd (getAccumulatedValue 2 four_values) in
  getAccumulatedValue 2 s' = (r, s').
Proof.
  apply query_settles. apply Inv_check_sound. reflexivity.
Defined.

Lemma full_cache_determined (s1 s2 : PrefixSumComputer) :
  Inv s1 -> Inv s2 -> values s1 = values s2 ->
  prefixSumValidIndex s1 = len (values s1) - 1 ->
  prefixSumValidIndex s2 = len (values s2) - 1 ->
  s1 = s2.
Proof.
  intros [_ _ Hl1 _ Hc1] [_ _ Hl2 _ Hc2] Hv Hw1 Hw2.
  destruct s1 as [vs1 p1 w1], s2 as [vs2 p2 w2].
  cbn [values prefixSum prefixSumValidIndex] in *. subst vs2.
  f_equal; [|lia]. apply same_reads_same_list; [congruence|].
  intros t. destruct (Z.lt_ge_cases t 0) as [Hneg|Hpos].
  { unfold read. now destruct (Z.ltb_spec t 0); [|lia]. }
  destruct (Z.lt_ge_cases t (len vs1)) as [Hin|Hout].
  - rewrite Hc1, Hc2 by lia. reflexivity.
  - rewrite !read_outside; [reflexivity| |]; unfold len in *; lia.
Qed.

(** X6: the cache cannot be observed. Two objects that hold the same values
    and satisfy the invariant give the same answer to every query, however
    much of their caches is filled. *)
Theorem cache_is_transparent (s1 s2 : PrefixSumComputer) :
  Inv s1 -> Inv s2 -> values s1 = values s2 ->
  (forall index : Z,
     fst (getAccumulatedValue index s1) = fst (getAccumulatedValue index s2))
  /\ fst (getTotalValue s1) = fst (getTotalValue s2)
  /\ (forall P : Q, getIndexOf P s1 = getIndexOf P s2).
Proof.
  intros HI1 HI2 Hv. split_and!.
  - intros index. destruct (Z.lt_ge_cases index 0) as [Hneg|Hpos].
    { now rewrite !getAccumulatedValue_negative. }
    destruct (Z.eq_dec (len (values s1)) 0) as [H0|H0].
    { rewrite !getAccumulatedValue_empty; try assumption; [reflexivity|congruence]. }
    pose proof (len_nonneg (values s1)).
    destruct (getAccumulatedValue_Inv s1 index HI1) as (t1 & Hr1 & _); [lia|lia|].
    destruct (getAccumulatedValue_Inv s2 index HI2) as (t2 & Hr2 & _);
      [lia|rewrite <- Hv; lia|].
    rewrite Hr1, Hr2, Hv. reflexivity.
  - destruct (getTotalValue_Inv s1 HI1) as (t1 & Hr1 & _).
    destruct (getTotalValue_Inv s2 HI2) as (t2 & Hr2 & _).
    rewrite Hr1, Hr2, Hv. reflexivity.
  - intros P.
    destruct (getTotalValue_Inv s1 HI1) as (t1 & Hr1 & HT1 & Hv1 & Hw1).
    destruct (getTotalValue_Inv s2 HI2) as (t2 & Hr2 & HT2 & Hv2 & Hw2).
    rewrite (getIndexOf_run s1 t1 _ _ Hr1), (getIndexOf_run s2 t2 _ _ Hr2).
    assert (t1 = t2) as ->; [|reflexivity].
    apply full_cache_determined; try assumption; congruence.
Qed.

(** An instance: three unit rows, with an empty and with a full cache. *)
Lemma cache_is_transparent_witness :
  (forall index : Z,
     fst (getAccumulatedValue index three_rows)
       = fst (getAccumulatedValue index three_rows_summed))
  /\ fst (getTotalValue three_rows) = fst (getTotalValue three_rows_summed)
  /\ (forall P : Q, getIndexOf P three_rows = getIndexOf P three_rows_summed).
Proof.
  apply cache_is_transparent.
  - apply Inv_check_sound. reflexivity.
  - apply Inv_check_sound. reflexivity.
  - reflexivity.
Defined.

(** ** More on the binary search *)

Section SearchBounds.

Variables vs p : list Z.
Variable accumulatedValue : Z.

Hypothesis vs_bound : len vs <= MAX_LENGTH.

(** Whatever the cache holds, the index the loop ends with is an index of
    the sequence, or the initial one. *)
Lemma search_index_range :
  forall (fuel : nat) (low high mid0 : Z) (midStart0 : number) (mid : Z)
         (midStart : number),
  0 <= low -> high < len vs -> 0 <= mid0 < Z.max 1 (len vs) ->
  search fuel vs p accumulatedValue low high mid0 midStart0 = Some (mid, midStart) ->
  0 <= mid < Z.max 1 (len vs).
Proof.
  induction fuel as [|fuel IH]; intros low high mid0 ms0 mid ms Hl Hh Hm0 Hrun;
    [discriminate|].
  cbn [search] in Hrun. destruct (Z.leb_spec low high).
  - pose proof (mid_between vs vs_bound low high ltac:(lia) ltac:(lia)) as Hm.
    cbv zeta in Hm.
    set (m := wrap_int32 (Z.quot (2 * low + (high - low)) 2)) in *.
    destruct (num_lt _ _).
    + apply IH in Hrun; lia.
    + destruct (num_ge _ _).
      * apply IH in Hrun; lia.
      * injection Hrun as <- _. lia.
  - injection Hrun as <- _. lia.
Qed.

Hypothesis vs_typed : Forall is_uint32 vs.
Hypothesis p_exact : forall i : Z, 0 <= i < len vs ->
  read p i = Some (sum_through vs i).

(** The position lies before the first cell: the loop moves left until the
    window is empty, and the last [mid] is 0. *)
Lemma search_before :
  accumulatedValue < 0 ->
  forall (fuel : nat) (high mid0 : Z) (midStart0 : number),
  -1 <= high < len vs ->
  (high = -1 -> mid0 = 0 /\ midStart0 = Some 0) ->
  (Z.to_nat (high + 1) < fuel)%nat ->
  search fuel vs p accumulatedValue 0 high mid0 midStart0 = Some (0, Some 0).
Proof.
  intros Hacc. induction fuel as [|fuel IH]; intros high mid0 ms0 Hh Hlast Hf; [lia|].
  cbn [search]. destruct (Z.leb_spec 0 high).
  - pose proof (mid_between vs vs_bound 0 high ltac:(lia) ltac:(lia)) as Hm.
    cbv zeta in Hm.
    set (mid := wrap_int32 (Z.quot (2 * 0 + (high - 0)) 2)) in *.
    rewrite (midStart_exact vs p p_exact) by lia. cbn [num_lt].
    pose proof (psum_nonneg vs (Z.to_nat (mid - 1 + 1)) vs_typed) as Hnn.
    fold (sum_through vs (mid - 1)) in Hnn.
    destruct (Z.ltb_spec accumulatedValue (sum_through vs (mid - 1))); [|lia].
    apply IH; [lia| |lia].
    intros E. assert (mid = 0) as -> by lia. split; [reflexivity|].
    now rewrite sum_through_before.
  - destruct Hlast as [-> ->]; [lia|reflexivity].
Qed.

End SearchBounds.

Lemma locate_neg_helper (s : PrefixSumComputer) (P : Q) :
  Inv s -> sumZ (values s) < 2 ^ 32 -> Qfloor P < 0 ->
  fst (getIndexOf P s) = Returned (Some (mkResult 0 (Some (Qfloor P)))).
Proof.
  intros HI Hsum HP.
  destruct (getTotalValue_Inv s HI) as (s1 & Hrun & HI1 & Hv & Hw).
  rewrite (getIndexOf_run s s1 _ _ Hrun). cbn [fst].
  pose proof HI as [Hvs Hb _ _ _].
  rewrite <- Hv in Hw, Hsum.
  pose proof (cache_exact s1 HI1 Hw Hsum) as Hex. rewrite Hv in *.
  pose proof (len_nonneg (values s)).
  rewrite (search_before (values s) (prefixSum s1) (Qfloor P) Hb Hvs Hex HP);
    [|lia|intros _; split; reflexivity|unfold len in *; lia].
  cbn [num_sub]. now rewrite Z.sub_0_r.
Qed.

(** X7: a negative position. When the sum of all values is below [2 ^ 32],
    [getIndexOf] at a position whose floor is negative returns index 0, and
    the floored position itself, a negative number, as remainder. *)
Theorem locate_negative (s : PrefixSumComputer) (P : Q) :
  Inv s -> sumZ (values s) < 2 ^ 32 -> Qfloor P < 0 ->
  fst (getIndexOf P s) = Returned (Some (mkResult 0 (Some (Qfloor P)))).
Proof.
  intros HI Hsum HP.
  destruct (getTotalValue_Inv s HI) as (s1 & Hrun & HI1 & Hv & Hw).
  rewrite (getIndexOf_run s s1 _ _ Hrun). cbn [fst].
  pose proof HI as [Hvs Hb _ _ _].
  rewrite <- Hv in Hw, Hsum.
  pose proof (cache_exact s1 HI1 Hw Hsum) as Hex. rewrite Hv in *.
  pose proof (len_nonneg (values s)).
  rewrite (search_before (values s) (prefixSum s1) (Qfloor P) Hb Hvs Hex HP);
    [|lia|intros _; split; reflexivity|unfold len in *; lia].
  cbn [num_sub]. now rewrite Z.sub_0_r.
Qed.

(** An instance: three unit rows, at the position -7/2. *)
Lemma locate_negative_witness :
  fst (getIndexOf (-7 # 2) three_rows)
    = Returned (Some (mkResult 0 (Some (Qfloor (-7 # 2))))).
Proof.
  apply locate_negative.
  - apply Inv_check_sound. reflexivity.
  - reflexivity.
  - reflexivity.
Defined.

(** X10: [getIndexOf] always ends. On every state that satisfies the
    invariant, overflowed sums included, it returns a result whose index is
    an index of the sequence (0 on the empty sequence); it leaves the values
    alone and the cache filled up to the last index. *)
Theorem locate_always_returns (s : PrefixSumComputer) (P : Q) :
  Inv s ->
  exists (r : PrefixSumIndexOfResult) (s' : PrefixSumComputer),
    getIndexOf P s = (Returned (Some r), s')
    /\ 0 <= index r < Z.max 1 (len (values s))
    /\ values s' = values s
    /\ prefixSumValidIndex s' = len (values s) - 1.
Proof.
  intros HI. destruct (getTotalValue_Inv s HI) as (s1 & Hrun & HI1 & Hv & Hw).
  rewrite (getIndexOf_run s s1 _ _ Hrun).
  pose proof HI1 as [_ Hb _ _ _].
  destruct (search_enough_fuel (values s1) (prefixSum s1) (Qfloor P) Hb
              (S (length (values s1))) 0 (len (values s1) - 1) 0 (Some 0))
    as [[mid midStart] Hr]; [lia|lia|unfold len; lia|].
  pose proof (len_nonneg (values s1)).
  pose proof (search_index_range (values s1) (prefixSum s1) (Qfloor P) Hb
                (S (length (values s1))) 0 (len (values s1) - 1) 0 (Some 0)
                mid midStart ltac:(lia) ltac:(lia) ltac:(lia) Hr) as Hmid.
  rewrite Hr. eexists. exists s1. split; [reflexivity|].
  cbn [index]. rewrite Hv in Hmid. split_and!; [lia|lia|assumption|assumption].
Qed.

(** An instance: values whose sums overflow, at the position 9. *)
Lemma locate_always_returns_witness :
  exists (r : PrefixSumIndexOfResult) (s' : PrefixSumComputer),
    getIndexOf (9 # 1) overflowing_inside = (Returned (Some r), s')
    /\ 0 <= index r < Z.max 1 (len (values overflowing_inside))
    /\ values s' = values overflowing_inside
    /\ prefixSumValidIndex s' = len (values overflowing_inside) - 1.
Proof.
  apply locate_always_returns. apply Inv_check_sound. reflexivity.
Defined.

(** The index [getIndexOf] returns, without overflow, as a function of the
    floored position: 0 before the first cell, the cell of the position
    inside, the last index at and beyond the total. *)
Lemma getIndexOf_cases (s : PrefixSumComputer) (P : Q) :
  Inv s -> sumZ (values s) < 2 ^ 32 -> 1 <= len (values s) ->
  exists (i : Z) (r : number),
    fst (getIndexOf P s) = Returned (Some (mkResult i r))
    /\ 0 <= i < len (values s)
    /\ (Qfloor P < 0 -> i = 0)
    /\ (0 <= Qfloor P < sumZ (values s) ->
        sum_through (values s) (i - 1) <= Qfloor P < sum_through (values s) i)
    /\ (sumZ (values s) <= Qfloor P -> i = len (values s) - 1).
Proof.
  intros HI Hsum HN. pose proof HI as [Hvs _ _ _ _].
  pose proof (sumZ_nonneg (values s) Hvs) as Hnn.
  destruct (Z.lt_ge_cases (Qfloor P) 0) as [Hneg|Hpos].
  { exists 0. eexists. split; [now apply locate_neg_helper|]. split_and!; lia. }
  destruct (Z.lt_ge_cases (Qfloor P) (sumZ (values s))) as [Hin|Hout].
  - destruct (cell_exists (values s) (Qfloor P) ltac:(lia)) as (i & Hi & Hcell).
    destruct (getIndexOf_cell s P i HI Hsum Hi Hcell) as (s' & Hrun & _).
    exists i. eexists. rewrite Hrun. split; [reflexivity|]. split_and!; lia.
  - destruct (getIndexOf_beyond s P HI Hsum HN Hout) as (s' & Hrun & _).
    eexists. eexists. rewrite Hrun. split; [reflexivity|]. split_and!; lia.
Qed.

(** X8: position, index and remainder. When the sum of all values is below
    [2 ^ 32] and the floored position lies below it and is not negative,
    the remainder [getIndexOf] returns is an offset inside the cell of the
    index it returns (not negative, below the value at that index, which
    therefore is not zero), and the sum through the index before plus the
    remainder gives the floored position back. *)
Theorem locate_decomposes (s : PrefixSumComputer) (P : Q) :
  Inv s -> sumZ (values s) < 2 ^ 32 ->
  0 <= Qfloor P < sumZ (values s) ->
  exists (i r x v : Z) (s1 s2 : PrefixSumComputer),
    getIndexOf P s = (Returned (Some (mkResult i (Some r))), s1)
    /\ read (values s) i = Some x
    /\ 0 <= r < x
    /\ getAccumulatedValue (i - 1) s1 = (Returned (Some v), s2)
    /\ v + r = Qfloor P.
Proof.
  intros HI Hsum HP. pose proof HI as [Hvs _ _ _ _].
  destruct (cell_exists (values s) (Qfloor P) HP) as (i & Hi & Hcell).
  destruct (getIndexOf_cell s P i HI Hsum Hi Hcell) as (s1 & Hrun & HI1 & Hv).
  destruct (read_inside (values s) i Hi) as [x Hx].
  pose proof (sum_through_step (values s) i x ltac:(lia) Hx) as Hstep.
  assert (exists s2, getAccumulatedValue (i - 1) s1
            = (Returned (Some (sum_through (values s) (i - 1))), s2))
    as (s2 & Hsum2).
  { destruct (Z.eq_dec i 0) as [->|Hne].
    - exists s1. now rewrite getAccumulatedValue_negative.
    - destruct (getAccumulatedValue_Inv s1 (i - 1) HI1) as (s2 & Hr2 & _);
        rewrite ?Hv; [lia|lia|].
      rewrite Hv in Hr2.
      rewrite <- Hv, in_range_index, Hv in Hr2 by (rewrite ?Hv; assumption || lia).
      pose proof (sum_through_mono (values s) (i - 1) (len (values s) - 1) Hvs
                    ltac:(lia)) as Hm.
      rewrite (sum_through_last _ (len (values s) - 1)) in Hm by lia.
      rewrite sum_through_fits in Hr2 by (assumption || lia).
      eauto. }
  exists i, (Qfloor P - sum_through (values s) (i - 1)), x,
    (sum_through (values s) (i - 1)), s1, s2.
  split_and!; try assumption; lia.
Qed.

(** An instance: the values 5, 2, 3, 5 at the position 15/2. *)
Lemma locate_decomposes_witness :
  exists (i r x v : Z) (s1 s2 : PrefixSumComputer),
    getIndexOf (15 # 2) four_values = (Returned (Some (mkResult i (Some r))), s1)
    /\ read (values four_values) i = Some x
    /\ 0 <= r < x
    /\ getAccumulatedValue (i - 1) s1 = (Returned (Some v), s2)
    /\ v + r = Qfloor (15 # 2).
Proof.
  apply locate_decomposes.
  - apply Inv_check_sound. reflexivity.
  - reflexivity.
  - vm_compute. split; [discriminate|reflexivity].
Defined.

(** X9: [getIndexOf] is monotone. When the sum of all values is below
    [2 ^ 32], a position at or after another one is found at the same
    index or at a later one, negative positions and positions beyond the
    total included. *)
Theorem locate_monotone (s : PrefixSumComputer) (P1 P2 : Q) :
  Inv s -> sumZ (values s) < 2 ^ 32 -> Qfloor P1 <= Qfloor P2 ->
  exists (r1 r2 : PrefixSumIndexOfResult),
    fst (getIndexOf P1 s) = Returned (Some r1)
    /\ fst (getIndexOf P2 s) = Returned (Some r2)
    /\ index r1 <= index r2.
Proof.
  intros HI Hsum HP. pose proof HI as [Hvs _ _ _ _].
  destruct (Z.eq_dec (len (values s)) 0) as [H0|H0].
  { rewrite !getIndexOf_empty by assumption. cbn [fst].
    eexists. eexists. split; [reflexivity|]. split; [reflexivity|]. cbn [index]. lia. }
  pose proof (len_nonneg (values s)).
  destruct (getIndexOf_cases s P1 HI Hsum ltac:(lia)) as (i1 & r1 & Hr1 & Hi1 & Hn1 & Hc1 & Hb1).
  destruct (getIndexOf_cases s P2 HI Hsum ltac:(lia)) as (i2 & r2 & Hr2 & Hi2 & Hn2 & Hc2 & Hb2).
  rewrite Hr1, Hr2. eexists. eexists. split; [reflexivity|]. split; [reflexivity|].
  cbn [index].
  destruct (Z.lt_ge_cases (Qfloor P1) 0) as [Hneg|Hpos]; [lia|].
  destruct (Z.lt_ge_cases (Qfloor P2) (sumZ (values s))) as [Hin|Hout]; [|lia].
  specialize (Hc1 ltac:(lia)). specialize (Hc2 ltac:(lia)).
  destruct (Z.le_gt_cases i1 i2) as [Hle|Hgt]; [assumption|].
  pose proof (sum_through_mono (values s) i2 (i1 - 1) Hvs ltac:(lia)). lia.
Qed.

(** An instance: the values 5, 2, 3, 5 at the positions 6 and 13/2. *)
Lemma locate_monotone_witness :
  exists (r1 r2 : PrefixSumIndexOfResult),
    fst (getIndexOf (6 # 1) four_values) = Returned (Some r1)
    /\ fst (getIndexOf (13 # 2) four_values) = Returned (Some r2)
    /\ index r1 <= index r2.
Proof.
  apply locate_monotone.
  - apply Inv_check_sound. reflexivity.
  - reflexivity.
  - vm_compute. discriminate.
Defined.

(** ** Edits that undo each other *)

(** X11: removing what was inserted. After an insertion of values at a
    position of the sequence or at its end, removing as many values at the
    same position gives the old values back; the mark is not above
    the old one and not above the position minus one: the cells of the
    cache from the position on are not trusted any more. *)
Theorem insert_then_remove (s : PrefixSumComputer) (insertIndex : Z) (ws : list Z) :
  ws <> [] -> len ws <= MAX_UINT_32 ->
  toUint32 insertIndex <= len (values s) ->
  exists s1 s2,
    insertValues insertIndex ws s = (Returned true, s1)
    /\ removeValues insertIndex (len ws) s1 = (Returned true, s2)
    /\ values s2 = values s
    /\ length (prefixSum s2) = length (values s)
    /\ prefixSumValidIndex s2 <= prefixSumValidIndex s
    /\ prefixSumValidIndex s2 <= toUint32 insertIndex - 1.
Proof.
  intros Hws Hk Ha. set (a := toUint32 insertIndex) in *.
  pose proof (toUint32_range insertIndex) as [Ha0 _]. fold a in Ha0.
  destruct (insertValues_mutates s insertIndex ws Hws Ha) as (p1 & Hrun1 & Hl1 & _).
  fold a in Hrun1.
  set (s1 := mkPSC (take (Z.to_nat a) (values s) ++ ws ++ drop (Z.to_nat a) (values s))
                   p1 (lowered a (prefixSumValidIndex s))) in *.
  assert (0 < len ws) as Hk0.
  { unfold len. destruct ws; [congruence|simpl; lia]. }
  assert (toUint32 (len ws) = len ws) as Hcnt.
  { apply toUint32_id. unfold is_uint32, MAX_UINT_32 in *. lia. }
  assert (len (values s1) = len (values s) + len ws) as Hlen1.
  { unfold s1, len in *. cbn [values].
    rewrite !length_app, length_take, length_drop. lia. }
  assert (Z.min (len ws) (len (values s1) - a) = len ws) as Hmin by lia.
  pose proof (removeValues_mutates s1 insertIndex (len ws)) as Hrm.
  cbv zeta in Hrm. fold a in Hrm. rewrite Hcnt, Hmin in Hrm.
  destruct Hrm as (p2 & Hrun2 & Hl2 & _); [lia|lia|].
  exists s1. eexists. split; [exact Hrun1|]. split; [exact Hrun2|].
  cbn [values prefixSum prefixSumValidIndex].
  pose proof (lowered_le a (prefixSumValidIndex s) Ha0) as [Hw1 Hw2].
  pose proof (lowered_le a (lowered a (prefixSumValidIndex s)) Ha0) as [Hw3 Hw4].
  split_and!; [| |unfold s1; cbn [prefixSumValidIndex]; lia..].
  - unfold s1. cbn [values].
    rewrite take_app_length' by (rewrite length_take; unfold len in *; lia).
    replace (Z.to_nat (a + len ws)) with (Z.to_nat a + length ws)%nat
      by (unfold len; lia).
    rewrite drop_app_add' by (rewrite length_take; unfold len in *; lia).
    rewrite drop_app_length. apply take_drop.
  - rewrite Hl2. unfold len in *. lia.
Qed.

(** An instance: two values, 2 and 3 inserted in the middle and removed. *)
Lemma insert_then_remove_witness :
  exists s1 s2,
    insertValues 1 [2; 3] two_fives = (Returned true, s1)
    /\ removeValues 1 (len [2; 3]) s1 = (Returned true, s2)
    /\ values s2 = values two_fives
    /\ length (prefixSum s2) = length (values two_fives)
    /\ prefixSumValidIndex s2 <= prefixSumValidIndex two_fives
    /\ prefixSumValidIndex s2 <= toUint32 1 - 1.
Proof.
  apply insert_then_remove; [discriminate|vm_compute; discriminate..].
Defined.

(** X12: inserting what was removed. After a removal that returns true,
    inserting the removed run at the same position gives the old values
    back. *)
Theorem remove_then_insert (s : PrefixSumComputer) (startIndex cnt : Z) :
  let a := toUint32 startIndex in
  let c := Z.min (toUint32 cnt) (len (values s) - a) in
  let run := take (Z.to_nat c) (drop (Z.to_nat a) (values s)) in
  a < len (values s) -> 0 < toUint32 cnt ->
  exists s1 s2,
    removeValues startIndex cnt s = (Returned true, s1)
    /\ insertValues startIndex run s1 = (Returned true, s2)
    /\ values s2 = values s
    /\ length (prefixSum s2) = length (values s).
Proof.
  intros a c run Ha Hc.
  pose proof (toUint32_range startIndex) as [Ha0 _]. fold a in Ha0.
  destruct (removeValues_mutates s startIndex cnt Ha Hc) as (p1 & Hrun1 & Hl1 & _).
  fold a c in Hrun1, Hl1.
  set (s1 := mkPSC (take (Z.to_nat a) (values s) ++ drop (Z.to_nat (a + c)) (values s))
                   p1 (lowered a (prefixSumValidIndex s))) in *.
  assert (0 < c <= len (values s) - a) as Hcc by (unfold c; lia).
  assert (length run = Z.to_nat c) as Hrl.
  { unfold run. rewrite length_take, length_drop. unfold len in *. lia. }
  assert (run <> []) as Hne.
  { intros E. rewrite E in Hrl. simpl in Hrl. lia. }
  assert (len (values s1) = len (values s) - c) as Hlen1.
  { unfold s1, len in *. cbn [values].
    rewrite !length_app, length_take, length_drop. lia. }
  destruct (insertValues_mutates s1 startIndex run Hne) as (p2 & Hrun2 & Hl2 & _);
    fold a; [lia|].
  fold a in Hrun2.
  exists s1. eexists. split; [exact Hrun1|]. split; [exact Hrun2|].
  cbn [values prefixSum]. split.
  - unfold s1. cbn [values].
    rewrite take_app_length' by (rewrite length_take; unfold len in *; lia).
    rewrite drop_app_length' by (rewrite length_take; unfold len in *; lia).
    unfold run.
    replace (Z.to_nat (a + c)) with (Z.to_nat a + Z.to_nat c)%nat by lia.
    rewrite <- drop_drop, take_drop. apply take_drop.
  - rewrite Hl2, Hrl. unfold len in *. lia.
Qed.

(** An instance: the values 5, 2, 3, 5, the two in the middle removed and
    inserted again. *)
Lemma remove_then_insert_witness :
  exists s1 s2,
    removeValues 1 2 four_values = (Returned true, s1)
    /\ insertValues 1
         (take (Z.to_nat (Z.min (toUint32 2) (len (values four_values) - toUint32 1)))
               (drop (Z.to_nat (toUint32 1)) (values four_values))) s1
       = (Returned true, s2)
    /\ values s2 = values four_values
    /\ length (prefixSum s2) = length (values four_values).
Proof.
  apply (remove_then_insert four_values 1 2); vm_compute; reflexivity.
Defined.

(** ** The total across the edits *)

Lemma sumZ_take_drop (vs : list Z) (n : nat) :
  sumZ (take n vs) + sumZ (drop n vs) = sumZ vs.
Proof. now rewrite <- sumZ_app, take_drop. Qed.

Lemma sumZ_insert (vs : list Z) (n : nat) (x v : Z) :
  vs !! n = Some x -> sumZ (<[n := v]> vs) = sumZ vs - x + v.
Proof.
  intros Hx. pose proof (lookup_lt_Some _ _ _ Hx) as Hn.
  rewrite insert_take_drop by assumption.
  rewrite <- (take_drop_middle vs n x Hx) at 3.
  rewrite !sumZ_app. unfold sumZ at 2 4. simpl. fold (sumZ (drop (S n) vs)). lia.
Qed.

(** X13: the total follows the edits. On a state that satisfies the
    invariant, the total returned after an insertion is the old sum of the
    values plus the sum of the inserted ones, after a removal the old sum
    minus the sum of the removed run, after a replacement the old sum minus
    the old value plus the new one; each reduced modulo [2 ^ 32]. *)
Theorem total_follows_edits (s : PrefixSumComputer) :
  Inv s ->
  (forall (insertIndex : Z) (ws : list Z),
     Forall is_uint32 ws -> ws <> [] ->
     toUint32 insertIndex <= len (values s) ->
     len (values s) + len ws <= MAX_LENGTH ->
     exists s1, insertValues insertIndex ws s = (Returned true, s1)
       /\ fst (getTotalValue s1)
            = Returned (Some ((sumZ (values s) + sumZ ws) mod 2 ^ 32)))
  /\ (forall startIndex cnt : Z,
        toUint32 startIndex < len (values s) -> 0 < toUint32 cnt ->
        let a := toUint32 startIndex in
        let c := Z.min (toUint32 cnt) (len (values s) - a) in
        let run := take (Z.to_nat c) (drop (Z.to_nat a) (values s)) in
        exists s1, removeValues startIndex cnt s = (Returned true, s1)
          /\ fst (getTotalValue s1)
               = Returned (Some ((sumZ (values s) - sumZ run) mod 2 ^ 32)))
  /\ (forall index value x : Z,
        read (values s) (toUint32 index) = Some x -> x <> toUint32 value ->
        exists s1, changeValue index value s = (Returned true, s1)
          /\ fst (getTotalValue s1)
               = Returned (Some ((sumZ (values s) - x + toUint32 value) mod 2 ^ 32))).
Proof.
  intros HI. split_and!.
  - intros i ws Hws Hne Ha Hb.
    destruct (insertValues_Inv s i ws HI Hws Ha Hb) as (b & s1 & Hrun & HI1).
    destruct (insertValues_mutates s i ws Hne Ha) as (p' & Hm & _).
    rewrite Hm in Hrun. injection Hrun as <- <-.
    eexists. split; [exact Hm|].
    destruct (getTotalValue_Inv _ HI1) as (s2 & Ht & _). rewrite Ht.
    cbn [fst values]. unfold wrap_uint32. do 3 f_equal.
    rewrite !sumZ_app. pose proof (sumZ_take_drop (values s) (Z.to_nat (toUint32 i))).
    lia.
  - intros i n Ha Hn a c run.
    destruct (removeValues_Inv s i n HI) as (b & s1 & Hrun & HI1).
    destruct (removeValues_mutates s i n Ha Hn) as (p' & Hm & _).
    fold a c in Hm. rewrite Hm in Hrun. injection Hrun as <- <-.
    eexists. split; [exact Hm|].
    destruct (getTotalValue_Inv _ HI1) as (s2 & Ht & _). rewrite Ht.
    cbn [fst values]. unfold wrap_uint32. do 3 f_equal.
    pose proof (toUint32_range i) as [Ha0 _]. fold a in Ha0.
    assert (0 < c) as Hc by (unfold c; lia).
    rewrite sumZ_app.
    pose proof (sumZ_take_drop (values s) (Z.to_nat a)) as H1.
    pose proof (sumZ_take_drop (drop (Z.to_nat a) (values s)) (Z.to_nat c)) as H2.
    rewrite drop_drop in H2.
    replace (Z.to_nat a + Z.to_nat c)%nat with (Z.to_nat (a + c)) in H2 by lia.
    unfold run. lia.
  - intros i v x Hx Hne.
    destruct (changeValue_Inv s i v HI) as (b & s1 & Hrun & HI1).
    rewrite changeValue_mutates in Hrun by (rewrite Hx; congruence).
    injection Hrun as <- <-.
    rewrite changeValue_mutates by (rewrite Hx; congruence).
    eexists. split; [reflexivity|].
    destruct (getTotalValue_Inv _ HI1) as (s2 & Ht & _). rewrite Ht.
    cbn [fst values]. unfold wrap_uint32. do 3 f_equal.
    unfold read in Hx. unfold write.
    destruct (Z.ltb_spec (toUint32 i) 0); [discriminate|].
    rewrite (sumZ_insert _ _ x) by assumption. cbn [store_uint32].
    now rewrite wrap_uint32_id by apply toUint32_range.
Qed.

(** An instance: two fives, and 2 and 3 inserted in the middle. *)
Lemma total_follows_edits_witness :
  exists s1, insertValues 1 [2; 3] two_fives = (Returned true, s1)
    /\ fst (getTotalValue s1)
         = Returned (Some ((sumZ (values two_fives) + sumZ [2; 3]) mod 2 ^ 32)).
Proof.
  assert (Inv two_fives) as HI by (apply Inv_check_sound; reflexivity).
  destruct (total_follows_edits two_fives HI) as (H & _).
  apply H.
  - repeat constructor; unfold is_uint32; lia.
  - discriminate.
  - vm_compute. discriminate.
  - vm_compute. discriminate.
Defined.


(** * Properties of the marker service *)

(** ** [Map] *)

Module JsMapFacts.

Section Facts.

Context {K V : Type} `{EqDecision K}.

Implicit Types (k : K) (v : V) (m : JsMap.t K V).

Lemma jsmap_get_set_eq k v m : JsMap.get k (JsMap.set k v m) = Some v.
Proof.
  induction m as [|[k' v'] m IH]; simpl.
  - now rewrite decide_True.
  - destruct (decide (k = k')) as [->|Hne]; simpl.
    + now rewrite decide_True.
    + now rewrite decide_False.
Qed.

Lemma jsmap_get_set_ne k k' v m : k <> k' -> JsMap.get k' (JsMap.set k v m) = JsMap.get k' m.
Proof.
  intros Hne. induction m as [|[k0 v0] m IH]; simpl.
  - now rewrite decide_False by congruence.
  - destruct (decide (k = k0)) as [->|Hne0]; simpl.
    + now rewrite !decide_False by congruence.
    + destruct (decide (k' = k0)); [reflexivity|assumption].
Qed.

Lemma jsmap_delete_flag k m : (JsMap.delete k m).1 = JsMap.has k m.
Proof. reflexivity. Qed.

Lemma jsmap_get_delete_eq k m : JsMap.get k (JsMap.delete k m).2 = None.
Proof.
  unfold JsMap.delete. cbn [snd]. induction m as [|[k' v'] m IH]; [reflexivity|].
  rewrite filter_cons. cbn [fst]. destruct (decide (k' <> k)) as [Hne|Heq]; [|assumption].
  simpl. now rewrite decide_False by congruence.
Qed.

Lemma jsmap_get_delete_ne k k' m : k <> k' -> JsMap.get k' (JsMap.delete k m).2 = JsMap.get k' m.
Proof.
  intros Hne. unfold JsMap.delete. cbn [snd].
  induction m as [|[k0 v0] m IH]; [reflexivity|].
  rewrite filter_cons. cbn [fst]. destruct (decide (k0 <> k)) as [Hne0|Heq]; simpl.
  - now rewrite IH.
  - assert (k0 = k) as -> by (destruct (decide (k0 = k)); [assumption|contradiction]).
    now rewrite decide_False by congruence.
Qed.

Lemma jsmap_has_true_get k m : JsMap.has k m = true <-> exists v, JsMap.get k m = Some v.
Proof.
  unfold JsMap.has. destruct (JsMap.get k m); split; eauto; try easy.
  now intros [? ?].
Qed.

Lemma jsmap_has_false_get k m : JsMap.has k m = false <-> JsMap.get k m = None.
Proof. unfold JsMap.has. now destruct (JsMap.get k m). Qed.

Lemma jsmap_get_Some_key k v m : JsMap.get k m = Some v -> k ∈ JsMap.keys m.
Proof.
  unfold JsMap.keys. induction m as [|[k' v'] m IH]; simpl; [discriminate|].
  destruct (decide (k = k')) as [->|Hne]; intros Hg.
  - apply list_elem_of_here.
  - apply list_elem_of_further. auto.
Qed.

Lemma jsmap_get_None_key k m : JsMap.get k m = None <-> k ∉ JsMap.keys m.
Proof.
  unfold JsMap.keys. induction m as [|[k' v'] m IH]; simpl.
  - split; [intros _; apply not_elem_of_nil|reflexivity].
  - rewrite not_elem_of_cons. destruct (decide (k = k')) as [->|Hne].
    + split; [discriminate|now intros [? _]].
    + rewrite IH. tauto.
Qed.

(** Setting a key that has no entry yet appends one. *)
Lemma jsmap_set_new k v m : JsMap.get k m = None -> JsMap.set k v m = m ++ [(k, v)].
Proof.
  induction m as [|[k' v'] m IH]; simpl; [reflexivity|].
  destruct (decide (k = k')); [discriminate|]. intros Hg. now rewrite IH.
Qed.

Lemma jsmap_keys_set_old k v m : JsMap.has k m = true -> JsMap.keys (JsMap.set k v m) = JsMap.keys m.
Proof.
  unfold JsMap.has, JsMap.keys. induction m as [|[k' v'] m IH]; [discriminate|].
  cbn [JsMap.get JsMap.set]. destruct (decide (k = k')) as [->|Hne]; [reflexivity|].
  intros Hh. rewrite !fmap_cons. f_equal. now apply IH.
Qed.

Lemma jsmap_get_elem k v m : JsMap.get k m = Some v -> (k, v) ∈ m.
Proof.
  induction m as [|[k' v'] m IH]; simpl; [discriminate|].
  destruct (decide (k = k')) as [->|Hne].
  - intros [= ->]. apply list_elem_of_here.
  - intros Hg. apply list_elem_of_further. auto.
Qed.

Lemma jsmap_set_elem k v k0 v0 m :
  (k, v) ∈ JsMap.set k0 v0 m -> (k, v) = (k0, v0) \/ (k, v) ∈ m.
Proof.
  induction m as [|[k' v'] m IH]; simpl.
  - intros Hin. apply list_elem_of_singleton in Hin. now left.
  - destruct (decide (k0 = k')) as [->|Hne]; intros Hin;
      apply elem_of_cons in Hin as [Hin|Hin].
    + now left.
    + right. now apply list_elem_of_further.
    + right. rewrite Hin. apply list_elem_of_here.
    + destruct (IH Hin) as [?|?]; [now left|right; now apply list_elem_of_further].
Qed.

Lemma jsmap_delete_elem k v k0 m : (k, v) ∈ (JsMap.delete k0 m).2 -> (k, v) ∈ m.
Proof.
  unfold JsMap.delete. cbn [snd]. intros Hin.
  now apply list_elem_of_filter in Hin as [_ Hin].
Qed.

Lemma jsmap_values_elem v m : v ∈ JsMap.values m -> exists k, (k, v) ∈ m.
Proof.
  unfold JsMap.values. intros Hin.
  apply list_elem_of_fmap in Hin as [[k v'] [-> Hin]]. now exists k.
Qed.

End Facts.

End JsMapFacts.

(** ** [DoubleResourceMap] *)

Module DoubleResourceMapFacts.

Import JsMapFacts.

Section Facts.

Context {URI V : Type} `{EqDecision URI}.

Implicit Types (this : DoubleResourceMap.t URI V) (resource : URI) (owner : string).

Lemma dmap_get_set_eq resource owner (value : V) this :
  DoubleResourceMap.get resource owner (DoubleResourceMap.set resource owner value this)
    = Some value.
Proof.
  unfold DoubleResourceMap.get, DoubleResourceMap.set. cbn.
  now rewrite !JsMapFacts.jsmap_get_set_eq.
Qed.

Lemma dmap_get_set_ne resource owner resource' owner' (value : V) this :
  (resource', owner') <> (resource, owner) ->
  DoubleResourceMap.get resource' owner'
    (DoubleResourceMap.set resource owner value this)
  = DoubleResourceMap.get resource' owner' this.
Proof.
  intros Hne. unfold DoubleResourceMap.get, DoubleResourceMap.set. cbn.
  destruct (decide (resource = resource')) as [<-|Hr].
  - rewrite JsMapFacts.jsmap_get_set_eq.
    rewrite JsMapFacts.jsmap_get_set_ne by congruence.
    now destruct (JsMap.get resource (DoubleResourceMap._byResource this)).
  - now rewrite JsMapFacts.jsmap_get_set_ne.
Qed.

Lemma dmap_get_by_owner_set_eq resource owner (value : V) this :
  DoubleResourceMap.get_by_owner resource owner
    (DoubleResourceMap.set resource owner value this) = Some value.
Proof.
  unfold DoubleResourceMap.get_by_owner, DoubleResourceMap.set. cbn.
  now rewrite !JsMapFacts.jsmap_get_set_eq.
Qed.

Lemma dmap_get_by_owner_set_ne resource owner resource' owner' (value : V) this :
  (resource', owner') <> (resource, owner) ->
  DoubleResourceMap.get_by_owner resource' owner'
    (DoubleResourceMap.set resource owner value this)
  = DoubleResourceMap.get_by_owner resource' owner' this.
Proof.
  intros Hne. unfold DoubleResourceMap.get_by_owner, DoubleResourceMap.set. cbn.
  destruct (decide (owner = owner')) as [<-|Ho].
  - rewrite JsMapFacts.jsmap_get_set_eq.
    rewrite JsMapFacts.jsmap_get_set_ne by congruence.
    now destruct (JsMap.get owner (DoubleResourceMap._byOwner this)).
  - now rewrite JsMapFacts.jsmap_get_set_ne.
Qed.

Lemma dmap_consistent_empty : DoubleResourceMap.consistent (@DoubleResourceMap.empty URI V).
Proof. intros resource owner. reflexivity. Qed.

Lemma dmap_consistent_set resource owner (value : V) this :
  DoubleResourceMap.consistent this ->
  DoubleResourceMap.consistent (DoubleResourceMap.set resource owner value this).
Proof.
  intros Hc resource' owner'.
  destruct (decide ((resource', owner') = (resource, owner))) as [E|Hne].
  - injection E as -> ->. now rewrite dmap_get_set_eq, dmap_get_by_owner_set_eq.
  - rewrite dmap_get_set_ne, dmap_get_by_owner_set_ne by assumption. apply Hc.
Qed.

(** What [delete] does to each of the two maps. *)
Lemma dmap_delete_run resource owner this :
  exists this',
    DoubleResourceMap.delete resource owner this
      = (if negb (eqb (bool_decide (is_Some (DoubleResourceMap.get resource owner this)))
                      (bool_decide (is_Some (DoubleResourceMap.get_by_owner resource owner this))))
         then DoubleResourceMap.IllegalState
         else DoubleResourceMap.Done
                (bool_decide (is_Some (DoubleResourceMap.get resource owner this))
                 && bool_decide (is_Some (DoubleResourceMap.get_by_owner resource owner this))),
         this')
    /\ (forall resource' owner',
          DoubleResourceMap.get resource' owner' this'
          = if decide ((resource', owner') = (resource, owner)) then None
            else DoubleResourceMap.get resource' owner' this)
    /\ (forall resource' owner',
          DoubleResourceMap.get_by_owner resource' owner' this'
          = if decide ((resource', owner') = (resource, owner)) then None
            else DoubleResourceMap.get_by_owner resource' owner' this).
Proof.
  unfold DoubleResourceMap.delete, DoubleResourceMap.get, DoubleResourceMap.get_by_owner.
  destruct this as [byR byO]. cbn [DoubleResourceMap._byResource DoubleResourceMap._byOwner].
  set (A := match JsMap.get resource byR with
            | Some ownerMap =>
                let '(removed, ownerMap') := JsMap.delete owner ownerMap in
                (removed, JsMap.set resource ownerMap' byR)
            | None => (false, byR)
            end).
  set (B := match JsMap.get owner byO with
            | Some resourceMap =>
                let '(removed, resourceMap') := JsMap.delete resource resourceMap in
                (removed, JsMap.set owner resourceMap' byO)
            | None => (false, byO)
            end).
  assert (A.1 = bool_decide (is_Some (match JsMap.get resource byR with
                                      | Some ownerMap => JsMap.get owner ownerMap
                                      | None => None
                                      end))
          /\ forall resource' owner',
               match JsMap.get resource' A.2 with
               | Some ownerMap => JsMap.get owner' ownerMap
               | None => None
               end
               = if decide ((resource', owner') = (resource, owner)) then None
                 else match JsMap.get resource' byR with
                      | Some ownerMap => JsMap.get owner' ownerMap
                      | None => None
                      end) as [HA1 HA2].
  { unfold A. destruct (JsMap.get resource byR) as [om|] eqn:Eom.
    - cbn [JsMap.delete fst snd]. split.
      + unfold JsMap.has. destruct (JsMap.get owner om); [|reflexivity].
        symmetry. apply bool_decide_eq_true. eauto.
      + intros r' o'. destruct (decide (resource = r')) as [<-|Hr].
        * rewrite JsMapFacts.jsmap_get_set_eq, Eom.
          destruct (decide (owner = o')) as [<-|Ho].
          -- rewrite decide_True by reflexivity.
             apply (JsMapFacts.jsmap_get_delete_eq owner om).
          -- rewrite decide_False by congruence.
             now apply (JsMapFacts.jsmap_get_delete_ne owner o' om).
        * rewrite JsMapFacts.jsmap_get_set_ne by assumption.
          now rewrite decide_False by congruence.
    - cbn [fst snd]. split; [reflexivity|].
      intros r' o'. destruct (decide ((r', o') = (resource, owner))) as [E|Hne];
        [|reflexivity].
      injection E as -> ->. now rewrite Eom. }
  assert (B.1 = bool_decide (is_Some (match JsMap.get owner byO with
                                      | Some resourceMap => JsMap.get resource resourceMap
                                      | None => None
                                      end))
          /\ forall resource' owner',
               match JsMap.get owner' B.2 with
               | Some resourceMap => JsMap.get resource' resourceMap
               | None => None
               end
               = if decide ((resource', owner') = (resource, owner)) then None
                 else match JsMap.get owner' byO with
                      | Some resourceMap => JsMap.get resource' resourceMap
                      | None => None
                      end) as [HB1 HB2].
  { unfold B. destruct (JsMap.get owner byO) as [rm|] eqn:Erm.
    - cbn [JsMap.delete fst snd]. split.
      + unfold JsMap.has. destruct (JsMap.get resource rm); [|reflexivity].
        symmetry. apply bool_decide_eq_true. eauto.
      + intros r' o'. destruct (decide (owner = o')) as [<-|Ho].
        * rewrite JsMapFacts.jsmap_get_set_eq, Erm.
          destruct (decide (resource = r')) as [<-|Hr].
          -- rewrite decide_True by reflexivity.
             apply (JsMapFacts.jsmap_get_delete_eq resource rm).
          -- rewrite decide_False by congruence.
             now apply (JsMapFacts.jsmap_get_delete_ne resource r' rm).
        * rewrite JsMapFacts.jsmap_get_set_ne by assumption.
          now rewrite decide_False by congruence.
    - cbn [fst snd]. split; [reflexivity|].
      intros r' o'. destruct (decide ((r', o') = (resource, owner))) as [E|Hne];
        [|reflexivity].
      injection E as -> ->. now rewrite Erm. }
  destruct A as [removedA byR'], B as [removedB byO']. cbn [fst snd] in *.
  subst removedA removedB.
  exists (DoubleResourceMap.mk byR' byO'). split; [|split; assumption].
  now destruct (negb _).
Qed.

(** [delete] on a map whose two indexes agree. *)
Lemma dmap_delete_consistent resource owner this :
  DoubleResourceMap.consistent this ->
  exists this',
    DoubleResourceMap.delete resource owner this
      = (DoubleResourceMap.Done
           (bool_decide (is_Some (DoubleResourceMap.get resource owner this))), this')
    /\ DoubleResourceMap.consistent this'
    /\ (forall resource' owner',
          DoubleResourceMap.get resource' owner' this'
          = if decide ((resource', owner') = (resource, owner)) then None
            else DoubleResourceMap.get resource' owner' this).
Proof.
  intros Hc. destruct (dmap_delete_run resource owner this) as (this' & Hrun & Hg & Hb).
  exists this'. rewrite Hrun, <- (Hc resource owner). split_and!.
  - now destruct (bool_decide _).
  - intros resource' owner'. rewrite Hg, Hb. destruct (decide _); [reflexivity|apply Hc].
  - exact Hg.
Qed.

Lemma dmap_built_consistent this :
  DoubleResourceMap.built this -> DoubleResourceMap.consistent this.
Proof.
  induction 1 as [|resource owner value this _ IH|resource owner this this' removed _ IH Hrun].
  - apply dmap_consistent_empty.
  - now apply dmap_consistent_set.
  - destruct (dmap_delete_consistent resource owner this IH) as (this'' & Hrun' & Hc & _).
    rewrite Hrun in Hrun'. now injection Hrun' as _ ->.
Qed.

Lemma dmap_holds_empty (P : URI -> string -> V -> Prop) :
  DoubleResourceMap.holds P DoubleResourceMap.empty.
Proof. split; intros ? ? ? ? Hin; now apply not_elem_of_nil in Hin. Qed.

Lemma dmap_holds_set (P : URI -> string -> V -> Prop) resource owner (value : V) this :
  P resource owner value ->
  DoubleResourceMap.holds P this ->
  DoubleResourceMap.holds P (DoubleResourceMap.set resource owner value this).
Proof.
  intros Hv [HR HO]. unfold DoubleResourceMap.set. split;
    cbn [DoubleResourceMap._byResource DoubleResourceMap._byOwner].
  - intros resource' ownerMap owner' value' Hin Hin'.
    apply JsMapFacts.jsmap_set_elem in Hin as [[= -> ->]|Hin]; [|eauto].
    apply JsMapFacts.jsmap_set_elem in Hin' as [[= -> ->]|Hin']; [assumption|].
    destruct (JsMap.get resource (DoubleResourceMap._byResource this)) as [ownerMap|] eqn:Hg.
    + apply JsMapFacts.jsmap_get_elem in Hg. eauto.
    + now apply not_elem_of_nil in Hin'.
  - intros owner' resourceMap resource' value' Hin Hin'.
    apply JsMapFacts.jsmap_set_elem in Hin as [[= -> ->]|Hin]; [|eauto].
    apply JsMapFacts.jsmap_set_elem in Hin' as [[= -> ->]|Hin']; [assumption|].
    destruct (JsMap.get owner (DoubleResourceMap._byOwner this)) as [resourceMap|] eqn:Hg.
    + apply JsMapFacts.jsmap_get_elem in Hg. eauto.
    + now apply not_elem_of_nil in Hin'.
Qed.

Lemma dmap_holds_delete (P : URI -> string -> V -> Prop) resource owner this :
  DoubleResourceMap.holds P this ->
  DoubleResourceMap.holds P (DoubleResourceMap.delete resource owner this).2.
Proof.
  intros [HR HO]. unfold DoubleResourceMap.delete.
  destruct (JsMap.get resource (DoubleResourceMap._byResource this)) as [ownerMap|] eqn:HgR;
    destruct (JsMap.get owner (DoubleResourceMap._byOwner this)) as [resourceMap|] eqn:HgO;
    cbn [JsMap.delete];
    match goal with |- context [negb ?b] => destruct (negb b) end;
    cbn [snd]; split;
    cbn [DoubleResourceMap._byResource DoubleResourceMap._byOwner];
    intros k1 inner k2 value Hin Hin'; eauto;
    apply JsMapFacts.jsmap_set_elem in Hin as [[= -> ->]|Hin]; eauto;
    apply list_elem_of_filter in Hin' as [_ Hin'];
    try apply JsMapFacts.jsmap_get_elem in HgR;
    try apply JsMapFacts.jsmap_get_elem in HgO; eauto.
Qed.

Lemma dmap_holds_get (P : URI -> string -> V -> Prop) resource owner (value : V) this :
  DoubleResourceMap.holds P this ->
  DoubleResourceMap.get resource owner this = Some value ->
  P resource owner value.
Proof.
  intros [HR _]. unfold DoubleResourceMap.get.
  destruct (JsMap.get resource (DoubleResourceMap._byResource this)) as [ownerMap|] eqn:Hg;
    [|discriminate].
  intros Hg'. apply JsMapFacts.jsmap_get_elem in Hg, Hg'. eauto.
Qed.

Lemma dmap_holds_values (P : URI -> string -> V -> Prop) (k : DoubleResourceMap.key URI)
    (value : V) this :
  DoubleResourceMap.holds P this ->
  value ∈ DoubleResourceMap.values k this ->
  exists resource owner,
    P resource owner value
    /\ (forall resource', k = DoubleResourceMap.Resource resource' -> resource = resource')
    /\ (forall owner', k = DoubleResourceMap.Owner owner' -> owner = owner').
Proof.
  intros [HR HO] Hin. destruct k as [resource|owner|]; cbn [DoubleResourceMap.values] in Hin.
  - destruct (JsMap.get resource (DoubleResourceMap._byResource this)) as [ownerMap|] eqn:Hg;
      [|now apply not_elem_of_nil in Hin].
    apply JsMapFacts.jsmap_get_elem in Hg.
    apply JsMapFacts.jsmap_values_elem in Hin as [owner Hin].
    exists resource, owner. split_and!; [eauto|congruence|discriminate].
  - destruct (JsMap.get owner (DoubleResourceMap._byOwner this)) as [resourceMap|] eqn:Hg;
      [|now apply not_elem_of_nil in Hin].
    apply JsMapFacts.jsmap_get_elem in Hg.
    apply JsMapFacts.jsmap_values_elem in Hin as [resource Hin].
    exists resource, owner. split_and!; [eauto|discriminate|congruence].
  - apply list_elem_of_In, in_concat in Hin as (values & Hvalues & Hin).
    apply list_elem_of_In in Hvalues, Hin.
    apply list_elem_of_fmap in Hvalues as (resourceMap & -> & Hmaps).
    apply JsMapFacts.jsmap_values_elem in Hmaps as [owner Hmaps].
    apply JsMapFacts.jsmap_values_elem in Hin as [resource Hin].
    exists resource, owner. split_and!; [eauto|discriminate|discriminate].
Qed.

(** X14: after [set(resource, owner, value)] each of the two indexes of a
    [DoubleResourceMap] holds [value] for the pair [(resource, owner)], and
    for every other pair what it held before: [get] reads back what was set,
    and a map whose indexes agreed still has them agree. *)
Theorem set_then_get resource owner (value : V) this resource' owner' :
  DoubleResourceMap.get resource' owner'
    (DoubleResourceMap.set resource owner value this)
  = (if decide ((resource', owner') = (resource, owner)) then Some value
     else DoubleResourceMap.get resource' owner' this)
  /\ DoubleResourceMap.get_by_owner resource' owner'
       (DoubleResourceMap.set resource owner value this)
     = (if decide ((resource', owner') = (resource, owner)) then Some value
        else DoubleResourceMap.get_by_owner resource' owner' this).
Proof.
  destruct (decide ((resource', owner') = (resource, owner))) as [E|Hne].
  - injection E as -> ->. split.
    + apply dmap_get_set_eq.
    + apply dmap_get_by_owner_set_eq.
  - split.
    + now apply dmap_get_set_ne.
    + now apply dmap_get_by_owner_set_ne.
Qed.

(** X15: on a [DoubleResourceMap] built from the empty one by [set] and
    [delete], [delete(resource, owner)] never throws 'illegal state': it
    returns whether the pair had a value, afterwards the pair has none and
    every other pair has the value it had, and the two indexes agree again. *)
Theorem delete_never_illegal resource owner this :
  DoubleResourceMap.built this ->
  exists this',
    DoubleResourceMap.delete resource owner this
      = (DoubleResourceMap.Done
           (bool_decide (is_Some (DoubleResourceMap.get resource owner this))), this')
    /\ DoubleResourceMap.built this'
    /\ DoubleResourceMap.consistent this'
    /\ (forall resource' owner',
          DoubleResourceMap.get resource' owner' this'
          = if decide ((resource', owner') = (resource, owner)) then None
            else DoubleResourceMap.get resource' owner' this).
Proof.
  intros Hb. pose proof (dmap_built_consistent this Hb) as Hc.
  destruct (dmap_delete_consistent resource owner this Hc) as (this' & Hrun & Hc' & Hg).
  exists this'. split_and!; try assumption.
  eapply DoubleResourceMap.built_delete; eassumption.
Qed.

End Facts.

(** Two values set for one resource, one of them deleted. *)
Lemma delete_never_illegal_witness :
  DoubleResourceMap.built two_owners
  /\ exists this',
       DoubleResourceMap.delete "file:///a"%string "ts"%string two_owners
         = (DoubleResourceMap.Done true, this')
       /\ DoubleResourceMap.get "file:///a"%string "ts"%string this' = None
       /\ DoubleResourceMap.get "file:///a"%string "lint"%string this' = Some 2.
Proof.
  assert (DoubleResourceMap.built two_owners) as Hb
    by (unfold two_owners; do 2 apply DoubleResourceMap.built_set;
        apply DoubleResourceMap.built_empty).
  split; [exact Hb|].
  destruct (delete_never_illegal "file:///a"%string "ts"%string two_owners Hb)
    as (this' & Hrun & _ & _ & Hg).
  exists this'. split_and!.
  - exact Hrun.
  - now rewrite Hg.
  - now rewrite Hg.
Defined.

End DoubleResourceMapFacts.
(** ** [MarkerService] *)

Module MarkerServiceFacts.

Section Facts.

Context {URI Any : Type} `{EqDecision URI}.

Local Abbreviation IMarker := (IMarker.t URI Any).
Local Abbreviation IMarkerData := (IMarkerData.t Any).

Implicit Types (data : list IMarker) (result : list IMarker)
  (severities : option Z) (take : Z).

Lemma len_app {A : Type} (l k : list A) : len (l ++ k) = len l + len k.
Proof. unfold len. rewrite length_app. lia. Qed.

Lemma accepted_app severities data data' :
  MarkerService.accepted severities (data ++ data')
  = MarkerService.accepted severities data ++ MarkerService.accepted severities data'.
Proof. apply List.filter_app. Qed.

(** The inner loop of [read]: [result] grows by the accepted markers, up to
    [take] markers in all. *)
Lemma collect_spec data severities take result :
  (0 < take -> len result < take) ->
  MarkerService.collect data severities take result
  = if (0 <? take) && (take <=? len result + len (MarkerService.accepted severities data))
    then (result ++ firstn (Z.to_nat (take - len result))
                      (MarkerService.accepted severities data), true)
    else (result ++ MarkerService.accepted severities data, false).
Proof.
  revert result. induction data as [|marker rest IH]; intros result Hlt.
  - cbn. rewrite app_nil_r, firstn_nil, app_nil_r.
    destruct (0 <? take) eqn:E0; cbn [andb]; [|reflexivity].
    apply Z.ltb_lt in E0. specialize (Hlt E0).
    now rewrite (proj2 (Z.leb_gt _ _)) by (unfold len in *; cbn [length]; lia).
  - cbn [MarkerService.collect MarkerService.accepted List.filter].
    fold (MarkerService.accepted severities rest).
    destruct (MarkerService._accept marker severities) eqn:Ea.
    + pose proof (len_nonneg result) as Hr.
      pose proof (len_nonneg (MarkerService.accepted severities rest)) as Ha.
      assert (len (marker :: MarkerService.accepted severities rest)
              = 1 + len (MarkerService.accepted severities rest)) as Hl
        by (unfold len; cbn [length]; lia).
      rewrite Hl.
      assert (len (result ++ [marker]) = len result + 1) as Hl'
        by (rewrite len_app; reflexivity).
      destruct (0 <? take) eqn:E0; cbn [andb].
      * apply Z.ltb_lt in E0. specialize (Hlt E0).
        destruct (len (result ++ [marker]) =? take) eqn:E1.
        -- apply Z.eqb_eq in E1.
           rewrite (proj2 (Z.leb_le _ _)) by lia.
           replace (Z.to_nat (take - len result)) with 1%nat by lia.
           reflexivity.
        -- apply Z.eqb_neq in E1.
           rewrite IH by lia. cbn [andb]. rewrite Hl'.
           replace (len result + 1 + len (MarkerService.accepted severities rest))
             with (len result + (1 + len (MarkerService.accepted severities rest))) by lia.
           replace (Z.to_nat (take - len result))
             with (S (Z.to_nat (take - (len result + 1)))) by lia.
           cbn [firstn]. rewrite <- !app_assoc. reflexivity.
      * rewrite IH by (apply Z.ltb_ge in E0; lia). cbn [andb].
        rewrite <- app_assoc. reflexivity.
    + apply IH, Hlt.
Qed.

(** The two nested loops of [read]. *)
Lemma collect_all_spec (iterable : list (list IMarker)) severities take result :
  (0 < take -> len result < take) ->
  MarkerService.collect_all iterable severities take result
  = result ++
    if 0 <? take
    then firstn (Z.to_nat (take - len result))
           (MarkerService.accepted severities (concat iterable))
    else MarkerService.accepted severities (concat iterable).
Proof.
  revert result. induction iterable as [|markers rest IH]; intros result Hlt.
  - cbn. rewrite firstn_nil. destruct (0 <? take); now rewrite app_nil_r.
  - cbn [MarkerService.collect_all concat]. rewrite collect_spec by assumption.
    rewrite accepted_app.
    pose proof (len_nonneg result) as Hr.
    pose proof (len_nonneg (MarkerService.accepted severities markers)) as Ha.
    destruct (0 <? take) eqn:E0; cbn [andb].
    + apply Z.ltb_lt in E0. specialize (Hlt E0).
      destruct (take <=? len result + len (MarkerService.accepted severities markers)) eqn:E1.
      * apply Z.leb_le in E1. rewrite firstn_app.
        assert ((Z.to_nat (take - len result)
                 - length (MarkerService.accepted severities markers))%nat = 0%nat)
          as -> by (unfold len in *; lia).
        cbn [firstn]. now rewrite app_nil_r.
      * apply Z.leb_gt in E1. rewrite IH by (rewrite len_app; lia).
        rewrite len_app, firstn_app, <- app_assoc. f_equal.
        rewrite (firstn_all2 (MarkerService.accepted severities markers))
          by (unfold len in *; lia).
        f_equal. f_equal.
        unfold len in *. lia.
    + rewrite IH by (apply Z.ltb_ge in E0; lia).
      now rewrite <- app_assoc.
Qed.

Lemma accepted_all data : MarkerService.accepted None data = data.
Proof.
  unfold MarkerService.accepted.
  induction data as [|marker rest IH]; [reflexivity|].
  cbn [List.filter MarkerService._accept]. now f_equal.
Qed.

Lemma accepted_Forall severities data :
  Forall (fun marker => MarkerService._accept marker severities = true)
    (MarkerService.accepted severities data).
Proof.
  apply List.Forall_forall. intros marker Hin.
  apply List.filter_In in Hin. apply Hin.
Qed.

(** The loops of [read] started with no result: the accepted markers, cut
    after [take] of them when [take] is positive. *)
Lemma collect_all_from_empty (iterable : list (list IMarker)) severities take :
  MarkerService.collect_all iterable severities take []
  = MarkerService.limit take (MarkerService.accepted severities (concat iterable)).
Proof.
  rewrite collect_all_spec by (unfold len; cbn [length]; lia).
  cbn [app]. unfold MarkerService.limit, len. cbn [length].
  now replace (take - Z.of_nat 0) with take by lia.
Qed.

Lemma collect_from_empty data severities take :
  (MarkerService.collect data severities take []).1
  = MarkerService.limit take (MarkerService.accepted severities data).
Proof.
  rewrite collect_spec by (unfold len; cbn [length]; lia).
  cbn [app]. unfold MarkerService.limit. unfold len at 1 3. cbn [length].
  replace (take - Z.of_nat 0) with take by lia.
  destruct (0 <? take) eqn:E0; cbn [andb]; [|reflexivity].
  destruct (take <=? _) eqn:E1; cbn [fst]; [reflexivity|].
  apply Z.leb_gt in E1. rewrite firstn_all2; [reflexivity|].
  unfold len in E1. lia.
Qed.

Lemma limit_nil take : MarkerService.limit (URI:=URI) (Any:=Any) take [] = [].
Proof. unfold MarkerService.limit. rewrite firstn_nil. now destruct (0 <? take). Qed.

Lemma reachable_built (this : MarkerService.t URI Any) :
  MarkerService.reachable this -> DoubleResourceMap.built (MarkerService._data this).
Proof.
  induction 1 as [|owner resource markerData this this' _ IH Hrun].
  - apply DoubleResourceMap.built_empty.
  - unfold MarkerService.changeOne in Hrun. destruct markerData as [|data markerData].
    + destruct (DoubleResourceMap.delete resource owner (MarkerService._data this))
        as [[removed|] map'] eqn:Hdel; [|discriminate].
      injection Hrun as <-. cbn [MarkerService._data].
      eapply DoubleResourceMap.built_delete; eassumption.
    + injection Hrun as <-. cbn [MarkerService._data].
      now apply DoubleResourceMap.built_set.
Qed.

(** [changeOne] with no marker data, on a service whose map was built. *)
Lemma changeOne_empty_run owner resource (this : MarkerService.t URI Any) :
  DoubleResourceMap.built (MarkerService._data this) ->
  exists map',
    MarkerService.changeOne owner resource [] this
      = (DoubleResourceMap.Done tt,
         MarkerService.mk map'
           (if bool_decide (is_Some (DoubleResourceMap.get resource owner
                                       (MarkerService._data this)))
            then MarkerService.fired this ++ [[resource]]
            else MarkerService.fired this))
    /\ DoubleResourceMap.built map'
    /\ (forall resource' owner',
          DoubleResourceMap.get resource' owner' map'
          = if decide ((resource', owner') = (resource, owner)) then None
            else DoubleResourceMap.get resource' owner' (MarkerService._data this)).
Proof.
  intros Hb.
  destruct (DoubleResourceMapFacts.dmap_delete_consistent resource owner
              (MarkerService._data this)
              (DoubleResourceMapFacts.dmap_built_consistent _ Hb))
    as (map' & Hrun & _ & Hg).
  exists map'. unfold MarkerService.changeOne. rewrite Hrun. split_and!.
  - reflexivity.
  - eapply DoubleResourceMap.built_delete; eassumption.
  - exact Hg.
Qed.

Lemma filter_ext_in {A : Type} (P Q : A -> Prop) `{forall x, Decision (P x)}
    `{forall x, Decision (Q x)} (l : list A) :
  (forall x, x ∈ l -> P x <-> Q x) -> filter P l = filter Q l.
Proof.
  induction l as [|x l IH]; intros Hext; [reflexivity|].
  rewrite !filter_cons.
  assert (filter P l = filter Q l) as ->
    by (apply IH; intros y Hy; apply Hext; now apply list_elem_of_further).
  pose proof (Hext x (list_elem_of_here x l)) as Hx.
  destruct (decide (P x)), (decide (Q x)); tauto.
Qed.

(** The loop of [remove]. *)
Lemma remove_run owner (resources : list URI) (this : MarkerService.t URI Any) :
  DoubleResourceMap.built (MarkerService._data this) ->
  NoDup resources ->
  exists this',
    MarkerService.remove owner resources this = (DoubleResourceMap.Done tt, this')
    /\ DoubleResourceMap.built (MarkerService._data this')
    /\ (forall resource' owner',
          DoubleResourceMap.get resource' owner' (MarkerService._data this')
          = if decide (owner' = owner /\ resource' ∈ resources) then None
            else DoubleResourceMap.get resource' owner' (MarkerService._data this))
    /\ MarkerService.fired this'
       = MarkerService.fired this
         ++ ((fun resource => [resource])
               <$> filter (fun resource =>
                             is_Some (DoubleResourceMap.get resource owner
                                        (MarkerService._data this)))
                     resources).
Proof.
  revert this. induction resources as [|resource rest IH]; intros this Hb Hnd.
  - exists this. cbn. split_and!; try easy.
    + intros resource' owner'. rewrite decide_False; [reflexivity|].
      intros [_ Hin]. now apply not_elem_of_nil in Hin.
    + now rewrite app_nil_r.
  - apply NoDup_cons in Hnd as [Hnotin Hnd].
    destruct (changeOne_empty_run owner resource this Hb) as (map' & Hrun & Hb' & Hg).
    cbn [MarkerService.remove]. rewrite Hrun.
    set (this1 := MarkerService.mk map' _) in *.
    destruct (IH this1 Hb' Hnd) as (this' & Hrem & Hb'' & Hg' & Hf).
    exists this'. split_and!; try assumption.
    + intros resource' owner'. rewrite Hg'. cbn [MarkerService._data this1]. rewrite Hg.
      destruct (decide (owner' = owner /\ resource' ∈ rest)) as [[-> Hin]|Hn1].
      * rewrite decide_True; [reflexivity|]. split; [reflexivity|].
        now apply list_elem_of_further.
      * destruct (decide ((resource', owner') = (resource, owner))) as [E|Hn2].
        -- injection E as -> ->. rewrite decide_True; [reflexivity|].
           split; [reflexivity|apply list_elem_of_here].
        -- rewrite decide_False; [reflexivity|].
           intros [-> Hin]. apply elem_of_cons in Hin as [->|Hin]; tauto.
    + rewrite Hf. cbn [MarkerService._data MarkerService.fired this1].
      rewrite filter_cons.
      assert (filter (fun resource0 => is_Some (DoubleResourceMap.get resource0 owner map')) rest
              = filter (fun resource0 =>
                          is_Some (DoubleResourceMap.get resource0 owner
                                     (MarkerService._data this))) rest) as ->.
      { apply filter_ext_in. intros resource' Hin. rewrite Hg.
        rewrite decide_False; [reflexivity|]. intros E. injection E as ->. tauto. }
      destruct (decide (is_Some (DoubleResourceMap.get resource owner
                                   (MarkerService._data this)))) as [Hs|Hs].
      * rewrite bool_decide_eq_true_2 by assumption.
        rewrite fmap_cons, <- app_assoc. reflexivity.
      * rewrite bool_decide_eq_false_2 by assumption. reflexivity.
Qed.

Lemma jsmap_has_keys {V : Type} (k : URI) (m : JsMap.t URI V) :
  JsMap.has k m = true <-> k ∈ JsMap.keys m.
Proof.
  destruct (JsMap.has k m) eqn:Eh.
  - split; [intros _|reflexivity].
    apply JsMapFacts.jsmap_has_true_get in Eh as [v Hv].
    eapply JsMapFacts.jsmap_get_Some_key, Hv.
  - split; [discriminate|]. intros Hin.
    apply JsMapFacts.jsmap_has_false_get, JsMapFacts.jsmap_get_None_key in Eh. tauto.
Qed.

Lemma filter_filter_comm {A : Type} (P R : A -> Prop) `{forall x, Decision (P x)}
    `{forall x, Decision (R x)} (l : list A) :
  filter P (filter R l) = filter R (filter P l).
Proof.
  induction l as [|x l IH]; [reflexivity|].
  rewrite !(filter_cons _ x l).
  destruct (decide (R x)), (decide (P x)); rewrite ?filter_cons;
    rewrite ?decide_True by assumption; rewrite ?decide_False by assumption;
    now rewrite IH.
Qed.

Lemma filter_id {A : Type} (P : A -> Prop) `{forall x, Decision (P x)} (l : list A) :
  (forall x, x ∈ l -> P x) -> filter P l = l.
Proof.
  induction l as [|x l IH]; intros HP; [reflexivity|].
  rewrite filter_cons, decide_True by apply HP, list_elem_of_here.
  f_equal. apply IH. intros y Hy. now apply HP, list_elem_of_further.
Qed.

(** [first_occurrences] of a part of a list chosen by a test is that part of
    its [first_occurrences]. *)
Lemma first_occurrences_filter (P : URI -> Prop) `{forall x, Decision (P x)}
    (uris : list URI) :
  MarkerService.first_occurrences (filter P uris)
  = filter P (MarkerService.first_occurrences uris).
Proof.
  induction uris as [|uri rest IH]; [reflexivity|].
  rewrite filter_cons. cbn [MarkerService.first_occurrences].
  destruct (decide (P uri)) as [HP|HP].
  - cbn [MarkerService.first_occurrences]. rewrite filter_cons, decide_True by assumption.
    rewrite IH. f_equal. apply filter_filter_comm.
  - rewrite filter_cons, decide_False by assumption. rewrite IH.
    rewrite filter_filter_comm. symmetry. apply filter_id.
    intros uri' Hin. apply list_elem_of_filter in Hin as [HP' _]. congruence.
Qed.

(** The loop of [_debouncer], from a list and a map that holds its elements
    as keys. *)
Lemma debounce_fold (event last : list URI) (_dedupeMap : JsMap.t URI unit) :
  JsMap.keys _dedupeMap = last ->
  NoDup last ->
  exists (added : list URI) (_dedupeMap' : JsMap.t URI unit),
    fold_left
      (fun '(last, _dedupeMap) uri =>
         if JsMap.has uri _dedupeMap then (last, _dedupeMap)
         else (last ++ [uri], JsMap.set uri tt _dedupeMap))
      event (last, _dedupeMap)
    = (last ++ added, _dedupeMap')
    /\ JsMap.keys _dedupeMap' = last ++ added
    /\ NoDup (last ++ added)
    /\ sublist added event
    /\ (forall uri, uri ∈ added <-> uri ∈ event /\ uri ∉ last)
    /\ added
       = MarkerService.first_occurrences (filter (fun uri => uri ∉ last) event).
Proof.
  revert last _dedupeMap.
  induction event as [|uri event IH]; intros last _dedupeMap Hk Hnd.
  - exists [], _dedupeMap. cbn [fold_left]. rewrite app_nil_r. split_and!; easy.
  - cbn [fold_left]. destruct (JsMap.has uri _dedupeMap) eqn:Eh.
    + apply jsmap_has_keys in Eh. rewrite Hk in Eh.
      destruct (IH last _dedupeMap Hk Hnd)
        as (added & m' & Hrun & Hk' & Hnd' & Hsub & Hin & Hfirst).
      exists added, m'. split_and!; try assumption.
      * now apply sublist_cons.
      * intros uri'. rewrite Hin, elem_of_cons. split; [tauto|].
        intros [[->|H1] H2]; tauto.
      * rewrite filter_cons, decide_False by tauto. exact Hfirst.
    + assert (uri ∉ last) as Hnotin.
      { rewrite <- Hk. intros Hin. apply jsmap_has_keys in Hin. congruence. }
      assert (JsMap.keys (JsMap.set uri tt _dedupeMap) = last ++ [uri]) as Hk1.
      { rewrite JsMapFacts.jsmap_set_new by now apply JsMapFacts.jsmap_has_false_get.
        unfold JsMap.keys in *. now rewrite fmap_app, Hk. }
      assert (NoDup (last ++ [uri])) as Hnd1.
      { apply NoDup_app. split_and!; [assumption| |apply NoDup_singleton].
        intros x Hx Hx'. apply list_elem_of_singleton in Hx'. now subst. }
      destruct (IH (last ++ [uri]) (JsMap.set uri tt _dedupeMap) Hk1 Hnd1)
        as (added & m' & Hrun & Hk' & Hnd' & Hsub & Hin & Hfirst).
      exists (uri :: added), m'. rewrite <- app_assoc in Hrun, Hk', Hnd'.
      split_and!; try assumption.
      * now apply sublist_skip.
      * intros uri'. rewrite !elem_of_cons, Hin, not_elem_of_app, list_elem_of_singleton.
        destruct (decide (uri' = uri)) as [->|Hne]; tauto.
      * rewrite filter_cons, decide_True by assumption.
        cbn [MarkerService.first_occurrences]. f_equal. rewrite Hfirst.
        rewrite <- first_occurrences_filter. f_equal.
        rewrite list_filter_filter. apply filter_ext_in.
        intros uri' _. rewrite not_elem_of_app, list_elem_of_singleton. tauto.
Qed.

Lemma remove_reachable owner (resources : list URI) (this this' : MarkerService.t URI Any) :
  MarkerService.reachable this ->
  MarkerService.remove owner resources this = (DoubleResourceMap.Done tt, this') ->
  MarkerService.reachable this'.
Proof.
  revert this. induction resources as [|resource rest IH]; intros this Hr Hrun.
  - cbn in Hrun. now injection Hrun as <-.
  - cbn [MarkerService.remove] in Hrun.
    destruct (MarkerService.changeOne owner resource [] this) as [[[]|] this1] eqn:Hone;
      [|discriminate].
    apply (IH this1); [|assumption].
    eapply MarkerService.reachable_changeOne; eassumption.
Qed.

Lemma limit_take_or_all (t : Z) (markers : list IMarker) :
  MarkerService.limit (MarkerService.take_or_all (Some t)) markers
  = MarkerService.limit t (MarkerService.limit (MarkerService.take_or_all None) markers).
Proof.
  unfold MarkerService.limit, MarkerService.take_or_all. cbn [Z.ltb Z.compare].
  destruct (t =? 0) eqn:E0; [apply Z.eqb_eq in E0; now subst|].
  destruct (t <? 0) eqn:E1; cbn [orb Z.ltb Z.compare].
  - apply Z.ltb_lt in E1. now rewrite (proj2 (Z.ltb_ge 0 t)) by lia.
  - reflexivity.
Qed.

Lemma limit_length (t : Z) (markers : list IMarker) :
  0 < t -> len (MarkerService.limit t markers) <= t.
Proof.
  intros Ht. unfold MarkerService.limit. rewrite (proj2 (Z.ltb_lt 0 t)) by assumption.
  unfold len. rewrite length_take. lia.
Qed.

Lemma limit_Forall (P : IMarker -> Prop) (t : Z) (markers : list IMarker) :
  Forall P markers -> Forall P (MarkerService.limit t markers).
Proof.
  intros HP. unfold MarkerService.limit. destruct (0 <? t); [|assumption].
  now apply Forall_take.
Qed.

Lemma toMarker_sanitized (owner : string) (resource : URI) (data : IMarkerData)
    (marker : IMarker) :
  MarkerService._toMarker owner resource data = Some marker ->
  MarkerService.sanitized resource owner marker.
Proof.
  unfold MarkerService._toMarker, MarkerService.truthy, MarkerService.sanitized.
  destruct (String.eqb_spec (IMarkerData.message data) "") as [Hm|Hm]; cbn [negb];
    [discriminate|].
  intros [= <-].
  cbn [IMarker.resource IMarker.owner IMarker.message IMarker.startLineNumber
       IMarker.startColumn IMarker.endLineNumber IMarker.endColumn].
  split_and!; try reflexivity; try assumption;
    repeat match goal with
           | |- context [?a <? ?b] => destruct (Z.ltb_spec a b)
           | |- context [?a <=? ?b] => destruct (Z.leb_spec a b)
           end; lia.
Qed.

Lemma omap_sanitized (owner : string) (resource : URI) (markerData : list IMarkerData) :
  Forall (MarkerService.sanitized resource owner)
    (omap (MarkerService._toMarker owner resource) markerData).
Proof.
  induction markerData as [|d l IH]; [constructor|].
  cbn [omap list_omap].
  destruct (MarkerService._toMarker owner resource d) as [marker|] eqn:Hm; [|assumption].
  constructor; [now apply toMarker_sanitized in Hm|assumption].
Qed.

Lemma reachable_sanitized (this : MarkerService.t URI Any) :
  MarkerService.reachable this ->
  DoubleResourceMap.holds
    (fun resource owner data => Forall (MarkerService.sanitized resource owner) data)
    (MarkerService._data this).
Proof.
  induction 1 as [|owner resource markerData this this' _ IH Hrun].
  - apply DoubleResourceMapFacts.dmap_holds_empty.
  - unfold MarkerService.changeOne in Hrun. destruct markerData as [|data markerData].
    + pose proof (DoubleResourceMapFacts.dmap_holds_delete _ resource owner _ IH) as Hd.
      destruct (DoubleResourceMap.delete resource owner (MarkerService._data this))
        as [[removed|] map'] eqn:Hdel; [|discriminate].
      injection Hrun as <-. exact Hd.
    + injection Hrun as <-. cbn [MarkerService._data].
      apply DoubleResourceMapFacts.dmap_holds_set; [|assumption].
      apply (omap_sanitized owner resource (data :: markerData)).
Qed.

Lemma accepted_Forall_both (Q : IMarker -> Prop) severities data :
  Forall Q data ->
  Forall (fun marker => Q marker /\ MarkerService._accept marker severities = true)
    (MarkerService.accepted severities data).
Proof.
  intros HQ. apply List.Forall_forall. intros marker Hin.
  apply List.filter_In in Hin as [Hin Ha]. split; [|assumption].
  rewrite List.Forall_forall in HQ. auto.
Qed.

(** X16: [_toMarker] returns no marker exactly when the message is empty.
    The marker it returns otherwise carries the owner, the resource and the
    fields of the data other than the positions, and its positions are
    sanitized: the start line is at least 1, the end line is not before the
    start line, and both columns are at least 1. Positions that satisfy this
    already are kept as they are. *)
Theorem toMarker_sanitizes (owner : string) (resource : URI) (data : IMarkerData) :
  match MarkerService._toMarker owner resource data with
  | None => IMarkerData.message data = ""%string
  | Some marker =>
      IMarkerData.message data <> ""%string
      /\ IMarker.resource marker = resource
      /\ IMarker.owner marker = owner
      /\ IMarker.code marker = IMarkerData.code data
      /\ IMarker.severity marker = IMarkerData.severity data
      /\ IMarker.message marker = IMarkerData.message data
      /\ IMarker.source marker = IMarkerData.source data
      /\ IMarker.relatedInformation marker = IMarkerData.relatedInformation data
      /\ IMarker.tags marker = IMarkerData.tags data
      /\ 1 <= IMarker.startLineNumber marker <= IMarker.endLineNumber marker
      /\ 1 <= IMarker.startColumn marker
      /\ 1 <= IMarker.endColumn marker
      /\ (1 <= IMarkerData.startLineNumber data <= IMarkerData.endLineNumber data ->
          1 <= IMarkerData.startColumn data ->
          1 <= IMarkerData.endColumn data ->
          IMarker.startLineNumber marker = IMarkerData.startLineNumber data
          /\ IMarker.startColumn marker = IMarkerData.startColumn data
          /\ IMarker.endLineNumber marker = IMarkerData.endLineNumber data
          /\ IMarker.endColumn marker = IMarkerData.endColumn data)
  end.
Proof.
  unfold MarkerService._toMarker, MarkerService.truthy.
  destruct (String.eqb_spec (IMarkerData.message data) "") as [Hm|Hm]; cbn [negb].
  - assumption.
  - cbn [IMarker.resource IMarker.owner IMarker.code IMarker.severity IMarker.message
         IMarker.source IMarker.relatedInformation IMarker.tags IMarker.startLineNumber
         IMarker.startColumn IMarker.endLineNumber IMarker.endColumn].
    split_and!; try reflexivity; try assumption;
      repeat match goal with
             | |- context [?a <? ?b] => destruct (Z.ltb_spec a b)
             | |- context [?a <=? ?b] => destruct (Z.leb_spec a b)
             end; lia.
Qed.

(** X17: with [severities] given, [_accept] is a test of bit masks: a marker
    is accepted exactly when every bit of its severity is a bit of
    [severities] (both being 32-bit integers, as the severities of
    [MarkerSeverity] are). *)
Theorem accept_is_bit_subset (marker : IMarker) (severities : Z) :
  is_int32 severities ->
  is_int32 (IMarker.severity marker) ->
  MarkerService._accept marker (Some severities) = true
  <-> forall n, 0 <= n ->
        Z.testbit (IMarker.severity marker) n = true -> Z.testbit severities n = true.
Proof.
  intros Hs Hm. unfold MarkerService._accept.
  rewrite !wrap_int32_id by assumption. rewrite Z.eqb_eq. split.
  - intros Hland n Hn Hbit. rewrite <- Hland, Z.land_spec in Hbit.
    now apply andb_true_iff in Hbit as [? _].
  - intros Hsub. apply Z.bits_inj'. intros n Hn. rewrite Z.land_spec.
    destruct (Z.testbit (IMarker.severity marker) n) eqn:Hbit.
    + now rewrite (Hsub n Hn Hbit).
    + apply andb_false_r.
Qed.

(** X18: [read] returns the markers that [_accept] lets through, in the
    order in which they are stored, cut after [take] of them when [take] is
    positive ([take] absent, zero or negative: all of them). They are taken
    from the list of the pair when a non-empty owner and a resource are
    given, from all lists when neither is, and otherwise from the lists of
    the resource if one is given, else of the owner. *)
Theorem read_selects (f : MarkerService.filter URI) (this : MarkerService.t URI Any) :
  MarkerService.read f this
  = MarkerService.limit (MarkerService.take_or_all (MarkerService.take f))
      (MarkerService.accepted (MarkerService.severities f)
         (concat
            match MarkerService.truthy (MarkerService.owner f), MarkerService.resource f with
            | true, Some resource =>
                match DoubleResourceMap.get resource
                        (default ""%string (MarkerService.owner f))
                        (MarkerService._data this) with
                | Some data => [data]
                | None => []
                end
            | false, None =>
                DoubleResourceMap.values DoubleResourceMap.NoKey (MarkerService._data this)
            | _, Some resource =>
                DoubleResourceMap.values (DoubleResourceMap.Resource resource)
                  (MarkerService._data this)
            | _, None =>
                DoubleResourceMap.values
                  (DoubleResourceMap.Owner (default ""%string (MarkerService.owner f)))
                  (MarkerService._data this)
            end)).
Proof.
  unfold MarkerService.read.
  destruct (MarkerService.truthy (MarkerService.owner f)),
    (MarkerService.resource f) as [resource|]; try apply collect_all_from_empty.
  destruct (DoubleResourceMap.get resource _ _) as [data|].
  - rewrite collect_from_empty. cbn [concat]. now rewrite app_nil_r.
  - cbn [concat]. symmetry. apply limit_nil.
Qed.

(** X19: what [read] returns with [take] given is what it returns for the
    same owner, resource and severities without [take], cut after [take]
    markers when [take] is positive; so it has at most [take] markers then,
    and [_accept] holds of each of them. *)
Theorem read_take_prefix (owner : option string) (resource : option URI) severities (t : Z) (this : MarkerService.t URI Any) :
  MarkerService.read (MarkerService.mkFilter owner resource severities (Some t)) this
  = MarkerService.limit t
      (MarkerService.read (MarkerService.mkFilter owner resource severities None) this)
  /\ (0 < t ->
      len (MarkerService.read
             (MarkerService.mkFilter owner resource severities (Some t)) this) <= t)
  /\ Forall (fun marker => MarkerService._accept marker severities = true)
       (MarkerService.read
          (MarkerService.mkFilter owner resource severities (Some t)) this).
Proof.
  assert (exists markers : list IMarker,
            forall tk : option Z,
              MarkerService.read
                (MarkerService.mkFilter owner resource severities tk) this
              = MarkerService.limit (MarkerService.take_or_all tk)
                  (MarkerService.accepted severities markers)) as [markers Hread].
  { unfold MarkerService.read.
    cbn [MarkerService.owner MarkerService.resource MarkerService.severities
         MarkerService.take].
    destruct (MarkerService.truthy owner), resource as [resource|];
      try (eexists; intros tk; apply collect_all_from_empty).
    destruct (DoubleResourceMap.get resource _ _) as [data|].
    - exists data. intros tk. apply collect_from_empty.
    - exists []. intros tk. symmetry. apply limit_nil. }
  rewrite !Hread. split_and!.
  - apply limit_take_or_all.
  - intros Ht. rewrite limit_take_or_all. now apply limit_length.
  - apply limit_Forall, accepted_Forall.
Qed.

(** X20: [changeOne] with marker data that is not empty, for an owner that
    is not the empty string, never throws; it stores for the pair the
    markers that [_toMarker] makes of the data (an empty list when every
    message is empty), leaves the markers of every other pair as they are
    and fires one event for the resource; [read] for the owner and the
    resource then returns these markers. *)
Theorem change_then_read (owner : string) (resource : URI) (markerData : list IMarkerData)
    (this : MarkerService.t URI Any) :
  markerData <> [] ->
  owner <> ""%string ->
  exists this',
    MarkerService.changeOne owner resource markerData this
      = (DoubleResourceMap.Done tt, this')
    /\ DoubleResourceMap.get resource owner (MarkerService._data this')
       = Some (omap (MarkerService._toMarker owner resource) markerData)
    /\ MarkerService.read
         (MarkerService.mkFilter (Some owner) (Some resource) None None) this'
       = omap (MarkerService._toMarker owner resource) markerData
    /\ (forall resource' owner',
          (resource', owner') <> (resource, owner) ->
          DoubleResourceMap.get resource' owner' (MarkerService._data this')
          = DoubleResourceMap.get resource' owner' (MarkerService._data this))
    /\ MarkerService.fired this' = MarkerService.fired this ++ [[resource]].
Proof.
  intros Hdata Howner.
  destruct markerData as [|data rest]; [congruence|].
  eexists. split; [reflexivity|]. cbn [MarkerService._data MarkerService.fired].
  split_and!.
  - apply DoubleResourceMapFacts.dmap_get_set_eq.
  - unfold MarkerService.read.
    cbn [MarkerService.owner MarkerService.resource MarkerService.severities
         MarkerService.take MarkerService.truthy default MarkerService._data].
    destruct (String.eqb_spec owner "") as [E|_]; [congruence|]. cbn [negb].
    rewrite DoubleResourceMapFacts.dmap_get_set_eq, collect_from_empty.
    now rewrite accepted_all.
  - intros resource' owner' Hne. now apply DoubleResourceMapFacts.dmap_get_set_ne.
  - reflexivity.
Qed.

(** X21: on a service made by calls of [changeOne] and [remove],
    [remove(owner, resources)] never throws 'illegal state'. Afterwards the
    owner has no markers for the resources listed, every other pair has the
    markers it had, and one event was fired, in the order of the list, for
    each resource listed (once) for which the owner had a list of markers. *)
Theorem remove_clears (owner : string) (resources : list URI) (this : MarkerService.t URI Any) :
  MarkerService.reachable this ->
  NoDup resources ->
  exists this',
    MarkerService.remove owner resources this = (DoubleResourceMap.Done tt, this')
    /\ MarkerService.reachable this'
    /\ (forall resource' owner',
          DoubleResourceMap.get resource' owner' (MarkerService._data this')
          = if decide (owner' = owner /\ resource' ∈ resources) then None
            else DoubleResourceMap.get resource' owner' (MarkerService._data this))
    /\ MarkerService.fired this'
       = MarkerService.fired this
         ++ ((fun resource => [resource])
               <$> filter (fun resource =>
                             is_Some (DoubleResourceMap.get resource owner
                                        (MarkerService._data this)))
                     resources).
Proof.
  intros Hr Hnd.
  destruct (remove_run owner resources this (reachable_built this Hr) Hnd)
    as (this' & Hrun & _ & Hg & Hf).
  exists this'. split_and!; try assumption.
  eapply remove_reachable; eassumption.
Qed.

(** X22: [_debouncer] merges events without repeating a resource. Started
    with no list, or with a list that has no repetition and whose elements
    are the keys of [_dedupeMap], it returns that list followed by the
    resources of the event that were not in it, each once and in the order
    of their first occurrence in the event ([first_occurrences]); the
    result has no repetition and its elements are the keys of [_dedupeMap]
    again. *)
Theorem debouncer_dedupes (last : option (list URI)) (event : list URI)
    (_dedupeMap : JsMap.t URI unit) :
  (forall l, last = Some l -> JsMap.keys _dedupeMap = l /\ NoDup l) ->
  exists (added : list URI) (_dedupeMap' : JsMap.t URI unit),
    MarkerService._debouncer last event _dedupeMap
      = (default [] last ++ added, _dedupeMap')
    /\ JsMap.keys _dedupeMap' = default [] last ++ added
    /\ NoDup (default [] last ++ added)
    /\ sublist added event
    /\ (forall uri, uri ∈ added <-> uri ∈ event /\ uri ∉ default [] last)
    /\ added
       = MarkerService.first_occurrences
           (filter (fun uri => uri ∉ default [] last) event).
Proof.
  intros Hlast. unfold MarkerService._debouncer. destruct last as [l|]; cbn [default].
  - destruct (Hlast l eq_refl) as [Hk Hnd]. now apply debounce_fold.
  - apply debounce_fold; [reflexivity|apply NoDup_nil_2].
Qed.

(** X26: every marker that [read] returns from a service made by calls of
    [changeOne] and [remove] is one that [_toMarker] made: it has a message
    and sanitized positions; it is a marker of the resource of the filter
    when there is one, and of its owner when there is one that is not the
    empty string; and [_accept] holds of it. *)
Theorem read_returns_sanitized (f : MarkerService.filter URI)
    (this : MarkerService.t URI Any) :
  MarkerService.reachable this ->
  Forall
    (fun marker =>
       IMarker.message marker <> ""%string
       /\ 1 <= IMarker.startLineNumber marker <= IMarker.endLineNumber marker
       /\ 1 <= IMarker.startColumn marker
       /\ 1 <= IMarker.endColumn marker
       /\ (forall resource,
             MarkerService.resource f = Some resource ->
             IMarker.resource marker = resource)
       /\ (forall owner,
             MarkerService.owner f = Some owner -> owner <> ""%string ->
             IMarker.owner marker = owner)
       /\ MarkerService._accept marker (MarkerService.severities f) = true)
    (MarkerService.read f this).
Proof.
  intros Hr. apply reachable_sanitized in Hr.
  set (Q := fun marker : IMarker =>
              exists resource owner,
                MarkerService.sanitized resource owner marker
                /\ (forall resource',
                      MarkerService.resource f = Some resource' -> resource = resource')
                /\ (forall owner',
                      MarkerService.owner f = Some owner' -> owner' <> ""%string ->
                      owner = owner')).
  assert (forall k,
            (forall resource owner, 
                (forall resource', k = DoubleResourceMap.Resource resource' ->
                                   resource = resource') ->
                (forall owner', k = DoubleResourceMap.Owner owner' -> owner = owner') ->
                (forall resource', MarkerService.resource f = Some resource' ->
                                   resource = resource')
                /\ (forall owner', MarkerService.owner f = Some owner' ->
                                   owner' <> ""%string -> owner = owner')) ->
            Forall (fun marker => Q marker
                      /\ MarkerService._accept marker (MarkerService.severities f) = true)
              (MarkerService.collect_all
                 (DoubleResourceMap.values k (MarkerService._data this))
                 (MarkerService.severities f)
                 (MarkerService.take_or_all (MarkerService.take f)) [])) as Hmany.
  { intros k Hk. rewrite collect_all_from_empty.
    apply limit_Forall, accepted_Forall_both, List.Forall_concat.
    apply List.Forall_forall. intros data Hin. apply list_elem_of_In in Hin.
    destruct (DoubleResourceMapFacts.dmap_holds_values _ k data _ Hr Hin)
      as (resource & owner & Hs & HR & HO).
    eapply Forall_impl; [exact Hs|]. intros marker Hm.
    exists resource, owner. split; [assumption|]. now apply Hk. }
  assert (Forall (fun marker => Q marker
                    /\ MarkerService._accept marker (MarkerService.severities f) = true)
            (MarkerService.read f this)) as Hall.
  { unfold MarkerService.read, MarkerService.truthy.
    destruct (MarkerService.owner f) as [owner|] eqn:Eo;
      [destruct (String.eqb_spec owner "") as [->|Hne]|];
      destruct (MarkerService.resource f) as [resource|] eqn:Er;
      cbn [negb default]; try (apply Hmany; intros resource0 owner0 HR HO; split;
                               intros x E; first [discriminate|congruence|idtac]).
    - apply HR. congruence.
    - unfold id.
      destruct (DoubleResourceMap.get resource owner (MarkerService._data this))
        as [data|] eqn:Hg; [|constructor].
      rewrite collect_from_empty. apply limit_Forall, accepted_Forall_both.
      pose proof (DoubleResourceMapFacts.dmap_holds_get _ _ _ _ _ Hr Hg) as Hs.
      eapply Forall_impl; [exact Hs|]. intros marker Hm.
      exists resource, owner. split_and!; [assumption| |]; congruence.
    - intros _. apply HO. unfold id. congruence.
    - apply HR. congruence. }
  eapply Forall_impl; [exact Hall|]. intros marker [(resource & owner & Hs & HR & HO) Ha].
  destruct Hs as (H1 & H2 & H3 & [H4 H4'] & H5 & H6). split_and!; try assumption.
  - intros resource' E. rewrite H1. now apply HR.
  - intros owner' E Hne. rewrite H2. now apply HO.
Qed.

End Facts.

(** A warning against the mask of warnings and errors. *)
Lemma accept_is_bit_subset_witness :
  is_int32 12 /\ is_int32 (IMarker.severity warning_marker)
  /\ (MarkerService._accept warning_marker (Some 12) = true
      <-> forall n, 0 <= n ->
            Z.testbit (IMarker.severity warning_marker) n = true ->
            Z.testbit 12 n = true).
Proof.
  assert (is_int32 12) as Hs by (unfold is_int32; lia).
  assert (is_int32 (IMarker.severity warning_marker)) as Hm
    by (unfold is_int32; cbn; lia).
  split_and!; [exact Hs|exact Hm|].
  exact (accept_is_bit_subset warning_marker 12 Hs Hm).
Defined.

(** Two markers set on a new service and read back: the positions of the
    second one are sanitized. *)
Lemma change_then_read_witness :
  two_markers <> [] /\ "ts"%string <> ""%string
  /\ exists this',
       MarkerService.changeOne "ts" "file:///a"%string two_markers MarkerService.new
         = (DoubleResourceMap.Done tt, this')
       /\ MarkerService.read
            (MarkerService.mkFilter (Some "ts"%string) (Some "file:///a"%string) None None)
            this'
          = [IMarker.mk "file:///a"%string "ts"%string tt 8 "type error"%string tt 3 5 3 9 tt tt;
             IMarker.mk "file:///a"%string "ts"%string tt 4 "unused"%string tt 1 1 1 1 tt tt]
       /\ MarkerService.fired this' = [["file:///a"%string]].
Proof.
  assert (two_markers <> []) as Hd by discriminate.
  assert ("ts"%string <> ""%string) as Ho by discriminate.
  split_and!; [exact Hd|exact Ho|].
  destruct (change_then_read "ts"%string "file:///a"%string two_markers
              (MarkerService.new (URI:=string) (Any:=unit)) Hd Ho)
    as (this' & Hrun & _ & Hread & _ & Hfired).
  exists this'. split_and!.
  - exact Hrun.
  - exact Hread.
  - exact Hfired.
Defined.

(** The markers of two resources removed, one of which has none. *)
Lemma remove_clears_witness :
  MarkerService.reachable one_file
  /\ NoDup ["file:///a"%string; "file:///b"%string]
  /\ exists this',
       MarkerService.remove "ts" ["file:///a"%string; "file:///b"%string] one_file
         = (DoubleResourceMap.Done tt, this')
       /\ DoubleResourceMap.get "file:///a"%string "ts"%string (MarkerService._data this')
          = None
       /\ MarkerService.fired this' = [["file:///a"%string]; ["file:///a"%string]].
Proof.
  assert (MarkerService.reachable one_file) as Hr.
  { eapply (MarkerService.reachable_changeOne "ts"%string "file:///a"%string two_markers);
      [apply MarkerService.reachable_new|reflexivity]. }
  assert (NoDup ["file:///a"%string; "file:///b"%string]) as Hnd.
  { apply NoDup_cons_2; [|apply NoDup_singleton].
    intros Hin. apply list_elem_of_singleton in Hin. discriminate. }
  split_and!; [exact Hr|exact Hnd|].
  destruct (remove_clears "ts"%string ["file:///a"%string; "file:///b"%string] one_file Hr Hnd)
    as (this' & Hrun & _ & Hg & Hf).
  exists this'. split_and!.
  - exact Hrun.
  - now rewrite Hg.
  - rewrite Hf. reflexivity.
Defined.

(** An event merged into a list of one resource. *)
Lemma debouncer_dedupes_witness :
  (forall l, Some ["a"%string] = Some l ->
     JsMap.keys [("a"%string, tt)] = l /\ NoDup l)
  /\ exists (_dedupeMap' : JsMap.t string unit),
       MarkerService._debouncer (Some ["a"%string])
         ["b"%string; "a"%string; "b"%string; "c"%string] [("a"%string, tt)]
       = (["a"%string; "b"%string; "c"%string], _dedupeMap')
       /\ JsMap.keys _dedupeMap' = ["a"%string; "b"%string; "c"%string].
Proof.
  assert (forall l, Some ["a"%string] = Some l ->
            JsMap.keys [("a"%string, tt)] = l /\ NoDup l) as Hlast.
  { intros l [= <-]. split; [reflexivity|apply NoDup_singleton]. }
  split; [exact Hlast|].
  destruct (debouncer_dedupes (Some ["a"%string])
              ["b"%string; "a"%string; "b"%string; "c"%string] [("a"%string, tt)] Hlast)
    as (added & m' & Hrun & Hk & _).
  assert (added = ["b"%string; "c"%string]) as ->
    by (vm_compute in Hrun; now injection Hrun as <- _).
  exists m'. split; [exact Hrun|exact Hk].
Defined.

(** The first marker of a resource, read from a service that has two. *)
Lemma read_returns_sanitized_witness :
  MarkerService.reachable one_file
  /\ Forall
       (fun marker : IMarker.t string unit =>
          IMarker.message marker <> ""%string
          /\ 1 <= IMarker.startLineNumber marker <= IMarker.endLineNumber marker
          /\ 1 <= IMarker.startColumn marker
          /\ 1 <= IMarker.endColumn marker
          /\ (forall resource,
                Some "file:///a"%string = Some resource ->
                IMarker.resource marker = resource)
          /\ (forall owner,
                None = Some owner -> owner <> ""%string -> IMarker.owner marker = owner)
          /\ MarkerService._accept marker None = true)
       (MarkerService.read
          (MarkerService.mkFilter None (Some "file:///a"%string) None (Some 1)) one_file).
Proof.
  assert (MarkerService.reachable one_file) as Hr.
  { eapply (MarkerService.reachable_changeOne "ts"%string "file:///a"%string two_markers);
      [apply MarkerService.reachable_new|reflexivity]. }
  split; [exact Hr|].
  exact (read_returns_sanitized
           (MarkerService.mkFilter None (Some "file:///a"%string) None (Some 1))
           one_file Hr).
Defined.

End MarkerServiceFacts.

(** ** [MarkerStats] *)

Module MarkerStatsFacts.

Section Facts.

Context {URI Any : Type} `{EqDecision URI}.

Variable scheme : URI -> string.
Variables inMemory walkThrough walkThroughSnippet : string.
Variables Error Warning Info : Z.

Local Abbreviation _resourceStats :=
  (MarkerStats._resourceStats (Any:=Any) scheme inMemory walkThrough walkThroughSnippet
     Error Warning Info).
Local Abbreviation _update :=
  (MarkerStats._update (Any:=Any) scheme inMemory walkThrough walkThroughSnippet
     Error Warning Info).
Local Abbreviation update_one :=
  (MarkerStats.update_one (Any:=Any) scheme inMemory walkThrough walkThroughSnippet
     Error Warning Info).
Local Abbreviation count := (MarkerStats.count (URI:=URI) (Any:=Any) Error Warning Info).

Ltac stats :=
  repeat match goal with
         | s : MarkerStatistics.t |- _ => destruct s
         end;
  unfold MarkerStatistics.plus, MarkerStatistics.minus, MarkerStatistics.zero,
    MarkerStatistics.total in *;
  cbn [MarkerStatistics.errors MarkerStatistics.warnings MarkerStatistics.infos
       MarkerStatistics.unknowns] in *.

Lemma summed_set (resource : URI) (newStats : MarkerStatistics.t)
    (data : JsMap.t URI MarkerStatistics.t) :
  MarkerStats.summed (JsMap.set resource newStats data)
  = MarkerStatistics.plus
      (MarkerStatistics.minus (MarkerStats.summed data)
         (default MarkerStatistics.zero (JsMap.get resource data)))
      newStats.
Proof.
  unfold MarkerStats.summed, JsMap.values.
  induction data as [|[resource' oldStats] data IH].
  - cbn. stats. f_equal; lia.
  - cbn [JsMap.set JsMap.get]. destruct (decide (resource = resource')) as [->|Hne].
    + rewrite !fmap_cons. cbn [snd fold_right default]. clear IH.
      generalize (fold_right MarkerStatistics.plus MarkerStatistics.zero data.*2).
      intros rest. unfold id. stats. f_equal; lia.
    + rewrite !fmap_cons. cbn [snd fold_right]. rewrite IH. clear IH.
      generalize (fold_right MarkerStatistics.plus MarkerStatistics.zero data.*2),
        (default MarkerStatistics.zero (JsMap.get resource data)).
      intros rest old. stats. f_equal; lia.
Qed.

Lemma update_one_totals service (this : MarkerStats.t URI) (resource : URI) :
  MarkerStats.totals this = MarkerStats.summed (MarkerStats._data this) ->
  MarkerStats.totals (update_one service this resource)
  = MarkerStats.summed (MarkerStats._data (update_one service this resource)).
Proof.
  intros Hinv. unfold MarkerStats.update_one.
  set (newStats := MarkerStats._resourceStats _ _ _ _ _ _ _ _ _).
  cbn [MarkerStats._data]. destruct this as [e i w u data].
  unfold MarkerStats.totals in *. cbn [MarkerStats._data] in *.
  destruct (JsMap.get resource data) as [oldStats|] eqn:Hget;
    cbn [MarkerStats._add MarkerStats._substract MarkerStats.errors MarkerStats.infos
         MarkerStats.warnings MarkerStats.unknowns MarkerStats._data] in *;
    rewrite summed_set, Hget, <- Hinv; cbn [default]; stats; f_equal; lia.
Qed.

Lemma update_one_data service (this : MarkerStats.t URI) (resource resource' : URI) :
  JsMap.get resource' (MarkerStats._data (update_one service this resource))
  = if decide (resource' = resource) then Some (_resourceStats service resource)
    else JsMap.get resource' (MarkerStats._data this).
Proof.
  unfold MarkerStats.update_one. cbn [MarkerStats._data].
  assert (forall op, MarkerStats._data (MarkerStats._add op
            match JsMap.get resource (MarkerStats._data this) with
            | Some oldStats => MarkerStats._substract oldStats this
            | None => this
            end) = MarkerStats._data this) as ->
    by (intros op; now destruct (JsMap.get resource (MarkerStats._data this))).
  destruct (decide (resource' = resource)) as [->|Hne].
  - apply JsMapFacts.jsmap_get_set_eq.
  - apply JsMapFacts.jsmap_get_set_ne. congruence.
Qed.

Lemma count_one (marker : IMarker.t URI Any) (result : MarkerStatistics.t) :
  MarkerStatistics.total (count result marker) = MarkerStatistics.total result + 1
  /\ MarkerStatistics.errors (count result marker)
     = MarkerStatistics.errors result
       + (if decide (IMarker.severity marker = Error) then 1 else 0)
  /\ MarkerStatistics.warnings result <= MarkerStatistics.warnings (count result marker)
  /\ MarkerStatistics.infos result <= MarkerStatistics.infos (count result marker)
  /\ MarkerStatistics.unknowns result <= MarkerStatistics.unknowns (count result marker).
Proof.
  unfold MarkerStats.count. destruct result as [e w i u]. cbv zeta iota beta.
  destruct (Z.eqb_spec (IMarker.severity marker) Error) as [He|He].
  - rewrite decide_True by assumption. stats. lia.
  - rewrite decide_False by assumption.
    destruct (IMarker.severity marker =? Warning), (IMarker.severity marker =? Info);
      stats; lia.
Qed.

Lemma count_fold (markers : list (IMarker.t URI Any)) (result : MarkerStatistics.t) :
  MarkerStatistics.total (fold_left count markers result)
    = MarkerStatistics.total result + len markers
  /\ MarkerStatistics.errors (fold_left count markers result)
     = MarkerStatistics.errors result
       + len (filter (fun marker => IMarker.severity marker = Error) markers)
  /\ MarkerStatistics.warnings result
     <= MarkerStatistics.warnings (fold_left count markers result)
  /\ MarkerStatistics.infos result <= MarkerStatistics.infos (fold_left count markers result)
  /\ MarkerStatistics.unknowns result
     <= MarkerStatistics.unknowns (fold_left count markers result).
Proof.
  revert result. induction markers as [|marker rest IH]; intros result.
  - cbn. unfold len. cbn. lia.
  - cbn [fold_left]. destruct (IH (count result marker)) as (H1 & H2 & H3 & H4 & H5).
    destruct (count_one marker result) as (C1 & C2 & C3 & C4 & C5).
    rewrite H1, H2, C1, C2, filter_cons.
    assert (forall A (x : A) (l : list A), len (x :: l) = 1 + len l) as Hcons
      by (intros A x l; unfold len; cbn [length]; lia).
    destruct (decide (IMarker.severity marker = Error)); rewrite ?Hcons;
      split_and!; lia.
Qed.

(** X23: the four counters of [MarkerStats] are the sums of the statistics
    it keeps for the resources: [_update] keeps this so, whatever the
    resources and the state of the service. *)
Theorem totals_follow_updates (resources : list URI) (service : MarkerService.t URI Any)
    (this : MarkerStats.t URI) :
  MarkerStats.totals this = MarkerStats.summed (MarkerStats._data this) ->
  MarkerStats.totals (_update resources service this)
  = MarkerStats.summed (MarkerStats._data (_update resources service this)).
Proof.
  unfold MarkerStats._update. revert this.
  induction resources as [|resource rest IH]; intros this Hinv; [exact Hinv|].
  cbn [fold_left]. apply IH. now apply update_one_totals.
Qed.

(** X24: after [_update(resources)] the statistics kept for each of the
    resources are those that [_resourceStats] computes of the service, and
    the statistics kept for every other resource are as before. *)
Theorem update_records (resources : list URI) (service : MarkerService.t URI Any)
    (this : MarkerStats.t URI) (resource : URI) :
  JsMap.get resource (MarkerStats._data (_update resources service this))
  = if decide (resource ∈ resources) then Some (_resourceStats service resource)
    else JsMap.get resource (MarkerStats._data this).
Proof.
  unfold MarkerStats._update. revert this.
  induction resources as [|resource' rest IH]; intros this.
  - cbn [fold_left]. rewrite decide_False; [reflexivity|apply not_elem_of_nil].
  - cbn [fold_left]. rewrite IH, update_one_data.
    destruct (decide (resource ∈ rest)) as [Hin|Hnotin].
    + rewrite decide_True; [reflexivity|now apply list_elem_of_further].
    + destruct (decide (resource = resource')) as [->|Hne].
      * rewrite decide_True; [reflexivity|apply list_elem_of_here].
      * rewrite decide_False; [reflexivity|].
        intros Hin. apply elem_of_cons in Hin as [?|?]; tauto.
Qed.

(** X25: the statistics that [_resourceStats] computes count every marker
    that [read] returns for the resource once: the four counters are not
    negative and add up to the number of these markers, and [errors] is the
    number of those whose severity is [MarkerSeverity.Error]. For a resource
    of one of the three schemes left out, all four are zero. *)
Theorem resource_stats_count (service : MarkerService.t URI Any) (resource : URI) :
  let stats := _resourceStats service resource in
  let markers :=
    if String.eqb (scheme resource) inMemory
       || String.eqb (scheme resource) walkThrough
       || String.eqb (scheme resource) walkThroughSnippet
    then []
    else MarkerService.read (MarkerService.mkFilter None (Some resource) None None) service in
  MarkerStatistics.total stats = len markers
  /\ MarkerStatistics.errors stats
     = len (filter (fun marker => IMarker.severity marker = Error) markers)
  /\ 0 <= MarkerStatistics.errors stats
  /\ 0 <= MarkerStatistics.warnings stats
  /\ 0 <= MarkerStatistics.infos stats
  /\ 0 <= MarkerStatistics.unknowns stats.
Proof.
  cbv zeta. unfold MarkerStats._resourceStats.
  destruct (_ || _).
  - split_and!; try reflexivity; cbn; lia.
  - pose proof (count_fold
                  (MarkerService.read
                     (MarkerService.mkFilter None (Some resource) None None) service)
                  MarkerStatistics.zero) as (H1 & H2 & H3 & H4 & H5).
    pose proof (len_nonneg
                  (filter (fun marker : IMarker.t URI Any => IMarker.severity marker = Error)
                     (MarkerService.read
                        (MarkerService.mkFilter None (Some resource) None None) service)))
      as Hn.
    unfold MarkerStatistics.total, MarkerStatistics.zero in *.
    cbn [MarkerStatistics.errors MarkerStatistics.warnings MarkerStatistics.infos
         MarkerStatistics.unknowns] in *.
    split_and!; lia.
Qed.

End Facts.

(** The statistics of a new [MarkerStats] brought up to date with a service
    that has an error and a warning for one resource. *)
Lemma totals_follow_updates_witness :
  MarkerStats.totals (MarkerStats.new (URI:=string))
    = MarkerStats.summed (MarkerStats._data (MarkerStats.new (URI:=string)))
  /\ MarkerStats.totals
       (MarkerStats._update (fun _ => "file"%string) "inmemory"%string
          "walkThrough"%string "walkThroughSnippet"%string 8 4 2
          ["file:///a"%string; "file:///a"%string] one_file MarkerStats.new)
     = MarkerStatistics.mk 1 1 0 0.
Proof.
  assert (MarkerStats.totals (MarkerStats.new (URI:=string))
          = MarkerStats.summed (MarkerStats._data (MarkerStats.new (URI:=string)))) as Hinv
    by reflexivity.
  split; [exact Hinv|].
  rewrite (totals_follow_updates (fun _ => "file"%string) "inmemory"%string
             "walkThrough"%string "walkThroughSnippet"%string 8 4 2
             ["file:///a"%string; "file:///a"%string] one_file MarkerStats.new Hinv).
  reflexivity.
Defined.

End MarkerStatsFacts.

(** * Properties of the configuration registry *)

Module ConfigurationRegistryFacts.

(** X27: [overrideIdentifierFromKey] undoes the bracketing of
    [updateOverridePropertyPatternKey]: of the key made of an override
    identifier, whatever its code units, it returns the identifier. Of a
    key of at most one code unit it returns the key itself. *)
Theorem override_identifier_round_trip
    (overrideIdentifier key : ConfigurationRegistry.jsstring) :
  ConfigurationRegistry.overrideIdentifierFromKey
    (ConfigurationRegistry.overrideIdentifierProperty overrideIdentifier)
  = overrideIdentifier
  /\ (len key <= 1 -> ConfigurationRegistry.overrideIdentifierFromKey key = key).
Proof.
  split.
  - unfold ConfigurationRegistry.overrideIdentifierFromKey,
      ConfigurationRegistry.overrideIdentifierProperty, ConfigurationRegistry.substring.
    cbv zeta.
    assert (len ([91%N] ++ overrideIdentifier ++ [93%N]) = len overrideIdentifier + 2)
      as -> by (unfold len; rewrite !length_app; cbn [length]; lia).
    pose proof (len_nonneg overrideIdentifier) as Hn.
    replace (Z.to_nat (Z.min (Z.min (Z.max 1 0) (len overrideIdentifier + 2))
                         (Z.min (Z.max (len overrideIdentifier + 2 - 1) 0)
                            (len overrideIdentifier + 2))))
      with 1%nat by lia.
    replace (Z.to_nat (Z.max (Z.min (Z.max 1 0) (len overrideIdentifier + 2))
                         (Z.min (Z.max (len overrideIdentifier + 2 - 1) 0)
                            (len overrideIdentifier + 2))
                       - Z.min (Z.min (Z.max 1 0) (len overrideIdentifier + 2))
                           (Z.min (Z.max (len overrideIdentifier + 2 - 1) 0)
                              (len overrideIdentifier + 2))))
      with (length overrideIdentifier) by (unfold len in *; lia).
    cbn [app drop]. apply take_app_length.
  - intros Hlen. destruct key as [|c [|c' key]]; [reflexivity|reflexivity|].
    unfold len in Hlen. cbn [length] in Hlen. lia.
Qed.

End ConfigurationRegistryFacts.
